(** * seed: an S-expression reader that prints its syntax tree as a graph

    A shallow embedding of [src/main.cpp] (namespace [seed]) and the
    properties of its tokenizer, parser, arena and renderer.

    Conventions of the embedding.
    - A [const char*] is an offset ([nat]) into the buffer it points into;
      the buffer is the [list ascii] of the bytes that may be read.  Reading
      outside of it is undefined behaviour in C++ and is the outcome
      [OutOfBounds] here.
    - [seed::error] prints a message and calls [std::exit(1)]: the outcome
      [Fatal], carrying the position and the message.
    - [int], [int64_t] and [size_t] counters are modelled by [nat]: they
      start at 0 or 1, only grow by one, and are bounded by the length of
      the buffer or of the arena, far below the width at which they wrap.
    - Recursion that is not structural takes a fuel argument; the drivers
      supply it, and running out of it is the outcome [OutOfFuel]. *)

From Stdlib Require Import String Ascii List Arith Bool Lia DecimalString Relations Permutation Sorted.
Import ListNotations.

Local Open Scope list_scope.

(** ** Bytes *)

Definition NUL : ascii := "000".
Definition newline : ascii := "010".
Definition tab : ascii := "009".
Definition vtab : ascii := "011".
Definition formfeed : ascii := "012".
Definition space : ascii := " ".
Definition lparen : ascii := "(".
Definition rparen : ascii := ")".
Definition dquote : ascii := "034".
Definition squote : ascii := "039".
Definition backslash : ascii := "\".

(** The bytes of a string literal. *)
Definition bytes (s : string) : list ascii := list_ascii_of_string s.

(** [in_group(c, args...)]: [((c == args) or ...)]. *)
Definition in_group (c : ascii) (args : list ascii) : bool :=
  existsb (Ascii.eqb c) args.

(** [is_whitespace(c)]. *)
Definition is_whitespace (c : ascii) : bool :=
  in_group c [space; newline; tab; vtab; formfeed].

(** ** Positions, outcomes *)

(** [struct Position { int line = 1, column = 1; }]. *)
Record Position : Type := mkPosition { line : nat; column : nat }.

Inductive outcome (A : Type) : Type :=
| Done (a : A)
| Fatal (pos : Position) (msg : string)
| OutOfBounds
| OutOfFuel.

Arguments Done {A} a.
Arguments Fatal {A} pos msg.
Arguments OutOfBounds {A}.
Arguments OutOfFuel {A}.

Definition bind {A B : Type} (m : outcome A) (k : A -> outcome B) : outcome B :=
  match m with
  | Done a => k a
  | Fatal p s => Fatal p s
  | OutOfBounds => OutOfBounds
  | OutOfFuel => OutOfFuel
  end.

Declare Scope outcome_scope.
Delimit Scope outcome_scope with outcome.
Notation "x <- m ;; k" := (bind m (fun x => k))
  (at level 61, m at next level, right associativity) : outcome_scope.
Notation "' p <- m ;; k" := (bind m (fun x => match x with p => k end))
  (at level 61, p pattern, m at next level, right associativity) : outcome_scope.
Local Open Scope outcome_scope.

(** [*ptr]. *)
Definition read (buf : list ascii) (ptr : nat) : outcome ascii :=
  match nth_error buf ptr with
  | Some c => Done c
  | None => OutOfBounds
  end.

(** [*(ptr - 1)]: there is no byte before the first one. *)
Definition read_before (buf : list ascii) (ptr : nat) : outcome ascii :=
  match ptr with
  | O => OutOfBounds
  | S p => read buf p
  end.

(** ** Views and tokens *)

(** [struct View { const char* begin; int length; }]. *)
Record View : Type := mkView { v_begin : nat; v_length : nat }.

(** The bytes a view denotes, as [operator<<] writes them with
    [os.write(vbegin, vlength)].  The views the tokenizer makes lie
    within the buffer (see [next_token_view]). *)
Definition view_text (buf : list ascii) (v : View) : list ascii :=
  firstn (v_length v) (skipn (v_begin v) buf).

(** The enumeration generated from the [TOKENS] X-macro. *)
Inductive token_type : Type :=
| TOKEN_NONE
| TOKEN_EOF
| TOKEN_LPAREN
| TOKEN_RPAREN
| TOKEN_STRING
| TOKEN_IDENTIFIER.

Definition token_type_eqb (a b : token_type) : bool :=
  match a, b with
  | TOKEN_NONE, TOKEN_NONE
  | TOKEN_EOF, TOKEN_EOF
  | TOKEN_LPAREN, TOKEN_LPAREN
  | TOKEN_RPAREN, TOKEN_RPAREN
  | TOKEN_STRING, TOKEN_STRING
  | TOKEN_IDENTIFIER, TOKEN_IDENTIFIER => true
  | _, _ => false
  end.

(** [struct Token { View view; uint8_t type; }]. *)
Record Token : Type := mkToken { view : View; type : token_type }.

(** [Token()]: a null view and type 0. *)
Definition Token_default : Token := mkToken (mkView 0 0) TOKEN_NONE.

(** [operator==(const Token&, uint8_t)] and [operator!=]. *)
Definition tok_is (t : Token) (ty : token_type) : bool :=
  token_type_eqb (type t) ty.
Definition tok_isnt (t : Token) (ty : token_type) : bool :=
  negb (tok_is t ty).

(** [operator<<(std::ostream&, const Token&)]. *)
Definition token_text (buf : list ascii) (t : Token) : list ascii :=
  view_text buf (view t).

(** ** Position tracker *)

(** The loop [while (ptr++ != end)] of [position], for the [n] iterations
    that remain: the test increments the pointer, and the body compares the
    byte it then points at with the newline. *)
Fixpoint position_loop (buf : list ascii) (n : nat) (ptr : nat)
    (coord : Position) : outcome Position :=
  match n with
  | O => Done coord
  | S n' =>
      c <- read buf (S ptr) ;;
      position_loop buf n' (S ptr)
        (if Ascii.eqb c newline
         then mkPosition (S (line coord)) 1
         else mkPosition (line coord) (S (column coord)))
  end.

(** [position(ptr, end)].  With [end] before [ptr] the loop never meets
    [end] and runs off the buffer. *)
Definition position (buf : list ascii) (ptr end_ : nat) : outcome Position :=
  if end_ <? ptr then OutOfBounds
  else position_loop buf (end_ - ptr) ptr (mkPosition 1 1).

(** ** Tokenizer *)

(** The loop [do ++ptr; while (cond( *ptr ))], where [rest] holds the
    bytes from the incremented pointer on. *)
Fixpoint scan_while (cond : ascii -> bool) (rest : list ascii) (ptr : nat)
    : outcome nat :=
  match rest with
  | [] => OutOfBounds
  | c :: rest' => if cond c then scan_while cond rest' (S ptr) else Done ptr
  end.

Definition do_while (cond : ascii -> bool) (buf : list ascii) (ptr : nat)
    : outcome nat :=
  scan_while cond (skipn (S ptr) buf) (S ptr).

(** The text of the [unexpected character] diagnostic. *)
Definition unexpected_character (c : ascii) : string :=
  (": unexpected character `" ++ String.String c "`("%string
   ++ NilEmpty.string_of_uint (Nat.to_uint (nat_of_ascii c)) ++ ").")%string.

(** [next_token(start, ptr)]: the token and the advanced cursor.  The
    function calls itself after a run of whitespace, [depth] bounds that. *)
Fixpoint next_token_rec (depth : nat) (buf : list ascii) (start ptr : nat)
    : outcome (Token * nat) :=
  match depth with
  | O => OutOfFuel
  | S depth' =>
      c <- read buf ptr ;;
      if Ascii.eqb c NUL then
        Done (mkToken (mkView ptr 1) TOKEN_EOF, ptr)
      else if Ascii.eqb c lparen then
        Done (mkToken (mkView ptr 1) TOKEN_LPAREN, S ptr)
      else if Ascii.eqb c rparen then
        Done (mkToken (mkView ptr 1) TOKEN_RPAREN, S ptr)
      else
        (* a quote byte at the cursor and, only then, no backslash before it *)
        is_string <-
          (if Ascii.eqb c dquote || Ascii.eqb c squote
           then prev <- read_before buf ptr ;;
                Done (negb (Ascii.eqb prev backslash))
           else Done false) ;;
        if is_string then
          let delim := c in
          ptr' <- do_while
                    (fun x => negb (Ascii.eqb x delim) && negb (Ascii.eqb x NUL))
                    buf ptr ;;
          let ptr'' := S ptr' in
          let vptr := S ptr in
          Done (mkToken (mkView vptr (ptr'' - vptr - 1)) TOKEN_STRING, ptr'')
        else if negb (is_whitespace c) then
          let vptr := if Ascii.eqb c backslash then S ptr else ptr in
          ptr' <- do_while
                    (fun x => negb (is_whitespace x)
                              && negb (in_group x [lparen; rparen]))
                    buf ptr ;;
          Done (mkToken (mkView vptr (ptr' - vptr)) TOKEN_IDENTIFIER, ptr')
        else if is_whitespace c then
          ptr' <- do_while is_whitespace buf ptr ;;
          next_token_rec depth' buf start ptr'
        else
          pos <- position buf start ptr ;;
          Fatal pos (unexpected_character c)
  end.

(** One recursive call is all a run of whitespace needs: the byte after
    the run is not whitespace (see [next_token_never_out_of_fuel]). *)
Definition next_token (buf : list ascii) (start ptr : nat)
    : outcome (Token * nat) :=
  next_token_rec 2 buf start ptr.

(** ** Lexer *)

(** [class Lexer { const char* const start; const char* str; Token lookahead; }]. *)
Record Lexer : Type := mkLexer { start : nat; str : nat; lookahead : Token }.

(** [Lexer::peek()]. *)
Definition peek (lex : Lexer) : Token := lookahead lex.

(** [Lexer::advance()]: the old lookahead, and the lexer with the next one. *)
Definition advance (buf : list ascii) (lex : Lexer) : outcome (Token * Lexer) :=
  let tok := peek lex in
  '(la, ptr) <- next_token buf (start lex) (str lex) ;;
  Done (tok, mkLexer (start lex) ptr la).

(** [Lexer::position()]. *)
Definition Lexer_position (buf : list ascii) (lex : Lexer) : outcome Position :=
  position buf (start lex) (str lex).

(** [Lexer::Lexer(str_)]: both pointers at [str_], then one [advance()]. *)
Definition Lexer_new (buf : list ascii) (str_ : nat) : outcome Lexer :=
  '(_, lex) <- advance buf (mkLexer str_ str_ Token_default) ;;
  Done lex.

(** ** Syntax tree and arena *)

(** [using node_t = int64_t]: a handle is an index into the arena. *)
Definition node_t : Type := nat.

(** The alternatives of [AST]'s variant: [List], [Identifer], [String]
    and [Empty]. *)
Inductive Node : Type :=
| List (op : Token) (children : list node_t)
| Identifer (tok : Token)
| String (tok : Token)
| Empty.

(** [using AST = HomogenousVector<List, Identifer, String, Empty>]. *)
Definition AST : Type := list Node.

(** [HomogenousVector::add]: [emplace_back], then [size() - 1]. *)
Definition add (tree : AST) (n : Node) : AST * node_t :=
  let tree' := tree ++ [n] in
  (tree', length tree' - 1).

(** [tree[n]], which does not check its index. *)
Definition index (tree : AST) (n : node_t) : outcome Node :=
  match nth_error tree n with
  | Some v => Done v
  | None => OutOfBounds
  end.

(** ** Parser *)

(** [error(lex.position(), msg)]: the position is computed first. *)
Definition error {A : Type} (buf : list ascii) (lex : Lexer) (msg : string)
    : outcome A :=
  pos <- Lexer_position buf lex ;;
  Fatal pos msg.

Definition expected_lparen : string := ": expected `(`.".
Definition expected_rparen : string := ": expected `)`.".
Definition expected_operator : string := ": expected identifer or string.".

(** The [while] loop of [expr] that collects the children; [rec] is
    [expr] itself.  A lookahead that is none of the five kinds tested
    leaves the lexer where it is, and the loop goes round again. *)
Fixpoint expr_loop
    (rec : Lexer -> AST -> outcome (node_t * Lexer * AST))
    (fuel : nat) (buf : list ascii) (lex : Lexer) (tree : AST)
    (children : list node_t) : outcome (list node_t * Lexer * AST) :=
  match fuel with
  | O => OutOfFuel
  | S fuel' =>
      if tok_isnt (peek lex) TOKEN_RPAREN && tok_isnt (peek lex) TOKEN_EOF then
        if tok_is (peek lex) TOKEN_LPAREN then
          '(child, lex', tree') <- rec lex tree ;;
          expr_loop rec fuel' buf lex' tree' (children ++ [child])
        else if tok_is (peek lex) TOKEN_IDENTIFIER then
          '(tok, lex') <- advance buf lex ;;
          let '(tree', child) := add tree (Identifer tok) in
          expr_loop rec fuel' buf lex' tree' (children ++ [child])
        else if tok_is (peek lex) TOKEN_STRING then
          '(tok, lex') <- advance buf lex ;;
          let '(tree', child) := add tree (String tok) in
          expr_loop rec fuel' buf lex' tree' (children ++ [child])
        else
          expr_loop rec fuel' buf lex tree children
      else Done (children, lex, tree)
  end.

(** [expr(lex, tree)]: the handle of the form, with the lexer and the
    arena as the call leaves them. *)
Fixpoint expr (fuel : nat) (buf : list ascii) (lex : Lexer) (tree : AST)
    : outcome (node_t * Lexer * AST) :=
  match fuel with
  | O => OutOfFuel
  | S fuel' =>
      '(t, lex1) <- advance buf lex ;;
      if tok_isnt t TOKEN_LPAREN then error buf lex1 expected_lparen
      else
        '(op, lex2) <- advance buf lex1 ;;
        if tok_is op TOKEN_RPAREN then
          let '(tree', h) := add tree Empty in Done (h, lex2, tree')
        else if tok_isnt op TOKEN_IDENTIFIER && tok_isnt op TOKEN_STRING then
          error buf lex2 expected_operator
        else
          '(children, lex3, tree3) <-
             expr_loop (expr fuel' buf) fuel' buf lex2 tree [] ;;
          '(t', lex4) <- advance buf lex3 ;;
          if tok_isnt t' TOKEN_RPAREN then error buf lex4 expected_rparen
          else
            let '(tree', h) := add tree3 (List op children) in
            Done (h, lex4, tree')
  end.

(** The [while] loop of [parse]. *)
Fixpoint parse_loop (fuel : nat) (buf : list ascii) (lex : Lexer) (tree : AST)
    (roots : list node_t) : outcome (list node_t * Lexer * AST) :=
  match fuel with
  | O => OutOfFuel
  | S fuel' =>
      if tok_isnt (peek lex) TOKEN_EOF then
        '(root, lex', tree') <- expr fuel' buf lex tree ;;
        parse_loop fuel' buf lex' tree' (roots ++ [root])
      else Done (roots, lex, tree)
  end.

(** [parse(lex, tree)]. *)
Definition parse (fuel : nat) (buf : list ascii) (lex : Lexer) (tree : AST)
    : outcome (list node_t * Lexer * AST) :=
  parse_loop fuel buf lex tree [].

(** ** Renderer *)

(** One statement of the output: every [str += ...] of the renderer
    appends one of these lines. *)
Inductive stmt : Type :=
| Open (indent : nat) (title : list ascii)
| Close (indent : nat)
| NodeDecl (indent : nat) (id : nat) (label : Token)
| EdgeDecl (indent : nat) (parent : nat) (child : nat).

(** [tabs(n)]. *)
Definition tabs (n : nat) : list ascii := repeat tab n.

(** [std::to_string] and [operator<<] of an [int] that is not negative. *)
Definition to_string (n : nat) : list ascii :=
  bytes (NilEmpty.string_of_uint (Nat.to_uint n)).

(** [strcat(args...)]: the stream starts over the two bytes
    [{sizeof...(Ts), NUL}] and the insertions overwrite them from the
    front. *)
Definition strcat (args : list (list ascii)) : list ascii :=
  let buf := [ascii_of_nat (length args); NUL] in
  let written := concat args in
  written ++ skipn (length written) buf.

(** The text each statement stands for. *)
Definition stmt_text (buf : list ascii) (s : stmt) : list ascii :=
  match s with
  | Open indent title => tabs indent ++ title ++ bytes " {" ++ [newline]
  | Close indent => tabs indent ++ bytes "}" ++ [newline]
  | NodeDecl indent id label =>
      tabs indent
      ++ strcat [bytes "n"; to_string id; bytes " [label=" ++ [dquote];
                 token_text buf label; [dquote] ++ bytes "];" ++ [newline]]
  | EdgeDecl indent parent child =>
      tabs indent
      ++ strcat [bytes "n"; to_string parent; bytes " -> n"; to_string child;
                 bytes ";" ++ [newline]]
  end.

(** What the three node lambdas of [render_nodes] share: take the next
    id, declare the node, and draw the edge unless [self_id == parent_id]. *)
Definition declare (str : list stmt) (indent_size parent_id self_id : nat)
    (label : Token) : list stmt :=
  let str := str ++ [NodeDecl indent_size self_id label] in
  if negb (self_id =? parent_id)
  then str ++ [EdgeDecl indent_size parent_id self_id]
  else str.

(** The [for] loop over the children of a [List]; [rec] is [render_nodes]. *)
Fixpoint render_children
    (rec : Node -> list stmt -> nat -> nat -> outcome (list stmt * nat))
    (children : list node_t) (tree : AST) (str : list stmt)
    (self_id node_counter : nat) : outcome (list stmt * nat) :=
  match children with
  | [] => Done (str, node_counter)
  | child :: rest =>
      variant <- index tree child ;;
      '(str', node_counter') <- rec variant str self_id node_counter ;;
      render_children rec rest tree str' self_id (S node_counter')
  end.

(** [render_nodes(variant, tree, str, indent_size, parent_id, node_counter)]:
    the text and the counter, both passed by reference in the source. *)
Fixpoint render_nodes (fuel : nat) (tree : AST) (indent_size : nat)
    (variant : Node) (str : list stmt) (parent_id node_counter : nat)
    : outcome (list stmt * nat) :=
  match fuel with
  | O => OutOfFuel
  | S fuel' =>
      match variant with
      | List op children =>
          let self_id := node_counter in
          let str := declare str indent_size parent_id self_id op in
          render_children (render_nodes fuel' tree indent_size)
            children tree str self_id (S node_counter)
      | Identifer x =>
          let self_id := node_counter in
          Done (declare str indent_size parent_id self_id x, S node_counter)
      | String x =>
          let self_id := node_counter in
          Done (declare str indent_size parent_id self_id x, S node_counter)
      | Empty => Done (str, node_counter)
      end
  end.

(** [render_cluster(variant, tree, str, node_counter, title, indent_size)]. *)
Definition render_cluster (fuel : nat) (tree : AST) (variant : Node)
    (str : list stmt) (node_counter : nat) (title : list ascii)
    (indent_size : nat) : outcome (list stmt * nat) :=
  let str := str ++ [Open indent_size title] in
  '(str', node_counter') <-
     render_nodes fuel tree (S indent_size) variant str
       node_counter node_counter ;;
  Done (str' ++ [Close indent_size], S node_counter').

(** The [for] loop of [render] over the roots. *)
Fixpoint render_roots (fuel : nat) (tree : AST) (roots : list node_t)
    (str : list stmt) (node_counter graph_id indent_size : nat)
    : outcome (list stmt * nat) :=
  match roots with
  | [] => Done (str, node_counter)
  | n :: rest =>
      variant <- index tree n ;;
      '(str', node_counter') <-
         render_cluster fuel tree variant str node_counter
           (bytes "subgraph cluster" ++ to_string graph_id) (S indent_size) ;;
      render_roots fuel tree rest str' node_counter' (S graph_id) indent_size
  end.

(** The statements of [render(roots, tree, title, indent_size)].  A node
    is visited from a node of larger index in any arena the parser builds,
    so the length of the arena bounds the depth of the visit. *)
Definition render_stmts (roots : list node_t) (tree : AST)
    (title : list ascii) (indent_size : nat) : outcome (list stmt) :=
  let node_counter := 0 in
  let str := [Open indent_size title] in
  '(str', _) <-
     render_roots (length tree) tree roots str node_counter 0 indent_size ;;
  Done (str' ++ [Close indent_size]).

(** [render(roots, tree)] with its default title and indentation: the
    text, the token labels being read from [buf]. *)
Definition render (buf : list ascii) (roots : list node_t) (tree : AST)
    : outcome (list ascii) :=
  stmts <- render_stmts roots tree (bytes "digraph") 0 ;;
  Done (flat_map (stmt_text buf) stmts).

(** ** The program *)

(** [read_file]: a string of [filesize + 1] NUL bytes whose first
    [filesize] bytes are overwritten with the file. *)
Definition read_file (content : list ascii) : list ascii :=
  content ++ [NUL].

(** [std::string::c_str()]: the bytes of the string and the terminator
    that follows them. *)
Definition c_str (s : list ascii) : list ascii := s ++ [NUL].

(** No call of [expr] and no turn of its loops leaves the cursor where it
    was, so the length of the buffer bounds them (see
    [parse_never_out_of_fuel]). *)
Definition parse_fuel (buf : list ascii) : nat := S (S (length buf)).

(** The parse of a buffer, as [main] sets it up: a lexer at the start of
    the buffer and an empty arena. *)
Definition parse_buffer (buf : list ascii) : outcome (list node_t * AST) :=
  lex <- Lexer_new buf 0 ;;
  '(roots, _, tree) <- parse (parse_fuel buf) buf lex [] ;;
  Done (roots, tree).

(** [main], from [read_file] on: what is written to standard output. *)
Definition seed_main (content : list ascii) : outcome (list ascii) :=
  let buf := c_str (read_file content) in
  '(roots, tree) <- parse_buffer buf ;;
  render buf roots tree.


(** * Vocabulary of the properties *)

(** ** Classes of bytes *)

(** The bytes a string literal scans over: anything but its own delimiter
    and the terminator. *)
Definition string_char (delim : ascii) (x : ascii) : bool :=
  negb (Ascii.eqb x delim) && negb (Ascii.eqb x NUL).

(** The bytes an identifier scans over: anything but whitespace and the
    two parentheses. *)
Definition ident_char (x : ascii) : bool :=
  negb (is_whitespace x) && negb (in_group x [lparen; rparen]).

(** The bytes at which [next_token] starts an identifier whatever
    precedes them: not the terminator, a parenthesis, a quote or
    whitespace. *)
Definition ident_start (c : ascii) : bool :=
  negb (Ascii.eqb c NUL) && negb (Ascii.eqb c lparen)
  && negb (Ascii.eqb c rparen)
  && negb (Ascii.eqb c dquote || Ascii.eqb c squote)
  && negb (is_whitespace c).

Definition is_quote (c : ascii) : Prop := c = dquote \/ c = squote.

(** ** The position the specification describes *)

(** Line and column after the bytes of [l], scanned one by one: a newline
    starts the next line at column 1, any other byte moves one column on. *)
Fixpoint scan_position (l : list ascii) (coord : Position) : Position :=
  match l with
  | [] => coord
  | c :: l' =>
      scan_position l'
        (if Ascii.eqb c newline
         then mkPosition (S (line coord)) 1
         else mkPosition (line coord) (S (column coord)))
  end.

(** The position of [cursor]: from the bytes that lie between the start
    of the source and the cursor, the cursor's own byte left out. *)
Definition position_spec (buf : list ascii) (start_ cursor : nat) : Position :=
  scan_position (firstn (cursor - start_) (skipn start_ buf)) (mkPosition 1 1).

(** ** Inputs the properties name *)

(** The file holding [(add (mul 2 3) "x")]. *)
Definition add_mul_x : list ascii :=
  bytes "(add (mul 2 3) " ++ [dquote] ++ bytes "x" ++ [dquote] ++ bytes ")".

(** The file holding [("a (b) c")]. *)
Definition quoted_a_b_c : list ascii :=
  bytes "(" ++ [dquote] ++ bytes "a (b) c" ++ [dquote] ++ bytes ")".

(** ** What is compared of a token and of a node *)

(** The kind of a token and the bytes it denotes. *)
Definition token_shape (buf : list ascii) (t : Token)
    : token_type * list ascii :=
  (type t, token_text buf t).

(** A node with its tokens replaced by their kind and text: what is left
    of a node when the places of its tokens in the buffer are forgotten. *)
Inductive Shape : Type :=
| SList (op : token_type * list ascii) (children : list node_t)
| SIdentifer (tok : token_type * list ascii)
| SString (tok : token_type * list ascii)
| SEmpty.

Definition node_shape (buf : list ascii) (n : Node) : Shape :=
  match n with
  | List op children => SList (token_shape buf op) children
  | Identifer t => SIdentifer (token_shape buf t)
  | String t => SString (token_shape buf t)
  | Empty => SEmpty
  end.

(** ** Reading a rendered output *)

(** The ids of the node declarations, in the order of emission. *)
Fixpoint decl_ids (l : list stmt) : list nat :=
  match l with
  | [] => []
  | NodeDecl _ id _ :: l' => id :: decl_ids l'
  | _ :: l' => decl_ids l'
  end.

(** The labels of the node declarations, in the order of emission. *)
Fixpoint decl_labels (l : list stmt) : list Token :=
  match l with
  | [] => []
  | NodeDecl _ _ t :: l' => t :: decl_labels l'
  | _ :: l' => decl_labels l'
  end.

(** The edges, as pairs of a parent id and a child id. *)
Fixpoint edges (l : list stmt) : list (nat * nat) :=
  match l with
  | [] => []
  | EdgeDecl _ p c :: l' => (p, c) :: edges l'
  | _ :: l' => edges l'
  end.

(** The titles of the blocks opened at [indent]. *)
Fixpoint blocks (indent : nat) (l : list stmt) : list (list ascii) :=
  match l with
  | [] => []
  | Open i title :: l' =>
      if i =? indent then title :: blocks indent l' else blocks indent l'
  | _ :: l' => blocks indent l'
  end.

(** ** The shape of an arena *)

(** The handles a node holds. *)
Definition children_of (n : Node) : list node_t :=
  match n with
  | List _ children => children
  | _ => []
  end.

(** All the handles held in an arena, node after node. *)
Definition references (tree : AST) : list node_t :=
  flat_map children_of tree.

(** [c] is a child of [p]: the node stored at [p] holds the handle [c]. *)
Definition child_of (tree : AST) (c p : node_t) : Prop :=
  exists n, nth_error tree p = Some n /\ In c (children_of n).

(** The nodes [new], stored from index [base] on, refer to one another
    only, each to nodes stored before itself, and no handle occurs twice. *)
Definition segment (base : nat) (new : list Node) : Prop :=
  (forall j n c,
     nth_error new j = Some n -> In c (children_of n) -> base <= c < base + j)
  /\ NoDup (references new).

(** [segment], and a list [handles] of further handles into the segment
    that are not yet stored in a node. *)
Definition collected (base : nat) (new : list Node) (handles : list node_t)
    : Prop :=
  segment base new
  /\ NoDup (handles ++ references new)
  /\ (forall h, In h handles -> base <= h < base + length new).

(** The arena is a forest under the roots: every handle is the index of a
    node, a child is stored before its parent, no node is its own
    descendant, and no node is referred to twice, be it by two nodes, twice
    by one, or by a node and as a root. *)
Definition forest (tree : AST) (roots : list node_t) : Prop :=
  (forall r, In r roots -> r < length tree)
  /\ (forall c p, child_of tree c p -> c < p < length tree)
  /\ (forall i, ~ Relation_Operators.clos_trans node_t (child_of tree) i i)
  /\ NoDup (roots ++ references tree).

(** What [expr] promises, and what its loop asks of the calls it makes:
    a call appends one segment to the arena and returns the index of the
    last node of it. *)
Definition appends_segment
    (rec : Lexer -> AST -> outcome (node_t * Lexer * AST)) : Prop :=
  forall lex tree h lex' tree',
    rec lex tree = Done (h, lex', tree') ->
    exists sub,
      tree' = tree ++ sub /\ sub <> []
      /\ h = length tree + length sub - 1
      /\ segment (length tree) sub.


(** ** The traversal the renderer is to perform *)

(** Ids that go up one by one, without a gap. *)
Fixpoint gap_free (ids : list nat) : bool :=
  match ids with
  | a :: (b :: _) as rest => (b =? S a) && gap_free rest
  | _ => true
  end.

(** The title of the cluster of the root number [graph_id]. *)
Definition cluster_title (graph_id : nat) : list ascii :=
  bytes "subgraph cluster" ++ to_string graph_id.

(** The edge that accompanies the declaration of a node: from its parent,
    when it has one in its cluster. *)
Definition edge_from (parent : option nat) (indent self_id : nat) : list stmt :=
  match parent with
  | Some p => [EdgeDecl indent p self_id]
  | None => []
  end.

(** The two ways the counter may move on once the visit of a child, or a
    cluster, is over: [grows] asks only that it does not go back, [bumps]
    that it goes up by one. *)
Definition grows (a b : nat) : Prop := a <= b.
Definition bumps (a b : nat) : Prop := b = S a.

Section Traversal.
Variable step : nat -> nat -> Prop.
Variable tree : AST.

(** [visit indent parent n c out c']: the visit of the node [n], below
    the node of id [parent] if any, with the counter at [c], emits [out]
    and leaves the counter at [c'].  A node that is not [Empty] takes the
    id [c], is declared, and gets the edge from its parent; a [List] goes
    on with its children, in order, under its own id. *)
Inductive visit (indent : nat)
    : option nat -> Node -> nat -> list stmt -> nat -> Prop :=
| visit_Empty parent c :
    visit indent parent Empty c [] c
| visit_Identifer parent x c :
    visit indent parent (Identifer x) c
      (NodeDecl indent c x :: edge_from parent indent c) (S c)
| visit_String parent x c :
    visit indent parent (String x) c
      (NodeDecl indent c x :: edge_from parent indent c) (S c)
| visit_List parent op children c out c' :
    visit_children indent c children (S c) out c' ->
    visit indent parent (List op children) c
      (NodeDecl indent c op :: edge_from parent indent c ++ out) c'
with visit_children (indent : nat)
    : nat -> list node_t -> nat -> list stmt -> nat -> Prop :=
| visit_nil self c :
    visit_children indent self [] c [] c
| visit_cons self child rest n c out1 c1 c1' out2 c2 :
    nth_error tree child = Some n ->
    visit indent (Some self) n c out1 c1 ->
    step c1 c1' ->
    visit_children indent self rest c1' out2 c2 ->
    visit_children indent self (child :: rest) c (out1 ++ out2) c2.

(** One cluster for each root, in order; the first node of a cluster has
    no parent. *)
Inductive clusters (indent : nat)
    : list node_t -> nat -> nat -> list stmt -> nat -> Prop :=
| clusters_nil graph_id c :
    clusters indent [] graph_id c [] c
| clusters_cons root rest n graph_id c body c1 c1' out c2 :
    nth_error tree root = Some n ->
    visit (S (S indent)) None n c body c1 ->
    step c1 c1' ->
    clusters indent rest (S graph_id) c1' out c2 ->
    clusters indent (root :: rest) graph_id c
      (Open (S indent) (cluster_title graph_id)
       :: body ++ Close (S indent) :: out) c2.

End Traversal.

Scheme visit_mut := Minimality for visit Sort Prop
  with visit_children_mut := Minimality for visit_children Sort Prop.

(** The nodes the renderer comes to: the roots, and the children of the
    nodes it comes to. *)
Inductive visited (tree : AST) (roots : list node_t) : node_t -> Prop :=
| visited_root r : In r roots -> visited tree roots r
| visited_child c p :
    visited tree roots p -> child_of tree c p -> visited tree roots c.

(** The ids [l] go up strictly and lie between the counter [c] before
    they were given out and the counter [c'] after. *)
Definition ids_within (c : nat) (l : list nat) (c' : nat) : Prop :=
  c <= c' /\ StronglySorted lt l /\ Forall (fun x => c <= x < c') l.

(** The arena of [(add (mul 2 3) "x")], as the parser builds it. *)
Definition add_mul_x_tree : AST :=
  [Identifer (mkToken (mkView 10 1) TOKEN_IDENTIFIER);
   Identifer (mkToken (mkView 12 1) TOKEN_IDENTIFIER);
   List (mkToken (mkView 6 3) TOKEN_IDENTIFIER) [0; 1];
   String (mkToken (mkView 16 1) TOKEN_STRING);
   List (mkToken (mkView 1 3) TOKEN_IDENTIFIER) [2; 3]].

(** ** Inputs that differ in their whitespace only *)

(** A token as it is spelled in the source. *)
Inductive lexeme : Type :=
| LParen
| RParen
| Quoted (delim : ascii) (body : list ascii)
| Symbol (first : ascii) (rest : list ascii).

Definition spelling (l : lexeme) : list ascii :=
  match l with
  | LParen => [lparen]
  | RParen => [rparen]
  | Quoted delim body => delim :: body ++ [delim]
  | Symbol first rest => first :: rest
  end.

(** A literal is closed by the quote that opens it and holds neither that
    quote nor the terminator; a symbol starts with a byte that starts
    nothing else and goes on with bytes that do not end it. *)
Definition lexeme_ok (l : lexeme) : bool :=
  match l with
  | LParen | RParen => true
  | Quoted delim body =>
      (Ascii.eqb delim dquote || Ascii.eqb delim squote)
      && forallb (string_char delim) body
  | Symbol first rest => ident_start first && forallb ident_char rest
  end.

(** The kind and the text of the token a lexeme is read as. *)
Definition lexeme_type (l : lexeme) : token_type :=
  match l with
  | LParen => TOKEN_LPAREN
  | RParen => TOKEN_RPAREN
  | Quoted _ _ => TOKEN_STRING
  | Symbol _ _ => TOKEN_IDENTIFIER
  end.

Definition lexeme_text (l : lexeme) : list ascii :=
  match l with
  | LParen => [lparen]
  | RParen => [rparen]
  | Quoted _ body => body
  | Symbol first rest => if Ascii.eqb first backslash then rest else first :: rest
  end.

(** The buffer of an input: each lexeme after a gap, a last gap, the
    terminator, and the bytes [tail] that follow it in memory. *)
Fixpoint layout (tail : list ascii) (items : list (list ascii * lexeme))
    (final : list ascii) : list ascii :=
  match items with
  | [] => final ++ NUL :: tail
  | (gap, l) :: items' => gap ++ spelling l ++ layout tail items' final
  end.

(** The byte that follows a lexeme has to end it. *)
Definition separated (l : lexeme) (next : ascii) : bool :=
  match l with
  | Symbol _ _ => negb (ident_char next)
  | _ => true
  end.

(** The gaps hold whitespace and nothing else, the lexemes are well
    formed, and each is separated from what follows. *)
Fixpoint well_spaced (items : list (list ascii * lexeme)) (final : list ascii)
    : bool :=
  match items with
  | [] => forallb is_whitespace final
  | (gap, l) :: items' =>
      forallb is_whitespace gap && lexeme_ok l
      && separated l (hd NUL (layout [] items' final))
      && well_spaced items' final
  end.

(** A literal does not stand at the very start of the buffer: the
    tokenizer looks at the byte before a quote. *)
Definition starts_ok (items : list (list ascii * lexeme)) : bool :=
  match items with
  | ([], Quoted _ _) :: _ => false
  | _ => true
  end.

(** The bytes [pre] before the cursor do not end in a backslash, should a
    literal follow at once. *)
Definition prev_ok (pre : list ascii) (items : list (list ascii * lexeme))
    : Prop :=
  match items with
  | ([], Quoted _ _) :: _ => exists pre' b, pre = pre' ++ [b] /\ b <> backslash
  | _ => True
  end.

(** The cursor [p] stands in [buf] before the items. *)
Definition Cursor (buf : list ascii) (p : nat)
    (items : list (list ascii * lexeme)) (final : list ascii) : Prop :=
  exists pre tail,
    buf = pre ++ layout tail items final /\ p = length pre
    /\ well_spaced items final = true /\ prev_ok pre items.

(** The lexer has read the first of the lexemes [rem] into its lookahead,
    or the end of input when there is none, and the others lie before its
    cursor. *)
Definition Lexed (buf : list ascii) (lex : Lexer) (rem : list lexeme) : Prop :=
  start lex = 0 /\
  match rem with
  | [] => type (lookahead lex) = TOKEN_EOF /\ Cursor buf (str lex) [] []
  | l :: rem' =>
      token_shape buf (lookahead lex) = (lexeme_type l, lexeme_text l)
      /\ exists items final,
           map snd items = rem' /\ Cursor buf (str lex) items final
  end.

(** Two arenas of the same shape. *)
Definition same_shape (buf1 buf2 : list ascii) (tree1 tree2 : AST) : Prop :=
  map (node_shape buf1) tree1 = map (node_shape buf2) tree2.

(** Two parses end alike: with the same roots and arenas of the same
    shape, or with the same error message. *)
Definition same_parse (buf1 buf2 : list ascii)
    (r1 r2 : outcome (list node_t * AST)) : Prop :=
  match r1, r2 with
  | Done (roots1, tree1), Done (roots2, tree2) =>
      roots1 = roots2 /\ same_shape buf1 buf2 tree1 tree2
  | Fatal _ msg1, Fatal _ msg2 => msg1 = msg2
  | _, _ => False
  end.

(** Two calls of the parser, on two buffers, end alike: with the same
    value, arenas of the same shape and lexers that have the same lexemes
    left, at most [bound] of them, or with the same error message. *)
Definition alike {A : Type} (buf1 buf2 : list ascii) (bound : nat)
    (r1 r2 : outcome (A * Lexer * AST)) : Prop :=
  match r1, r2 with
  | Done (a1, lex1, tree1), Done (a2, lex2, tree2) =>
      a1 = a2 /\ same_shape buf1 buf2 tree1 tree2
      /\ exists rem,
           length rem <= bound /\ Lexed buf1 lex1 rem /\ Lexed buf2 lex2 rem
  | Fatal _ msg1, Fatal _ msg2 => msg1 = msg2
  | _, _ => False
  end.

(** ** What bounds the work of the parser *)




(** What the loop over the children asks of [render_nodes]: below a
    parent, a call appends the statements of the visit of its node. *)
Definition renders_visit (tree : AST) (indent : nat)
    (rec : Node -> list stmt -> nat -> nat -> outcome (list stmt * nat))
    : Prop :=
  forall n str parent c str' c',
    rec n str parent c = Done (str', c') -> parent < c ->
    c <= c' /\ exists out,
      str' = str ++ out /\ visit bumps tree indent (Some parent) n c out c'.

(** What the loop of [expr] asks of the calls it makes on the two sides:
    with the same lexemes left, fewer than the fuels [F1] and [F2], they
    end alike. *)
Definition calls_alike (buf1 buf2 : list ascii) (F1 F2 : nat)
    (rec1 rec2 : Lexer -> AST -> outcome (node_t * Lexer * AST)) : Prop :=
  forall rem lex1 lex2 tree1 tree2,
    Lexed buf1 lex1 rem -> Lexed buf2 lex2 rem ->
    same_shape buf1 buf2 tree1 tree2 ->
    length rem < F1 -> length rem < F2 ->
    alike buf1 buf2 (length rem - 1) (rec1 lex1 tree1) (rec2 lex2 tree2).


(** * Vocabulary of the further properties *)

(** ** S-expressions and the arena they are read into *)

(** What the parser reads: an atom, the empty form, or a form with an
    operator and arguments.  At top level and as a form there is no bare
    atom. *)
#[local] Set Warnings "-register-all".
Inductive sexp : Type :=
| Atom (a : lexeme)
| Nil
| Form (op : lexeme) (args : list sexp).

Definition is_atom (l : lexeme) : bool :=
  match l with
  | Quoted _ _ | Symbol _ _ => true
  | LParen | RParen => false
  end.

Definition is_form (s : sexp) : bool :=
  match s with
  | Atom _ => false
  | Nil | Form _ _ => true
  end.

(** Atoms and operators are literals or symbols. *)
Fixpoint proper (s : sexp) : bool :=
  match s with
  | Atom a => is_atom a
  | Nil => true
  | Form op args => is_atom op && forallb proper args
  end.

(** The lexemes an expression is written with. *)
Fixpoint lexemes_of (s : sexp) : list lexeme :=
  match s with
  | Atom a => [a]
  | Nil => [LParen; RParen]
  | Form op args => LParen :: op :: flat_map lexemes_of args ++ [RParen]
  end.

(** The node of an atom. *)
Definition atom_shape (a : lexeme) : Shape :=
  match a with
  | Quoted _ _ => SString (lexeme_type a, lexeme_text a)
  | _ => SIdentifer (lexeme_type a, lexeme_text a)
  end.

(** The nodes of a sequence of expressions, stored one expression after
    the other from index [base] on, and the handle of each: the index of
    its last node. *)
Definition arena_of_list (f : nat -> sexp -> list Shape)
    : nat -> list sexp -> list Shape * list node_t :=
  fix go (base : nat) (l : list sexp) : list Shape * list node_t :=
    match l with
    | [] => ([], [])
    | x :: l' =>
        let n := f base x in
        let r := go (base + length n) l' in
        (n ++ fst r, (base + length n - 1) :: snd r)
    end.

(** The nodes of an expression, stored from index [base] on: those of its
    arguments, then its own, which holds their handles. *)
Fixpoint nodes_of (base : nat) (s : sexp) : list Shape :=
  match s with
  | Atom a => [atom_shape a]
  | Nil => [SEmpty]
  | Form op args =>
      let r := arena_of_list nodes_of base args in
      fst r ++ [SList (lexeme_type op, lexeme_text op) (snd r)]
  end.

(** The arena and the roots of the forms of a source. *)
Definition arena_of (forms : list sexp) : list Shape * list node_t :=
  arena_of_list nodes_of 0 forms.

(** What one turn of the loop of [expr] does with the expression [s] that
    lies before the lexer: it stores its nodes, collects its handle, and
    goes on after it. *)
Definition loop_reads (buf : list ascii) (F : nat) (s : sexp) : Prop :=
  forall n lex tree children rem,
    Lexed buf lex (lexemes_of s ++ rem) ->
    length (lexemes_of s ++ rem) < F ->
    exists lex' tree',
      Lexed buf lex' rem
      /\ map (node_shape buf) tree'
         = map (node_shape buf) tree ++ nodes_of (length tree) s
      /\ expr_loop (expr F buf) (S n) buf lex tree children
         = expr_loop (expr F buf) n buf lex' tree'
             (children ++ [length tree + length (nodes_of (length tree) s) - 1]).

(** What [expr] does with the form [s] that lies before the lexer. *)
Definition expr_reads (buf : list ascii) (f : nat) (s : sexp) : Prop :=
  forall lex tree rem,
    Lexed buf lex (lexemes_of s ++ rem) ->
    length (lexemes_of s ++ rem) < f ->
    exists lex' tree',
      expr f buf lex tree
      = Done (length tree + length (nodes_of (length tree) s) - 1, lex', tree')
      /\ Lexed buf lex' rem
      /\ map (node_shape buf) tree'
         = map (node_shape buf) tree ++ nodes_of (length tree) s.

(** ** Sources the parser rejects *)

(** A form that goes wrong: left open at the end of input, without an
    operator after its parenthesis, or holding, after its operator and some
    arguments, a form that goes wrong. *)
Inductive broken : Type :=
| Unclosed (op : lexeme) (args : list sexp)
| NoOperator (rest : list lexeme)
| Within (op : lexeme) (args : list sexp) (inner : broken).

Fixpoint lexemes_broken (b : broken) : list lexeme :=
  match b with
  | Unclosed op args => LParen :: op :: flat_map lexemes_of args
  | NoOperator rest => LParen :: rest
  | Within op args inner =>
      LParen :: op :: flat_map lexemes_of args ++ lexemes_broken inner
  end.

(** Where there is no operator, the input ends or another form opens. *)
Fixpoint broken_ok (b : broken) : bool :=
  match b with
  | Unclosed op args => is_atom op && forallb proper args
  | NoOperator rest =>
      match rest with
      | [] | LParen :: _ => true
      | _ => false
      end
  | Within op args inner =>
      is_atom op && forallb proper args && broken_ok inner
  end.

(** The message each of them is rejected with. *)
Fixpoint complaint (b : broken) : string :=
  match b with
  | Unclosed _ _ => expected_rparen
  | NoOperator _ => expected_operator
  | Within _ _ inner => complaint inner
  end.

(** ** The graph that is drawn *)

(** The handles whose node is drawn: those of a node that is not [Empty]. *)
Definition drawn (tree : AST) (r : node_t) : bool :=
  match nth_error tree r with
  | Some Empty | None => false
  | Some _ => true
  end.

(** What the traversal keeps true of the edges it emits below a node of id
    [parent], if any: there is one edge to each node declared, the first
    node of a cluster apart, and an edge leaves [parent] or a node that
    is declared, for a node of larger id. *)
Definition linked (parent : option nat) (out : list stmt) : Prop :=
  map snd (edges out)
  = match parent with
    | Some _ => decl_ids out
    | None => tl (decl_ids out)
    end
  /\ Forall (fun e => fst e < snd e
                      /\ (Some (fst e) = parent \/ In (fst e) (decl_ids out)))
       (edges out).

(** ** The text that is written *)

(** The line that declares a node and the line that draws an edge. *)
Definition node_line (indent id : nat) (label : list ascii) : list ascii :=
  tabs indent ++ bytes "n" ++ to_string id ++ bytes " [label=" ++ [dquote]
  ++ label ++ [dquote] ++ bytes "];" ++ [newline].

Definition edge_line (indent parent child : nat) : list ascii :=
  tabs indent ++ bytes "n" ++ to_string parent ++ bytes " -> n"
  ++ to_string child ++ bytes ";" ++ [newline].

Definition edge_text (parent : option nat) (indent self_id : nat)
    : list ascii :=
  match parent with
  | Some p => edge_line indent p self_id
  | None => []
  end.

(** The arguments of a form, drawn one after the other below the node of
    id [self], the counter going up by one after each. *)
Definition draw_list (f : option nat -> sexp -> nat -> list ascii * nat)
    (self : nat) : list sexp -> nat -> list ascii * nat :=
  fix go (l : list sexp) (c : nat) : list ascii * nat :=
    match l with
    | [] => ([], c)
    | x :: l' =>
        let r := f (Some self) x c in
        let r' := go l' (S (snd r)) in
        (fst r ++ fst r', snd r')
    end.

(** The lines of an expression, drawn with the counter at [c] below the
    node of id [parent], if any, and the counter afterwards. *)
Fixpoint draw (indent : nat) (parent : option nat) (s : sexp) (c : nat)
    : list ascii * nat :=
  match s with
  | Nil => ([], c)
  | Atom a =>
      (node_line indent c (lexeme_text a) ++ edge_text parent indent c, S c)
  | Form op args =>
      let r := draw_list (draw indent) c args (S c) in
      (node_line indent c (lexeme_text op) ++ edge_text parent indent c
       ++ fst r, snd r)
  end.

(** One cluster for each form, the counter going up by one after each. *)
Fixpoint draw_clusters (forms : list sexp) (graph_id c : nat) : list ascii :=
  match forms with
  | [] => []
  | s :: rest =>
      let r := draw 2 None s c in
      tabs 1 ++ cluster_title graph_id ++ bytes " {" ++ [newline]
      ++ fst r
      ++ tabs 1 ++ bytes "}" ++ [newline]
      ++ draw_clusters rest (S graph_id) (S (snd r))
  end.

Definition draw_graph (forms : list sexp) : list ascii :=
  bytes "digraph {" ++ [newline]
  ++ draw_clusters forms 0 0
  ++ bytes "}" ++ [newline].

(** The bytes of a file: each lexeme after a gap, and a last gap. *)
Fixpoint source_text (items : list (list ascii * lexeme)) (final : list ascii)
    : list ascii :=
  match items with
  | [] => final
  | (gap, l) :: items' => gap ++ spelling l ++ source_text items' final
  end.

(** The arena [tree] holds nodes of the shapes [seg] from index [base] on. *)
Definition holds (buf : list ascii) (tree : AST) (base : nat)
    (seg : list Shape) : Prop :=
  forall j sh,
    nth_error seg j = Some sh ->
    nth_error (map (node_shape buf) tree) (base + j) = Some sh.

(** The visit of the node of the expression [s], in an arena that holds
    the nodes of [s], writes the lines of [s]. *)
Definition draws_as (buf : list ascii) (tree : AST) (indent : nat) (s : sexp)
    : Prop :=
  forall base parent n c out c',
    holds buf tree base (nodes_of base s) ->
    nth_error tree (base + length (nodes_of base s) - 1) = Some n ->
    visit bumps tree indent parent n c out c' ->
    flat_map (stmt_text buf) out = fst (draw indent parent s c)
    /\ c' = snd (draw indent parent s c).

(** ** Runs that write the same *)

(** Two runs of the renderer end alike: with the same text and counter,
    or in the same way without a text. *)
Definition same_lines (buf1 buf2 : list ascii)
    (r1 r2 : outcome (list stmt * nat)) : Prop :=
  match r1, r2 with
  | Done (s1, c1), Done (s2, c2) =>
      flat_map (stmt_text buf1) s1 = flat_map (stmt_text buf2) s2 /\ c1 = c2
  | Fatal p1 m1, Fatal p2 m2 => p1 = p2 /\ m1 = m2
  | OutOfBounds, OutOfBounds => True
  | OutOfFuel, OutOfFuel => True
  | _, _ => False
  end.

(** What [render_children] asks of the calls it makes. *)
Definition calls_write_alike (buf1 buf2 : list ascii)
    (rec1 rec2 : Node -> list stmt -> nat -> nat -> outcome (list stmt * nat))
    : Prop :=
  forall v1 v2 str1 str2 parent c,
    node_shape buf1 v1 = node_shape buf2 v2 ->
    flat_map (stmt_text buf1) str1 = flat_map (stmt_text buf2) str2 ->
    same_lines buf1 buf2 (rec1 v1 str1 parent c) (rec2 v2 str2 parent c).

(** Two runs of the program end alike: with the same text, or with the
    same error message. *)
Definition same_output (r1 r2 : outcome (list ascii)) : Prop :=
  match r1, r2 with
  | Done t1, Done t2 => t1 = t2
  | Fatal _ m1, Fatal _ m2 => m1 = m2
  | _, _ => False
  end.

(** ** How the program ends *)



(** ** The order of the arena *)

(** The nodes [new], stored from index [base] on, and the handles
    collected so far: the handles go up, as do the handles each node
    holds, and every node stored is referred to, by a node or by one of
    the handles collected. *)
Definition tidy (base : nat) (new : list Node) (handles : list node_t)
    : Prop :=
  StronglySorted lt handles
  /\ (forall h, In h handles -> h < base + length new)
  /\ Forall (fun n => StronglySorted lt (children_of n)) new
  /\ (forall i, base <= i < base + length new ->
      In i (handles ++ references new)).

(** What the loops ask of a call of [expr]: it appends nodes that are
    tidy under the handle it returns, the index of the last of them. *)
Definition appends_tidy
    (rec : Lexer -> AST -> outcome (node_t * Lexer * AST)) : Prop :=
  forall lex tree h lex' tree',
    rec lex tree = Done (h, lex', tree') ->
    exists sub,
      tree' = tree ++ sub /\ sub <> []
      /\ h = length tree + length sub - 1
      /\ tidy (length tree) sub [h].
(** * Properties *)

(** ** Reading and scanning *)

Lemma read_app (pre post : list ascii) (c : ascii) :
  read (pre ++ c :: post) (length pre) = Done c.
Proof.
  unfold read. rewrite nth_error_app2 by lia.
  now rewrite Nat.sub_diag.
Qed.

Lemma read_Done (buf : list ascii) (p : nat) (c : ascii) :
  read buf p = Done c -> nth_error buf p = Some c.
Proof.
  unfold read. destruct (nth_error buf p); now inversion 1.
Qed.

Lemma read_before_app (pre post : list ascii) (b : ascii) :
  read_before (pre ++ b :: post) (S (length pre)) = Done b.
Proof. apply read_app. Qed.

Lemma skipn_app_length {A : Type} (pre post : list A) :
  skipn (length pre) (pre ++ post) = post.
Proof.
  rewrite skipn_app, Nat.sub_diag, skipn_all. reflexivity.
Qed.

Lemma skipn_S_app {A : Type} (pre post : list A) (c : A) :
  skipn (S (length pre)) (pre ++ c :: post) = post.
Proof.
  replace (S (length pre)) with (length (pre ++ [c]))
    by (rewrite length_app; simpl; lia).
  replace (pre ++ c :: post) with ((pre ++ [c]) ++ post)
    by (now rewrite <- app_assoc).
  apply skipn_app_length.
Qed.

(** A scan stops at the first byte that fails the condition. *)
Lemma scan_while_stop (cond : ascii -> bool) (l rest : list ascii)
    (c : ascii) (p : nat) :
  forallb cond l = true -> cond c = false ->
  scan_while cond (l ++ c :: rest) p = Done (p + length l).
Proof.
  revert p. induction l as [|x l IH]; intros p Hl Hc; simpl.
  - rewrite Hc. f_equal. lia.
  - simpl in Hl. apply andb_true_iff in Hl as [Hx Hl].
    rewrite Hx, IH by assumption. f_equal. lia.
Qed.

(** A scan that returns has found such a byte. *)
Lemma scan_while_Done (cond : ascii -> bool) (rest : list ascii) (p p' : nat) :
  scan_while cond rest p = Done p' ->
  exists l c rest',
    rest = l ++ c :: rest' /\ forallb cond l = true /\ cond c = false
    /\ p' = p + length l.
Proof.
  revert p. induction rest as [|x rest IH]; intros p H; simpl in H.
  - discriminate.
  - destruct (cond x) eqn:Hx.
    + apply IH in H as (l & c & rest' & -> & Hl & Hc & ->).
      exists (x :: l), c, rest'. simpl. rewrite Hx, Hl.
      repeat split; auto.
    + inversion H; subst. exists [], x, rest. simpl.
      repeat split; auto.
Qed.

(** A scan fails in one way only: it runs off the buffer. *)
Lemma scan_while_cases (cond : ascii -> bool) (rest : list ascii) (p : nat) :
  (exists p', scan_while cond rest p = Done p') \/
  scan_while cond rest p = OutOfBounds.
Proof.
  revert p. induction rest as [|x rest IH]; intros p; simpl.
  - now right.
  - destruct (cond x); [apply IH | left; eauto].
Qed.

Lemma do_while_stop (cond : ascii -> bool) (pre l rest : list ascii)
    (c0 c : ascii) :
  forallb cond l = true -> cond c = false ->
  do_while cond (pre ++ c0 :: l ++ c :: rest) (length pre)
  = Done (S (length pre) + length l).
Proof.
  intros Hl Hc. unfold do_while. rewrite skipn_S_app.
  now apply scan_while_stop.
Qed.

(** After a [do]-[while] that returns, the cursor has moved, it is inside
    the buffer, and the byte under it fails the condition. *)
Lemma do_while_Done (cond : ascii -> bool) (buf : list ascii) (p p' : nat) :
  do_while cond buf p = Done p' ->
  p < p' /\ exists c, nth_error buf p' = Some c /\ cond c = false.
Proof.
  unfold do_while. intros H.
  apply scan_while_Done in H as (l & c & rest' & Hs & _ & Hc & ->).
  split; [lia|]. exists c. split; [|assumption].
  assert (E : nth_error (skipn (S p) buf) (length l) = Some c).
  { rewrite Hs, nth_error_app2 by lia. now rewrite Nat.sub_diag. }
  rewrite nth_error_skipn in E. rewrite <- E. f_equal; lia.
Qed.

(** ** The tokenizer, case by case *)

Lemma is_whitespace_inv (c : ascii) :
  is_whitespace c = true ->
  c = space \/ c = newline \/ c = tab \/ c = vtab \/ c = formfeed.
Proof.
  unfold is_whitespace, in_group. simpl.
  rewrite !orb_true_iff, !Ascii.eqb_eq. intuition discriminate.
Qed.

(** Whitespace is none of the bytes the tokenizer tests before it. *)
Lemma whitespace_class (c : ascii) :
  is_whitespace c = true ->
  Ascii.eqb c NUL = false /\ Ascii.eqb c lparen = false
  /\ Ascii.eqb c rparen = false
  /\ (Ascii.eqb c dquote || Ascii.eqb c squote) = false.
Proof.
  intros H. apply is_whitespace_inv in H.
  destruct H as [-> | [-> | [-> | [-> | ->]]]]; repeat split; reflexivity.
Qed.

Lemma ident_start_class (c : ascii) :
  ident_start c = true ->
  Ascii.eqb c NUL = false /\ Ascii.eqb c lparen = false
  /\ Ascii.eqb c rparen = false
  /\ (Ascii.eqb c dquote || Ascii.eqb c squote) = false
  /\ is_whitespace c = false.
Proof.
  unfold ident_start. rewrite !andb_true_iff, !negb_true_iff. tauto.
Qed.

Section NextToken.
Variables (pre post : list ascii) (st depth : nat).

Lemma next_token_eof :
  next_token_rec (S depth) (pre ++ NUL :: post) st (length pre)
  = Done (mkToken (mkView (length pre) 1) TOKEN_EOF, length pre).
Proof. simpl. rewrite read_app. reflexivity. Qed.

Lemma next_token_lparen :
  next_token_rec (S depth) (pre ++ lparen :: post) st (length pre)
  = Done (mkToken (mkView (length pre) 1) TOKEN_LPAREN, S (length pre)).
Proof. simpl. rewrite read_app. reflexivity. Qed.

Lemma next_token_rparen :
  next_token_rec (S depth) (pre ++ rparen :: post) st (length pre)
  = Done (mkToken (mkView (length pre) 1) TOKEN_RPAREN, S (length pre)).
Proof. simpl. rewrite read_app. reflexivity. Qed.

(** A quote that no backslash precedes opens a string literal; the scan
    ends at the same quote or at the terminator, whichever comes first,
    and the cursor is left one byte after it. *)
Lemma next_token_string (b delim stop : ascii) (body : list ascii) :
  is_quote delim ->
  b <> backslash ->
  forallb (string_char delim) body = true ->
  stop = delim \/ stop = NUL ->
  next_token_rec (S depth) ((pre ++ [b]) ++ delim :: body ++ stop :: post)
    st (length (pre ++ [b]))
  = Done (mkToken (mkView (S (length (pre ++ [b]))) (length body)) TOKEN_STRING,
          S (S (length (pre ++ [b]) + length body))).
Proof.
  intros Hd Hb Hbody Hstop.
  cbn [next_token_rec]. rewrite read_app. cbn [bind].
  assert (Hq : (Ascii.eqb delim dquote || Ascii.eqb delim squote) = true)
    by (destruct Hd; subst; reflexivity).
  assert (Hc : Ascii.eqb delim NUL = false /\ Ascii.eqb delim lparen = false
               /\ Ascii.eqb delim rparen = false)
    by (destruct Hd; subst; repeat split; reflexivity).
  destruct Hc as (-> & -> & ->). rewrite Hq.
  replace (length (pre ++ [b])) with (S (length pre))
    by (rewrite length_app; simpl; lia).
  rewrite <- app_assoc. cbn [app].
  rewrite read_before_app. cbn [bind].
  apply Ascii.eqb_neq in Hb. rewrite Hb. cbn [negb].
  replace (pre ++ b :: delim :: body ++ stop :: post)
    with ((pre ++ [b]) ++ delim :: body ++ stop :: post)
    by (rewrite <- app_assoc; reflexivity).
  replace (S (length pre)) with (length (pre ++ [b]))
    by (rewrite length_app; simpl; lia).
  rewrite do_while_stop; [| assumption |].
  - cbn [bind]. repeat (f_equal; try lia).
  - destruct Hstop as [-> | ->].
    + now rewrite Ascii.eqb_refl.
    + rewrite Ascii.eqb_refl. apply andb_false_r.
Qed.

(** Any other byte that is not whitespace opens an identifier, which
    runs up to the next whitespace or parenthesis; a leading backslash
    is consumed and left out of the view. *)
Lemma next_token_identifier (c stop : ascii) (rest : list ascii) :
  ident_start c = true ->
  forallb ident_char rest = true ->
  ident_char stop = false ->
  let vptr := if Ascii.eqb c backslash then S (length pre) else length pre in
  next_token_rec (S depth) (pre ++ c :: rest ++ stop :: post) st (length pre)
  = Done (mkToken (mkView vptr (S (length pre) + length rest - vptr))
            TOKEN_IDENTIFIER,
          S (length pre) + length rest).
Proof.
  intros Hc Hrest Hstop vptr.
  apply ident_start_class in Hc as (H0 & H1 & H2 & H3 & H4).
  cbn [next_token_rec]. rewrite read_app. cbn [bind].
  rewrite H0, H1, H2, H3. cbn [bind]. rewrite H4. cbn [negb].
  rewrite do_while_stop by assumption. reflexivity.
Qed.

(** A run of whitespace is skipped, and the tokenizer starts again at
    the byte after it. *)
Lemma next_token_whitespace (w c : ascii) (ws : list ascii) :
  is_whitespace w = true ->
  forallb is_whitespace ws = true ->
  is_whitespace c = false ->
  next_token_rec (S (S depth)) (pre ++ w :: ws ++ c :: post) st (length pre)
  = next_token_rec (S depth) (pre ++ w :: ws ++ c :: post) st
      (S (length pre) + length ws).
Proof.
  intros Hw Hws Hc.
  destruct (whitespace_class w Hw) as (H0 & H1 & H2 & H3).
  cbn [next_token_rec]. rewrite read_app. cbn [bind].
  rewrite H0, H1, H2, H3. cbn [bind]. rewrite Hw. cbn [negb].
  rewrite do_while_stop by assumption. reflexivity.
Qed.
End NextToken.

(** With a byte that is not whitespace under the cursor the tokenizer
    does not call itself. *)
Lemma next_token_rec_depth (d d' : nat) (buf : list ascii) (st p : nat)
    (c : ascii) :
  read buf p = Done c -> is_whitespace c = false ->
  next_token_rec (S d) buf st p = next_token_rec (S d') buf st p.
Proof.
  intros Hr Hc. cbn [next_token_rec]. rewrite Hr. cbn [bind].
  rewrite Hc. reflexivity.
Qed.

(** Whitespace before a token, if any, does not change the token, only
    where it is found. *)
Lemma next_token_gap (pre gap post : list ascii) (c : ascii) (st : nat) :
  forallb is_whitespace gap = true ->
  is_whitespace c = false ->
  next_token (pre ++ gap ++ c :: post) st (length pre)
  = next_token_rec 1 (pre ++ gap ++ c :: post) st (length (pre ++ gap)).
Proof.
  intros Hgap Hc. unfold next_token. destruct gap as [|w ws].
  - cbn [app]. rewrite app_nil_r.
    apply next_token_rec_depth with (c := c); [apply read_app | assumption].
  - simpl in Hgap. apply andb_true_iff in Hgap as [Hw Hws].
    cbn [app]. rewrite next_token_whitespace by assumption.
    f_equal. rewrite length_app. simpl. lia.
Qed.

(** Running out of fuel comes from nowhere but the fuel. *)
Lemma bind_fuel {A B : Type} (m : outcome A) (k : A -> outcome B) :
  m <> OutOfFuel -> (forall a, m = Done a -> k a <> OutOfFuel) ->
  bind m k <> OutOfFuel.
Proof.
  intros Hm Hk. destruct m; cbn [bind]; try discriminate; auto.
Qed.

Lemma read_fuel (buf : list ascii) (p : nat) : read buf p <> OutOfFuel.
Proof. unfold read. destruct (nth_error buf p); discriminate. Qed.

Lemma read_before_fuel (buf : list ascii) (p : nat) :
  read_before buf p <> OutOfFuel.
Proof. destruct p; [discriminate | apply read_fuel]. Qed.

Lemma do_while_fuel (cond : ascii -> bool) (buf : list ascii) (p : nat) :
  do_while cond buf p <> OutOfFuel.
Proof.
  unfold do_while.
  destruct (scan_while_cases cond (skipn (S p) buf) (S p)) as [[p' H] | H];
    rewrite H; discriminate.
Qed.

Lemma position_fuel (buf : list ascii) (p e : nat) :
  position buf p e <> OutOfFuel.
Proof.
  unfold position. destruct (e <? p); [discriminate|].
  generalize (e - p) as n, (mkPosition 1 1) as coord. intros n.
  revert p. induction n as [|n IH]; intros p coord; cbn [position_loop].
  - discriminate.
  - apply bind_fuel; [apply read_fuel | intros c _; apply IH].
Qed.

Create HintDb fuel.

#[local] Hint Resolve read_fuel read_before_fuel do_while_fuel position_fuel
  : fuel.

Ltac fuel_step :=
  match goal with
  | |- bind _ _ <> OutOfFuel => apply bind_fuel; [auto with fuel | intros ? ?]
  | |- (if ?b then _ else _) <> OutOfFuel => destruct b eqn:?
  | |- (let '(_, _) := ?p in _) <> OutOfFuel => destruct p
  | |- Done _ <> OutOfFuel => discriminate
  | |- Fatal _ _ <> OutOfFuel => discriminate
  | |- OutOfBounds <> OutOfFuel => discriminate
  end.

(** The tokenizer never exhausts the depth [next_token] gives it. *)
Lemma next_token_never_out_of_fuel (buf : list ascii) (st p : nat) :
  next_token buf st p <> OutOfFuel.
Proof.
  unfold next_token. cbn [next_token_rec].
  repeat fuel_step; cbv zeta; repeat fuel_step.
  all: match goal with
       | H1 : do_while is_whitespace _ _ = Done ?q, H2 : read _ ?q = Done _ |- _ =>
           apply do_while_Done in H1 as (_ & c' & Hn & Hc');
           apply read_Done in H2; congruence
       end.
Qed.

(** ** The parser, one step at a time *)

Lemma add_spec (tree : AST) (n : Node) :
  add tree n = (tree ++ [n], length tree).
Proof.
  unfold add. rewrite length_app. simpl. f_equal. lia.
Qed.

Lemma expr_loop_S rec (fuel : nat) (buf : list ascii) (lex : Lexer)
    (tree : AST) (children : list node_t) :
  expr_loop rec (S fuel) buf lex tree children
  = if tok_isnt (peek lex) TOKEN_RPAREN && tok_isnt (peek lex) TOKEN_EOF then
      if tok_is (peek lex) TOKEN_LPAREN then
        '(child, lex', tree') <- rec lex tree ;;
        expr_loop rec fuel buf lex' tree' (children ++ [child])
      else if tok_is (peek lex) TOKEN_IDENTIFIER then
        '(tok, lex') <- advance buf lex ;;
        let '(tree', child) := add tree (Identifer tok) in
        expr_loop rec fuel buf lex' tree' (children ++ [child])
      else if tok_is (peek lex) TOKEN_STRING then
        '(tok, lex') <- advance buf lex ;;
        let '(tree', child) := add tree (String tok) in
        expr_loop rec fuel buf lex' tree' (children ++ [child])
      else
        expr_loop rec fuel buf lex tree children
    else Done (children, lex, tree).
Proof. reflexivity. Qed.

Lemma expr_S (fuel : nat) (buf : list ascii) (lex : Lexer) (tree : AST) :
  expr (S fuel) buf lex tree
  = '(t, lex1) <- advance buf lex ;;
    if tok_isnt t TOKEN_LPAREN then error buf lex1 expected_lparen
    else
      '(op, lex2) <- advance buf lex1 ;;
      if tok_is op TOKEN_RPAREN then
        let '(tree', h) := add tree Empty in Done (h, lex2, tree')
      else if tok_isnt op TOKEN_IDENTIFIER && tok_isnt op TOKEN_STRING then
        error buf lex2 expected_operator
      else
        '(children, lex3, tree3) <-
           expr_loop (expr fuel buf) fuel buf lex2 tree [] ;;
        '(t', lex4) <- advance buf lex3 ;;
        if tok_isnt t' TOKEN_RPAREN then error buf lex4 expected_rparen
        else
          let '(tree', h) := add tree3 (List op children) in
          Done (h, lex4, tree').
Proof. reflexivity. Qed.

Lemma parse_loop_S (fuel : nat) (buf : list ascii) (lex : Lexer) (tree : AST)
    (roots : list node_t) :
  parse_loop (S fuel) buf lex tree roots
  = if tok_isnt (peek lex) TOKEN_EOF then
      '(root, lex', tree') <- expr fuel buf lex tree ;;
      parse_loop fuel buf lex' tree' (roots ++ [root])
    else Done (roots, lex, tree).
Proof. reflexivity. Qed.

(** A form has to open with a parenthesis: with any other token but the
    end of input in the lookahead, the driver does not return. *)
Lemma parse_loop_needs_lparen (fuel : nat) (buf : list ascii) (lex : Lexer)
    (tree : AST) (roots : list node_t) :
  tok_isnt (peek lex) TOKEN_EOF = true ->
  tok_isnt (peek lex) TOKEN_LPAREN = true ->
  forall res, parse_loop fuel buf lex tree roots <> Done res.
Proof.
  intros H1 H2 res. destruct fuel as [|fuel]; [discriminate|].
  rewrite parse_loop_S, H1.
  destruct fuel as [|fuel]; [discriminate|].
  rewrite expr_S. unfold advance.
  destruct (next_token buf (start lex) (str lex)) as [[la p]| | |];
    cbn [bind]; try discriminate.
  rewrite H2. unfold error.
  destruct (Lexer_position buf _); discriminate.
Qed.

(** ** An input without tokens *)

(** C8: a buffer that holds nothing but whitespace before its terminator
    parses to no root and an empty arena, and the rendering is the outer
    block alone. *)
Theorem no_token_no_cluster (ws rest : list ascii) :
  forallb is_whitespace ws = true ->
  parse_buffer (ws ++ NUL :: rest) = Done ([], [])
  /\ render (ws ++ NUL :: rest) [] []
     = Done (bytes "digraph {" ++ [newline] ++ bytes "}" ++ [newline])
  /\ seed_main ws
     = Done (bytes "digraph {" ++ [newline] ++ bytes "}" ++ [newline]).
Proof.
  intros Hws.
  assert (P : forall rest', parse_buffer (ws ++ NUL :: rest') = Done ([], [])).
  { intros rest'. unfold parse_buffer, Lexer_new, advance. cbn [start str].
    change 0 with (length (@nil ascii)) at 2.
    change (ws ++ NUL :: rest') with ([] ++ ws ++ NUL :: rest').
    rewrite next_token_gap by (assumption || reflexivity).
    cbn [app]. rewrite next_token_eof. reflexivity. }
  split; [apply P|]. split; [reflexivity|].
  unfold seed_main, c_str, read_file. rewrite <- app_assoc. cbn [app].
  rewrite P. reflexivity.
Qed.

Lemma no_token_no_cluster_witness :
  let ws := bytes "  " ++ [newline; tab] in
  forallb is_whitespace ws = true
  /\ parse_buffer (ws ++ NUL :: [NUL]) = Done ([], [])
  /\ render (ws ++ NUL :: [NUL]) [] []
     = Done (bytes "digraph {" ++ [newline] ++ bytes "}" ++ [newline])
  /\ seed_main ws
     = Done (bytes "digraph {" ++ [newline] ++ bytes "}" ++ [newline]).
Proof.
  intros ws.
  assert (H : forallb is_whitespace ws = true) by reflexivity.
  split; [exact H|].
  exact (no_token_no_cluster ws [NUL] H).
Defined.

(** ** String literals *)

(** C9: a string literal that meets the terminator before its closing
    quote is a token all the same.  The scan stops at the terminator, the
    cursor is left one byte after it, and the view holds the bytes between
    the opening quote and the terminator.  When the terminator is the last
    byte of the buffer the cursor is outside the buffer. *)
Theorem unterminated_string_token
    (pre body post : list ascii) (b delim : ascii) (st : nat) :
  is_quote delim ->
  b <> backslash ->
  forallb (string_char delim) body = true ->
  let buf := (pre ++ [b]) ++ delim :: body ++ NUL :: post in
  let opening := length (pre ++ [b]) in
  let terminator := opening + 1 + length body in
  nth_error buf terminator = Some NUL
  /\ (exists tok,
        next_token buf st opening = Done (tok, S terminator)
        /\ type tok = TOKEN_STRING
        /\ v_begin (view tok) = S opening
        /\ v_begin (view tok) + v_length (view tok) = terminator
        /\ token_text buf tok = body)
  /\ (post = [] ->
      S terminator = length buf /\ read buf (S terminator) = OutOfBounds).
Proof.
  intros Hd Hb Hbody buf opening terminator. split; [|split].
  - subst buf terminator opening.
    replace (length (pre ++ [b]) + 1 + length body)
      with (length ((pre ++ [b]) ++ delim :: body)).
    + replace ((pre ++ [b]) ++ delim :: body ++ NUL :: post)
        with (((pre ++ [b]) ++ delim :: body) ++ NUL :: post).
      * rewrite nth_error_app2, Nat.sub_diag by lia. reflexivity.
      * rewrite <- !app_assoc. reflexivity.
    + rewrite !length_app. simpl. lia.
  - eexists. unfold next_token. subst buf opening.
    rewrite (next_token_string pre post st 1 b delim NUL body)
      by (assumption || now right).
    split; [f_equal; f_equal; subst terminator; lia|].
    cbn [type view v_begin v_length]. repeat split.
    + subst terminator. lia.
    + unfold token_text, view_text. cbn [view v_begin v_length].
      replace (S (length (pre ++ [b])))
        with (length ((pre ++ [b]) ++ [delim]))
        by (rewrite !length_app; simpl; lia).
      replace ((pre ++ [b]) ++ delim :: body ++ NUL :: post)
        with (((pre ++ [b]) ++ [delim]) ++ body ++ NUL :: post)
        by (rewrite <- !app_assoc; reflexivity).
      rewrite skipn_app_length, firstn_app, Nat.sub_diag, firstn_all.
      cbn [firstn]. apply app_nil_r.
  - intros ->. subst buf terminator opening.
    assert (L : length ((pre ++ [b]) ++ delim :: body ++ [NUL])
                = S (length (pre ++ [b]) + 1 + length body))
      by (rewrite !length_app; simpl; rewrite length_app; simpl; lia).
    split; [now rewrite L|].
    unfold read. rewrite <- L.
    now rewrite (proj2 (nth_error_None _ _)) by lia.
Qed.

Lemma unterminated_string_token_witness :
  let buf := bytes "(" ++ dquote :: bytes "abc" ++ [NUL] in
  is_quote dquote /\ lparen <> backslash
  /\ forallb (string_char dquote) (bytes "abc") = true
  /\ nth_error buf 5 = Some NUL
  /\ (exists tok,
        next_token buf 0 1 = Done (tok, 6)
        /\ type tok = TOKEN_STRING
        /\ v_begin (view tok) = 2
        /\ v_begin (view tok) + v_length (view tok) = 5
        /\ token_text buf tok = bytes "abc")
  /\ (@nil ascii = [] -> 6 = length buf /\ read buf 6 = OutOfBounds).
Proof.
  intros buf.
  assert (Hq : is_quote dquote) by now left.
  assert (Hb : lparen <> backslash) by discriminate.
  assert (Hs : forallb (string_char dquote) (bytes "abc") = true)
    by reflexivity.
  split; [exact Hq|]. split; [exact Hb|]. split; [exact Hs|].
  exact (unterminated_string_token [] (bytes "abc") [] lparen dquote 0
           Hq Hb Hs).
Defined.

(** The bytes of a terminated literal, as the next theorem needs them. *)
Lemma string_token_text (pre body post : list ascii) (delim : ascii) :
  view_text (pre ++ delim :: body ++ delim :: post)
    (mkView (S (length pre)) (length body)) = body.
Proof.
  unfold view_text. cbn [v_begin v_length].
  rewrite skipn_S_app, firstn_app, Nat.sub_diag, firstn_all.
  cbn [firstn]. apply app_nil_r.
Qed.

(** C4, as the code has it: the token of a string literal holds the bytes
    between the two quotes as they are, whitespace and parentheses
    included, and the cursor is left after the closing quote.  In
    [("a (b) c")] the literal stands first in its form, so it becomes the
    operator of a [List] without children, not a [String] leaf. *)
Theorem string_literal_token
    (pre body post : list ascii) (b delim : ascii) (st : nat) :
  is_quote delim ->
  b <> backslash ->
  forallb (string_char delim) body = true ->
  let buf := (pre ++ [b]) ++ delim :: body ++ delim :: post in
  let opening := length (pre ++ [b]) in
  (exists tok,
     next_token buf st opening = Done (tok, opening + length body + 2)
     /\ type tok = TOKEN_STRING
     /\ view tok = mkView (S opening) (length body)
     /\ token_text buf tok = body)
  /\ nth_error buf (opening + length body + 1) = Some delim
  /\ parse_buffer (c_str (read_file quoted_a_b_c))
     = Done ([0], [List (mkToken (mkView 2 7) TOKEN_STRING) []])
  /\ token_text (c_str (read_file quoted_a_b_c))
       (mkToken (mkView 2 7) TOKEN_STRING) = bytes "a (b) c".
Proof.
  intros Hd Hb Hbody buf opening. split; [|split; [|split]].
  - eexists. unfold next_token. subst buf opening.
    rewrite (next_token_string pre post st 1 b delim delim body)
      by (assumption || now left).
    split; [f_equal; f_equal; lia|].
    cbn [type view]. repeat split.
    apply string_token_text.
  - subst buf opening.
    replace (length (pre ++ [b]) + length body + 1)
      with (length ((pre ++ [b]) ++ delim :: body))
      by (rewrite !length_app; simpl; lia).
    replace ((pre ++ [b]) ++ delim :: body ++ delim :: post)
      with (((pre ++ [b]) ++ delim :: body) ++ delim :: post)
      by (rewrite <- !app_assoc; reflexivity).
    rewrite nth_error_app2, Nat.sub_diag by lia. reflexivity.
  - vm_compute. reflexivity.
  - vm_compute. reflexivity.
Qed.

Lemma string_literal_token_witness :
  let body := bytes "a (b) c" in
  let buf := bytes "(" ++ dquote :: body ++ dquote :: bytes ")" in
  is_quote dquote /\ lparen <> backslash
  /\ forallb (string_char dquote) body = true
  /\ (exists tok,
        next_token buf 0 1 = Done (tok, 10)
        /\ type tok = TOKEN_STRING
        /\ view tok = mkView 2 7
        /\ token_text buf tok = body)
  /\ nth_error buf 9 = Some dquote
  /\ parse_buffer (c_str (read_file quoted_a_b_c))
     = Done ([0], [List (mkToken (mkView 2 7) TOKEN_STRING) []])
  /\ token_text (c_str (read_file quoted_a_b_c))
       (mkToken (mkView 2 7) TOKEN_STRING) = bytes "a (b) c".
Proof.
  intros body buf.
  assert (Hq : is_quote dquote) by now left.
  assert (Hb : lparen <> backslash) by discriminate.
  assert (Hs : forallb (string_char dquote) body = true) by reflexivity.
  split; [exact Hq|]. split; [exact Hb|]. split; [exact Hs|].
  exact (string_literal_token [] body (bytes ")") lparen dquote 0 Hq Hb Hs).
Defined.

(** C4, as stated, fails: the parse of [("a (b) c")] puts no [String]
    node in the arena. *)
Lemma quoted_operator_is_no_leaf :
  ~ (exists roots tree tok,
       parse_buffer (c_str (read_file quoted_a_b_c)) = Done (roots, tree)
       /\ In (String tok) tree).
Proof.
  intros (roots & tree & tok & H & Hin).
  vm_compute in H. inversion H; subst.
  destruct Hin as [Hin | []]. discriminate.
Qed.

(** ** Top-level forms *)

(** C1, as stated, fails: [()a] does not parse to two roots.  The scan of
    the identifier [a] does not stop at the terminator and leaves the
    buffer. *)
Lemma empty_then_atom_has_no_roots :
  ~ (exists r1 r2 tree,
       parse_buffer (c_str (read_file (bytes "()a"))) = Done ([r1; r2], tree)).
Proof.
  intros (r1 & r2 & tree & H). vm_compute in H. discriminate.
Qed.

(** Whatever bytes lie in memory after the buffer of [()a], should the
    scan of [a] find a stop among them, the parse still does not return. *)
Lemma empty_then_atom_never_parses (beyond : list ascii) :
  forall res, parse_buffer (c_str (read_file (bytes "()a")) ++ beyond)
              <> Done res.
Proof.
  intros res.
  change (c_str (read_file (bytes "()a")) ++ beyond)
    with ([lparen; rparen] ++ "a"%char :: NUL :: NUL :: beyond).
  set (buf := [lparen; rparen] ++ "a"%char :: NUL :: NUL :: beyond).
  assert (N0 : next_token buf 0 0
               = Done (mkToken (mkView 0 1) TOKEN_LPAREN, 1))
    by exact (next_token_lparen [] _ 0 1).
  assert (N1 : next_token buf 0 1
               = Done (mkToken (mkView 1 1) TOKEN_RPAREN, 2))
    by exact (next_token_rparen [lparen] _ 0 1).
  assert (N2 : next_token buf 0 2 = OutOfBounds \/
               exists p, next_token buf 0 2
                         = Done (mkToken (mkView 2 (p - 2)) TOKEN_IDENTIFIER, p)).
  { unfold next_token. cbn [next_token_rec].
    change 2 with (length [lparen; rparen]) at 1.
    subst buf. rewrite read_app. cbn [bind].
    change (Ascii.eqb "a" NUL) with false.
    change (Ascii.eqb "a" lparen) with false.
    change (Ascii.eqb "a" rparen) with false.
    change (Ascii.eqb "a" dquote || Ascii.eqb "a" squote) with false.
    change (Ascii.eqb "a" backslash) with false.
    change (is_whitespace "a") with false.
    cbn [bind negb]. unfold do_while.
    match goal with
    | |- context [scan_while ?c ?l ?q] =>
        destruct (scan_while_cases c l q) as [[p Hp] | Hp]; rewrite Hp
    end; cbn [bind].
    - right. now exists p.
    - now left. }
  unfold parse_buffer, Lexer_new, advance. cbn [start str peek lookahead].
  rewrite N0. cbn [bind]. unfold parse, parse_fuel.
  rewrite parse_loop_S. cbn [peek lookahead].
  change (tok_isnt _ TOKEN_EOF) with true. cbv iota.
  rewrite expr_S. unfold advance at 1. cbn [start str peek lookahead].
  rewrite N1. cbn [bind].
  change (tok_isnt _ TOKEN_LPAREN) with false. cbv iota.
  unfold advance at 1. cbn [start str peek lookahead].
  destruct N2 as [-> | [p ->]]; cbn [bind]; [discriminate|].
  change (tok_is _ TOKEN_RPAREN) with true. cbv iota.
  rewrite add_spec. cbn [bind].
  destruct (parse_loop _ _ _ _ _) as [[[roots lex] tree]| | |] eqn:Hp;
    cbn [bind]; try discriminate.
  exfalso. revert Hp. now apply parse_loop_needs_lparen.
Qed.

(** C1, as the code has it: the driver starts a new form after each one,
    so [()(a)] gives two roots, an [Empty] node and then the [List] of
    [(a)]; a form has to open with a parenthesis, so the bare [a] of
    [()a], once whitespace ends it, is the fatal error [expected (]. *)
Theorem toplevel_restarts_per_form :
  parse_buffer (c_str (read_file (bytes "()(a)")))
  = Done ([0; 1], [Empty; List (mkToken (mkView 3 1) TOKEN_IDENTIFIER) []])
  /\ token_text (c_str (read_file (bytes "()(a)")))
       (mkToken (mkView 3 1) TOKEN_IDENTIFIER) = bytes "a"
  /\ forall w, is_whitespace w = true ->
       exists pos,
         parse_buffer (c_str (read_file (bytes "()a" ++ [w])))
         = Fatal pos expected_lparen.
Proof.
  split; [vm_compute; reflexivity|]. split; [reflexivity|].
  intros w Hw. apply is_whitespace_inv in Hw.
  destruct Hw as [-> | [-> | [-> | [-> | ->]]]];
    eexists; vm_compute; reflexivity.
Qed.

Lemma toplevel_restarts_per_form_witness :
  is_whitespace newline = true
  /\ exists pos,
       parse_buffer (c_str (read_file (bytes "()a" ++ [newline])))
       = Fatal pos expected_lparen.
Proof.
  split; [reflexivity|].
  exact (proj2 (proj2 toplevel_restarts_per_form) newline eq_refl).
Defined.

(** ** Positions *)

(** What [position] computes: the position the specification describes,
    of the bytes one place further on.  The first byte is never looked at,
    the byte under the cursor is. *)
Lemma position_loop_shifted (buf : list ascii) (n ptr : nat) (coord : Position) :
  S ptr + n <= length buf ->
  position_loop buf n ptr coord
  = Done (scan_position (firstn n (skipn (S ptr) buf)) coord).
Proof.
  revert ptr coord. induction n as [|n IH]; intros ptr coord Hlen.
  - reflexivity.
  - cbn [position_loop]. unfold read.
    destruct (nth_error buf (S ptr)) as [c|] eqn:Hc.
    + cbn [bind]. rewrite IH by lia.
      assert (E : skipn (S ptr) buf = c :: skipn (S (S ptr)) buf).
      { clear -Hc. revert buf Hc. generalize (S ptr) as k.
        induction k as [|k IHk]; intros [|x buf] Hc; try discriminate.
        - now inversion Hc.
        - simpl in *. now apply IHk. }
      rewrite E. reflexivity.
    + apply nth_error_None in Hc. lia.
Qed.

Lemma position_shifted (buf : list ascii) (ptr end_ : nat) :
  ptr <= end_ -> end_ < length buf ->
  position buf ptr end_ = Done (position_spec buf (S ptr) (S end_)).
Proof.
  intros H1 H2. unfold position, position_spec.
  destruct (Nat.ltb_spec end_ ptr); [lia|].
  rewrite position_loop_shifted by lia. reflexivity.
Qed.

(** C2 fails on the code: in the file that holds a newline and then [)],
    the cursor of the error stands after both bytes, at line 2, column 2;
    [position] skips the newline, reads the terminator under the cursor
    instead, and the error says line 1, column 3. *)
Theorem position_reads_one_byte_late :
  let buf := c_str (read_file ([newline] ++ bytes ")")) in
  position buf 0 2 = Done (mkPosition 1 3)
  /\ position_spec buf 0 2 = mkPosition 2 2
  /\ parse_buffer buf = Fatal (mkPosition 1 3) expected_lparen.
Proof. repeat split. Qed.

(** ** The worked example *)

(** C3: [(add (mul 2 3) "x")] parses to one root, the [List] of [add],
    whose children are the [List] of [mul], with the identifiers [2] and
    [3] below it, and the string [x]; its rendering is one cluster of five
    node declarations and four edges, parents before children and
    children in the order of the source. *)
Theorem add_mul_x_end_to_end :
  let buf := c_str (read_file add_mul_x) in
  exists tree,
    parse_buffer buf = Done ([4], tree)
    /\ map (node_shape buf) tree
       = [SIdentifer (TOKEN_IDENTIFIER, bytes "2");
          SIdentifer (TOKEN_IDENTIFIER, bytes "3");
          SList (TOKEN_IDENTIFIER, bytes "mul") [0; 1];
          SString (TOKEN_STRING, bytes "x");
          SList (TOKEN_IDENTIFIER, bytes "add") [2; 3]]
    /\ exists stmts,
         render_stmts [4] tree (bytes "digraph") 0 = Done stmts
         /\ blocks 1 stmts = [bytes "subgraph cluster0"]
         /\ map (token_text buf) (decl_labels stmts)
            = [bytes "add"; bytes "mul"; bytes "2"; bytes "3"; bytes "x"]
         /\ decl_ids stmts = [0; 1; 2; 4; 7]
         /\ edges stmts = [(0, 1); (1, 2); (1, 4); (0, 7)]
         /\ length (decl_ids stmts) = 5
         /\ length (edges stmts) = 4
         /\ seed_main add_mul_x
            = Done (bytes "digraph {" ++ [newline; tab]
                    ++ bytes "subgraph cluster0 {" ++ [newline; tab; tab]
                    ++ bytes "n0 [label=" ++ [dquote] ++ bytes "add"
                    ++ [dquote] ++ bytes "];" ++ [newline; tab; tab]
                    ++ bytes "n1 [label=" ++ [dquote] ++ bytes "mul"
                    ++ [dquote] ++ bytes "];" ++ [newline; tab; tab]
                    ++ bytes "n0 -> n1;" ++ [newline; tab; tab]
                    ++ bytes "n2 [label=" ++ [dquote] ++ bytes "2"
                    ++ [dquote] ++ bytes "];" ++ [newline; tab; tab]
                    ++ bytes "n1 -> n2;" ++ [newline; tab; tab]
                    ++ bytes "n4 [label=" ++ [dquote] ++ bytes "3"
                    ++ [dquote] ++ bytes "];" ++ [newline; tab; tab]
                    ++ bytes "n1 -> n4;" ++ [newline; tab; tab]
                    ++ bytes "n7 [label=" ++ [dquote] ++ bytes "x"
                    ++ [dquote] ++ bytes "];" ++ [newline; tab; tab]
                    ++ bytes "n0 -> n7;" ++ [newline; tab]
                    ++ bytes "}" ++ [newline]
                    ++ bytes "}" ++ [newline]).
Proof.
  intros buf. eexists. split; [vm_compute; reflexivity|].
  split; [vm_compute; reflexivity|].
  eexists. split; [vm_compute; reflexivity|].
  repeat split; vm_compute; reflexivity.
Qed.

(** ** The arena is a forest *)

Lemma references_app (t1 t2 : AST) :
  references (t1 ++ t2) = references t1 ++ references t2.
Proof. apply flat_map_app. Qed.

Lemma segment_refs_range (base : nat) (new : list Node) (c : node_t) :
  segment base new -> In c (references new) ->
  base <= c /\ S c < base + length new.
Proof.
  intros [Hr _] Hin. apply in_flat_map in Hin as (n & Hn & Hc).
  apply In_nth_error in Hn as [j Hj].
  specialize (Hr j n c Hj Hc).
  assert (j < length new) by (apply nth_error_Some; congruence). lia.
Qed.

Lemma segment_leaf (base : nat) (n : Node) :
  children_of n = [] -> segment base [n].
Proof.
  intros Hn. split.
  - intros [|[|j]] m c Hj Hc; simpl in Hj; try discriminate.
    inversion Hj; subst. rewrite Hn in Hc. destruct Hc.
  - unfold references. simpl. rewrite Hn. constructor.
Qed.

Lemma segment_app (base : nat) (new sub : list Node) :
  segment base new -> segment (base + length new) sub ->
  segment base (new ++ sub).
Proof.
  intros Hnew Hsub. split.
  - intros j n c Hj Hc. rewrite nth_error_app in Hj.
    destruct (Nat.ltb_spec j (length new)).
    + exact (proj1 Hnew j n c Hj Hc).
    + pose proof (proj1 Hsub _ n c Hj Hc). lia.
  - rewrite references_app. apply NoDup_app.
    + apply Hnew.
    + apply Hsub.
    + intros c H1 H2.
      apply (segment_refs_range _ _ _ Hnew) in H1.
      apply (segment_refs_range _ _ _ Hsub) in H2. lia.
Qed.

Lemma collected_nil (base : nat) : collected base [] [].
Proof.
  split; [split|split].
  - intros [|j] n c Hj; discriminate.
  - constructor.
  - constructor.
  - intros h [].
Qed.

(** A form that has been parsed is collected: its handle is the index of
    the last node of its segment. *)
Lemma collected_sub (base : nat) (new sub : list Node) (hs : list node_t) :
  collected base new hs -> segment (base + length new) sub -> sub <> [] ->
  collected base (new ++ sub) (hs ++ [base + length new + length sub - 1]).
Proof.
  intros (Hseg & Hnd & Hrange) Hsub Hne.
  assert (0 < length sub) by (destruct sub; [congruence | simpl; lia]).
  split; [|split].
  - now apply segment_app.
  - apply NoDup_app.
    + apply NoDup_app.
      * eapply NoDup_app_remove_r, Hnd.
      * constructor; [intros [] | constructor].
      * intros c Hc [<- | []]. apply Hrange in Hc. lia.
    + now apply (segment_app base new sub).
    + intros c Hc1 Hc2.
      apply in_app_iff in Hc1 as [Hc1 | [<- | []]].
      * rewrite references_app in Hc2.
        apply in_app_iff in Hc2 as [Hc2 | Hc2].
        -- revert Hc2. clear -Hnd Hc1.
           induction hs as [|x hs IH]; [destruct Hc1|].
           simpl in Hnd. inversion Hnd as [|? ? Hx Hnd']; subst.
           destruct Hc1 as [-> | Hc1]; [|now apply IH].
           intros Hc2. apply Hx, in_app_iff. now right.
        -- apply (segment_refs_range _ _ _ Hsub) in Hc2.
           apply Hrange in Hc1. lia.
      * apply (segment_refs_range _ _ _ (segment_app _ _ _ Hseg Hsub)) in Hc2.
        rewrite length_app in Hc2. lia.
  - intros h Hh. rewrite length_app.
    apply in_app_iff in Hh as [Hh | [<- | []]].
    + apply Hrange in Hh. lia.
    + lia.
Qed.

Lemma NoDup_app_swap {A : Type} (l1 l2 : list A) :
  NoDup (l1 ++ l2) -> NoDup (l2 ++ l1).
Proof.
  apply Permutation_NoDup, Permutation_app_comm.
Qed.

(** The handles that were collected become the children of a [List]
    stored after the segment. *)
Lemma segment_close (base : nat) (new : list Node) (hs : list node_t)
    (op : Token) :
  collected base new hs -> segment base (new ++ [List op hs]).
Proof.
  intros (Hseg & Hnd & Hrange). split.
  - intros j n c Hj Hc. rewrite nth_error_app in Hj.
    destruct (Nat.ltb_spec j (length new)).
    + exact (proj1 Hseg j n c Hj Hc).
    + destruct (j - length new) as [|k] eqn:Hk; simpl in Hj.
      * inversion Hj; subst. apply Hrange in Hc. lia.
      * destruct k; discriminate.
  - rewrite references_app. unfold references at 2. cbn [flat_map children_of].
    rewrite app_nil_r. now apply NoDup_app_swap.
Qed.

Lemma bind_Done {A B : Type} (m : outcome A) (k : A -> outcome B) (b : B) :
  bind m k = Done b -> exists a, m = Done a /\ k a = Done b.
Proof.
  destruct m; cbn [bind]; try discriminate. eauto.
Qed.

Lemma error_not_Done {A : Type} (buf : list ascii) (lex : Lexer)
    (msg : string) (a : A) :
  error buf lex msg <> Done a.
Proof.
  unfold error. destruct (Lexer_position buf lex); discriminate.
Qed.

Lemma expr_loop_collected rec (buf : list ascii) (tree0 : AST) :
  appends_segment rec ->
  forall fuel lex new hs hs' lex' tree',
    collected (length tree0) new hs ->
    expr_loop rec fuel buf lex (tree0 ++ new) hs = Done (hs', lex', tree') ->
    exists new', tree' = tree0 ++ new' /\ collected (length tree0) new' hs'.
Proof.
  intros Hrec. induction fuel as [|fuel IH];
    intros lex new hs hs' lex' tree' Hcol Hrun; [discriminate|].
  rewrite expr_loop_S in Hrun.
  destruct (tok_isnt (peek lex) TOKEN_RPAREN && tok_isnt (peek lex) TOKEN_EOF).
  2:{ inversion Hrun; subst. now exists new. }
  assert (Leaf : forall n lex1,
            children_of n = [] ->
            (let '(tree1, child) := add (tree0 ++ new) n in
             expr_loop rec fuel buf lex1 tree1 (hs ++ [child]))
            = Done (hs', lex', tree') ->
            exists new', tree' = tree0 ++ new'
                         /\ collected (length tree0) new' hs').
  { intros n lex1 Hn Hrun1. rewrite add_spec, <- app_assoc in Hrun1.
    apply IH in Hrun1; [assumption|].
    replace (length (tree0 ++ new))
      with (length tree0 + length new + length [n] - 1)
      by (rewrite length_app; simpl; lia).
    apply collected_sub; [assumption | now apply segment_leaf | discriminate]. }
  destruct (tok_is (peek lex) TOKEN_LPAREN).
  { apply bind_Done in Hrun as ([[child lex1] tree1] & Hcall & Hrun).
    apply Hrec in Hcall as (sub & -> & Hne & -> & Hsub).
    rewrite <- app_assoc in Hrun. apply IH in Hrun; [assumption|].
    rewrite length_app in *. now apply collected_sub. }
  destruct (tok_is (peek lex) TOKEN_IDENTIFIER).
  { apply bind_Done in Hrun as ([tok lex1] & _ & Hrun).
    now apply Leaf in Hrun. }
  destruct (tok_is (peek lex) TOKEN_STRING).
  { apply bind_Done in Hrun as ([tok lex1] & _ & Hrun).
    now apply Leaf in Hrun. }
  now apply IH in Hrun.
Qed.

Lemma expr_appends_segment (fuel : nat) (buf : list ascii) :
  appends_segment (expr fuel buf).
Proof.
  induction fuel as [|fuel IH]; intros lex tree h lex' tree' Hrun;
    [discriminate|].
  rewrite expr_S in Hrun.
  apply bind_Done in Hrun as ([t lex1] & _ & Hrun).
  destruct (tok_isnt t TOKEN_LPAREN); [now apply error_not_Done in Hrun|].
  apply bind_Done in Hrun as ([op lex2] & _ & Hrun).
  destruct (tok_is op TOKEN_RPAREN).
  { rewrite add_spec in Hrun. inversion Hrun; subst.
    exists [Empty]. split; [reflexivity|]. split; [discriminate|].
    split; [simpl; lia | now apply segment_leaf]. }
  destruct (tok_isnt op TOKEN_IDENTIFIER && tok_isnt op TOKEN_STRING);
    [now apply error_not_Done in Hrun|].
  apply bind_Done in Hrun as ([[children lex3] tree3] & Hloop & Hrun).
  apply bind_Done in Hrun as ([t' lex4] & _ & Hrun).
  destruct (tok_isnt t' TOKEN_RPAREN); [now apply error_not_Done in Hrun|].
  rewrite add_spec in Hrun. inversion Hrun; subst.
  rewrite <- (app_nil_r tree) in Hloop at 1.
  apply (expr_loop_collected _ buf tree IH) in Hloop as (new & -> & Hcol);
    [|apply collected_nil].
  exists (new ++ [List op children]). rewrite <- app_assoc.
  split; [reflexivity|]. split; [now destruct new|].
  split; [rewrite !length_app; simpl; lia | now apply segment_close].
Qed.

Lemma parse_loop_collected (buf : list ascii) :
  forall fuel lex tree roots roots' lex' tree',
    collected 0 tree roots ->
    parse_loop fuel buf lex tree roots = Done (roots', lex', tree') ->
    collected 0 tree' roots'.
Proof.
  induction fuel as [|fuel IH];
    intros lex tree roots roots' lex' tree' Hcol Hrun; [discriminate|].
  rewrite parse_loop_S in Hrun.
  destruct (tok_isnt (peek lex) TOKEN_EOF).
  2:{ now inversion Hrun; subst. }
  apply bind_Done in Hrun as ([[root lex1] tree1] & Hcall & Hrun).
  apply expr_appends_segment in Hcall as (sub & -> & Hne & -> & Hsub).
  apply IH in Hrun; [assumption|].
  now apply (collected_sub 0).
Qed.

Lemma collected_forest (tree : AST) (roots : list node_t) :
  collected 0 tree roots -> forest tree roots.
Proof.
  intros (Hseg & Hnd & Hrange).
  assert (Hchild : forall c p, child_of tree c p -> c < p < length tree).
  { intros c p (n & Hn & Hc). split.
    - apply (proj1 Hseg p n c Hn Hc).
    - apply nth_error_Some. congruence. }
  split; [|split; [|split]].
  - intros r Hr. apply Hrange in Hr. lia.
  - exact Hchild.
  - intros i Hi.
    assert (Hlt : forall a b, clos_trans node_t (child_of tree) a b -> a < b).
    { induction 1 as [a b Hab | a b c _ IH1 _ IH2].
      - now apply Hchild in Hab.
      - lia. }
    apply Hlt in Hi. lia.
  - exact Hnd.
Qed.

(** The arena of a parse and its roots are a forest. *)
Lemma parse_buffer_forest (buf : list ascii) (roots : list node_t)
    (tree : AST) :
  parse_buffer buf = Done (roots, tree) -> forest tree roots.
Proof.
  intros Hparse. unfold parse_buffer in Hparse.
  apply bind_Done in Hparse as (lex & _ & Hparse).
  apply bind_Done in Hparse as ([[roots' lex'] tree'] & Hrun & Hret).
  inversion Hret; subst.
  apply collected_forest.
  apply (parse_loop_collected _ _ _ _ _ _ _ _ (collected_nil 0) Hrun).
Qed.

(** C6: after a parse that succeeded, the handles among the roots and in
    the [List] nodes are indices of nodes of the arena; a child is stored
    before the [List] that holds its handle, so no node descends from
    itself; no node is referred to twice: the arena is a forest.  The
    indices [add] returns start at 0 and go up by one. *)
Theorem parse_builds_forest (buf : list ascii) (roots : list node_t)
    (tree : AST) :
  parse_buffer buf = Done (roots, tree) ->
  forest tree roots
  /\ (forall n, snd (add [] n) = 0)
  /\ (forall t n m, snd (add (fst (add t n)) m) = S (snd (add t n))).
Proof.
  intros Hparse. split; [|split].
  - now apply parse_buffer_forest in Hparse.
  - reflexivity.
  - intros t n m. rewrite !add_spec. cbn [fst snd].
    rewrite length_app. simpl. lia.
Qed.

Lemma parse_builds_forest_witness :
  let buf := c_str (read_file add_mul_x) in
  let tree :=
    [Identifer (mkToken (mkView 10 1) TOKEN_IDENTIFIER);
     Identifer (mkToken (mkView 12 1) TOKEN_IDENTIFIER);
     List (mkToken (mkView 6 3) TOKEN_IDENTIFIER) [0; 1];
     String (mkToken (mkView 16 1) TOKEN_STRING);
     List (mkToken (mkView 1 3) TOKEN_IDENTIFIER) [2; 3]] in
  parse_buffer buf = Done ([4], tree)
  /\ forest tree [4]
  /\ (forall n, snd (add [] n) = 0)
  /\ (forall t n m, snd (add (fst (add t n)) m) = S (snd (add t n))).
Proof.
  intros buf tree.
  assert (H : parse_buffer buf = Done ([4], tree)) by (vm_compute; reflexivity).
  split; [exact H|].
  exact (parse_builds_forest buf [4] tree H).
Defined.

(** ** The fuel of the parser is enough *)


(** The view of a token lies within the buffer. *)
Lemma next_token_view (buf : list ascii) (st : nat) :
  forall depth p tok p',
    next_token_rec depth buf st p = Done (tok, p') ->
    v_begin (view tok) + v_length (view tok) <= length buf.
Proof.
  induction depth as [|depth IH]; intros p tok p' H; [discriminate|].
  cbn [next_token_rec] in H.
  apply bind_Done in H as (c & Hc & H).
  apply read_Done in Hc.
  assert (Hp : p < length buf) by (apply nth_error_Some; congruence).
  destruct (Ascii.eqb c NUL); [inversion H; subst; cbn; lia|].
  destruct (Ascii.eqb c lparen); [inversion H; subst; cbn; lia|].
  destruct (Ascii.eqb c rparen); [inversion H; subst; cbn; lia|].
  apply bind_Done in H as (is_string & _ & H).
  destruct is_string.
  { apply bind_Done in H as (q & Hq & H).
    apply do_while_Done in Hq as (Hlt & c' & Hc' & _).
    assert (q < length buf) by (apply nth_error_Some; congruence).
    inversion H; subst. cbn. lia. }
  destruct (is_whitespace c); cbn [negb] in H.
  - apply bind_Done in H as (q & Hq & H). now apply IH in H.
  - apply bind_Done in H as (q & Hq & H).
    apply do_while_Done in Hq as (Hlt & c' & Hc' & _).
    assert (q < length buf) by (apply nth_error_Some; congruence).
    inversion H; subst. cbn. destruct (Ascii.eqb c backslash); lia.
Qed.

Lemma advance_inv (buf : list ascii) (lex lex' : Lexer) (t : Token) :
  advance buf lex = Done (t, lex') ->
  t = peek lex
  /\ exists p', next_token buf (start lex) (str lex) = Done (peek lex', p')
                /\ str lex' = p'.
Proof.
  unfold advance. intros H.
  apply bind_Done in H as ([tok p'] & Hnt & H). inversion H; subst.
  split; [reflexivity|]. now exists p'.
Qed.


Lemma error_fuel {A : Type} (buf : list ascii) (lex : Lexer) (msg : string) :
  @error A buf lex msg <> OutOfFuel.
Proof.
  unfold error, Lexer_position. apply bind_fuel.
  - apply position_fuel.
  - discriminate.
Qed.


Section Fuel.
Variable buf : list ascii.








End Fuel.


(** ** The renderer performs the traversal *)

Lemma declare_spec (str : list stmt) (indent parent self : nat) (label : Token) :
  declare str indent parent self label
  = str ++ NodeDecl indent self label
        :: edge_from (if self =? parent then None else Some parent) indent self.
Proof.
  unfold declare. destruct (self =? parent); cbn [negb edge_from].
  - reflexivity.
  - now rewrite <- app_assoc.
Qed.

Lemma index_Done (tree : AST) (n : node_t) (v : Node) :
  index tree n = Done v -> nth_error tree n = Some v.
Proof.
  unfold index. destruct (nth_error tree n); now inversion 1.
Qed.

Section RenderVisit.
Variables (tree : AST) (indent : nat).

Lemma render_children_visit rec :
  renders_visit tree indent rec ->
  forall children str self c str' c',
    render_children rec children tree str self c = Done (str', c') ->
    self < c ->
    c <= c' /\ exists out,
      str' = str ++ out /\ visit_children bumps tree indent self children c out c'.
Proof.
  intros Hrec. induction children as [|child rest IH];
    intros str self c str' c' Hrun Hlt; cbn [render_children] in Hrun.
  - inversion Hrun; subst. split; [lia|]. exists [].
    split; [now rewrite app_nil_r | constructor].
  - apply bind_Done in Hrun as (n & Hn & Hrun). apply index_Done in Hn.
    apply bind_Done in Hrun as ([str1 c1] & Hcall & Hrun).
    destruct (Hrec _ _ _ _ _ _ Hcall Hlt) as (Hle & out1 & -> & Hv).
    apply IH in Hrun as (Hle' & out2 & -> & Hvs); [|lia].
    split; [lia|]. exists (out1 ++ out2).
    split; [now rewrite app_assoc|].
    econstructor; eauto. reflexivity.
Qed.

Lemma render_nodes_visit (fuel : nat) :
  forall n str parent c str' c',
    render_nodes fuel tree indent n str parent c = Done (str', c') ->
    c <= c' /\ exists out,
      str' = str ++ out
      /\ visit bumps tree indent (if c =? parent then None else Some parent)
           n c out c'.
Proof.
  induction fuel as [|fuel IH]; intros n str parent c str' c' Hrun;
    [discriminate|].
  cbn [render_nodes] in Hrun. destruct n as [op children | x | x |].
  - apply render_children_visit in Hrun as (Hle & out & -> & Hv); [| |lia].
    + split; [lia|]. rewrite declare_spec, <- app_assoc. cbn [app].
      eexists. split; [reflexivity|]. now constructor.
    + intros n str0 p c0 str0' c0' Hcall Hp.
      apply IH in Hcall as (Hle & out & -> & Hv).
      split; [assumption|]. exists out. split; [reflexivity|].
      destruct (Nat.eqb_spec c0 p); [lia | assumption].
  - inversion Hrun; subst. split; [lia|]. rewrite declare_spec.
    eexists. split; [reflexivity|]. constructor.
  - inversion Hrun; subst. split; [lia|]. rewrite declare_spec.
    eexists. split; [reflexivity|]. constructor.
  - inversion Hrun; subst. split; [lia|]. exists [].
    split; [now rewrite app_nil_r | constructor].
Qed.

End RenderVisit.

Lemma render_roots_clusters (fuel : nat) (tree : AST) (indent : nat) :
  forall roots str c graph_id str' c',
    render_roots fuel tree roots str c graph_id indent = Done (str', c') ->
    c <= c' /\ exists out,
      str' = str ++ out /\ clusters bumps tree indent roots graph_id c out c'.
Proof.
  induction roots as [|root rest IH]; intros str c g str' c' Hrun;
    cbn [render_roots] in Hrun.
  - inversion Hrun; subst. split; [lia|]. exists [].
    split; [now rewrite app_nil_r | constructor].
  - apply bind_Done in Hrun as (n & Hn & Hrun). apply index_Done in Hn.
    apply bind_Done in Hrun as ([str1 c1] & Hcall & Hrun).
    unfold render_cluster in Hcall.
    apply bind_Done in Hcall as ([str2 c2] & Hvisit & Hret).
    inversion Hret; subst.
    apply render_nodes_visit in Hvisit as (Hle & body & -> & Hv).
    rewrite Nat.eqb_refl in Hv.
    apply IH in Hrun as (Hle' & out & -> & Hcl).
    split; [lia|].
    exists (Open (S indent) (cluster_title g)
            :: body ++ Close (S indent) :: out).
    split.
    + rewrite <- !app_assoc. reflexivity.
    + econstructor; eauto. reflexivity.
Qed.

(** The renderer returns on every arena in which children are stored
    before their parents. *)
Lemma render_children_total rec (tree : AST) (children : list node_t) :
  (forall k, In k children ->
     exists n, nth_error tree k = Some n
               /\ forall str p c, exists r, rec n str p c = Done r) ->
  forall str self c,
    exists r, render_children rec children tree str self c = Done r.
Proof.
  induction children as [|child rest IH]; intros Hrec str self c;
    cbn [render_children].
  - eauto.
  - destruct (Hrec child (or_introl eq_refl)) as (n & Hn & Hcall).
    unfold index. rewrite Hn. cbn [bind].
    destruct (Hcall str self c) as [[str1 c1] ->]. cbn [bind].
    apply IH. intros k Hk. apply Hrec. now right.
Qed.

Lemma render_nodes_total (tree : AST) (indent : nat) :
  (forall c p, child_of tree c p -> c < p) ->
  forall fuel i n str parent c,
    nth_error tree i = Some n -> i < fuel ->
    exists r, render_nodes fuel tree indent n str parent c = Done r.
Proof.
  intros Hback. induction fuel as [|fuel IH]; intros i n str parent c Hn Hi;
    [lia|].
  cbn [render_nodes]. destruct n as [op children | x | x |]; eauto.
  apply render_children_total. intros k Hk.
  assert (Hki : k < i) by (apply Hback; now exists (List op children)).
  assert (Hlen : i < length tree) by (apply nth_error_Some; congruence).
  destruct (nth_error tree k) as [m|] eqn:Hm.
  - exists m. split; [reflexivity|]. intros str0 p c0.
    apply (IH k); [assumption | lia].
  - apply nth_error_None in Hm. lia.
Qed.

Lemma render_roots_total (tree : AST) (indent : nat) (roots : list node_t) :
  (forall c p, child_of tree c p -> c < p) ->
  (forall r, In r roots -> r < length tree) ->
  forall str c graph_id,
    exists r,
      render_roots (length tree) tree roots str c graph_id indent = Done r.
Proof.
  intros Hback. induction roots as [|root rest IH]; intros Hroots str c g;
    cbn [render_roots].
  - eauto.
  - assert (Hr : root < length tree) by (apply Hroots; now left).
    destruct (nth_error tree root) as [n|] eqn:Hn.
    2:{ apply nth_error_None in Hn. lia. }
    unfold index. rewrite Hn. cbn [bind]. unfold render_cluster.
    destruct (render_nodes_total tree (S (S indent)) Hback (length tree)
                root n (str ++ [Open (S indent)
                   (bytes "subgraph cluster" ++ to_string g)]) c c Hn Hr)
      as [[str1 c1] ->].
    cbn [bind]. apply IH. intros r Hin. apply Hroots. now right.
Qed.

(** ** The ids of a traversal *)

Lemma decl_ids_app (l1 l2 : list stmt) :
  decl_ids (l1 ++ l2) = decl_ids l1 ++ decl_ids l2.
Proof.
  induction l1 as [|[] l1 IH]; cbn [app decl_ids]; now rewrite ?IH.
Qed.

Lemma decl_ids_edge_from (parent : option nat) (indent self : nat) :
  decl_ids (edge_from parent indent self) = [].
Proof. now destruct parent. Qed.

Lemma ids_within_nil (c c' : nat) : c <= c' -> ids_within c [] c'.
Proof. intros H. repeat split; [assumption | constructor | constructor]. Qed.

Lemma ids_within_cons (c c' : nat) (l : list nat) :
  ids_within (S c) l c' -> ids_within c (c :: l) c'.
Proof.
  intros (Hle & Hs & Hb). split; [lia|]. split.
  - constructor; [assumption|].
    eapply Forall_impl; [|exact Hb]. cbn. intros x Hx. lia.
  - constructor; [lia|].
    eapply Forall_impl; [|exact Hb]. cbn. intros x Hx. lia.
Qed.

Lemma ids_within_app (a b b' c : nat) (l1 l2 : list nat) :
  ids_within a l1 b -> b <= b' -> ids_within b' l2 c ->
  ids_within a (l1 ++ l2) c.
Proof.
  intros (Hab & Hs1 & Hb1) Hbb (Hbc & Hs2 & Hb2). split; [lia|]. split.
  - induction l1 as [|x l1 IH]; [assumption|].
    inversion Hs1; subst. inversion Hb1; subst. cbn [app].
    constructor; [now apply IH|].
    apply Forall_app. split; [assumption|].
    eapply Forall_impl; [|exact Hb2]. cbn. intros y Hy. lia.
  - apply Forall_app. split.
    + eapply Forall_impl; [|exact Hb1]. cbn. intros y Hy. lia.
    + eapply Forall_impl; [|exact Hb2]. cbn. intros y Hy. lia.
Qed.

Lemma StronglySorted_lt_NoDup (l : list nat) : StronglySorted lt l -> NoDup l.
Proof.
  induction 1 as [|x l Hs IH Hx]; constructor; [|assumption].
  intros Hin. rewrite Forall_forall in Hx. apply Hx in Hin. lia.
Qed.

Section TraversalIds.
Variables (step : nat -> nat -> Prop) (tree : AST).
Hypothesis step_grows : forall a b, step a b -> a <= b.

Lemma visit_ids_within (indent : nat) parent n c out c' :
  visit step tree indent parent n c out c' ->
  ids_within c (decl_ids out) c'.
Proof.
  revert parent n c out c'.
  apply (visit_mut step tree indent
           (fun _ _ c out c' => ids_within c (decl_ids out) c')
           (fun _ _ c out c' => ids_within c (decl_ids out) c')).
  - intros _ c. now apply ids_within_nil.
  - intros parent x c. cbn [decl_ids]. rewrite decl_ids_edge_from.
    apply ids_within_cons, ids_within_nil. lia.
  - intros parent x c. cbn [decl_ids]. rewrite decl_ids_edge_from.
    apply ids_within_cons, ids_within_nil. lia.
  - intros parent op children c out c' _ IH. cbn [decl_ids].
    rewrite decl_ids_app, decl_ids_edge_from. cbn [app].
    now apply ids_within_cons.
  - intros _ c. now apply ids_within_nil.
  - intros self child rest n c out1 c1 c1' out2 c2 _ _ IH1 Hstep _ IH2.
    rewrite decl_ids_app.
    apply (ids_within_app c c1 c1' c2);
      [exact IH1 | now apply step_grows | exact IH2].
Qed.

Lemma clusters_ids_within (indent : nat) roots g c out c' :
  clusters step tree indent roots g c out c' ->
  ids_within c (decl_ids out) c'.
Proof.
  induction 1 as [g c | root rest n g c body c1 c1' out c2 Hn Hv Hstep _ IH].
  - now apply ids_within_nil.
  - cbn [decl_ids]. rewrite decl_ids_app. cbn [decl_ids].
    apply (ids_within_app c c1 c1' c2);
      [now apply visit_ids_within in Hv | now apply step_grows | exact IH].
Qed.

End TraversalIds.

(** A traversal whose counter goes up by one is one whose counter does not
    go back. *)
Lemma visit_bumps_grows (tree : AST) (indent : nat) parent n c out c' :
  visit bumps tree indent parent n c out c' ->
  visit grows tree indent parent n c out c'.
Proof.
  revert parent n c out c'.
  apply (visit_mut bumps tree indent
           (fun parent n c out c' => visit grows tree indent parent n c out c')
           (fun self children c out c' =>
              visit_children grows tree indent self children c out c'));
    try (intros; now constructor).
  intros self child rest n c out1 c1 c1' out2 c2 Hn _ IH1 Hstep _ IH2.
  econstructor; eauto. unfold bumps in Hstep. unfold grows. lia.
Qed.

Lemma clusters_bumps_grows (tree : AST) (indent : nat) roots g c out c' :
  clusters bumps tree indent roots g c out c' ->
  clusters grows tree indent roots g c out c'.
Proof.
  induction 1 as [g c | root rest n g c body c1 c1' out c2 Hn Hv Hstep _ IH].
  - constructor.
  - econstructor; eauto using visit_bumps_grows.
    unfold bumps in Hstep. unfold grows. lia.
Qed.

(** What [render_stmts] returns on a forest: the outer block around the
    clusters of a traversal whose counter goes up by one. *)
Lemma render_stmts_clusters (roots : list node_t) (tree : AST)
    (title : list ascii) (indent : nat) :
  forest tree roots ->
  exists body c',
    render_stmts roots tree title indent
    = Done (Open indent title :: body ++ [Close indent])
    /\ clusters bumps tree indent roots 0 0 body c'.
Proof.
  intros (Hroots & Hchild & _ & _). unfold render_stmts.
  destruct (render_roots_total tree indent roots
              (fun c p H => proj1 (Hchild c p H)) Hroots
              [Open indent title] 0 0) as [[str c'] Hrun].
  rewrite Hrun. cbn [bind].
  apply render_roots_clusters in Hrun as (_ & body & -> & Hcl).
  exists body, c'. split; [|assumption].
  cbn [app]. reflexivity.
Qed.

(** C7: on a forest the renderer returns, and what it returns is the outer
    block around one cluster for each root; in a cluster every node that is
    not [Empty] is declared under the next value of a counter that all
    clusters share and that never goes back, the declaration being followed
    by the edge from the id of its parent, except for the first node of the
    cluster, which has none.  No two declarations carry the same id. *)
Theorem render_declares_and_links (roots : list node_t) (tree : AST)
    (title : list ascii) (indent : nat) :
  forest tree roots ->
  exists body c',
    render_stmts roots tree title indent
    = Done (Open indent title :: body ++ [Close indent])
    /\ clusters grows tree indent roots 0 0 body c'
    /\ NoDup (decl_ids (Open indent title :: body ++ [Close indent])).
Proof.
  intros Hforest.
  destruct (render_stmts_clusters roots tree title indent Hforest)
    as (body & c' & Hrun & Hcl).
  exists body, c'. split; [assumption|].
  apply clusters_bumps_grows in Hcl. split; [assumption|].
  cbn [decl_ids]. rewrite decl_ids_app. cbn [decl_ids]. rewrite app_nil_r.
  apply StronglySorted_lt_NoDup.
  eapply clusters_ids_within; [|eassumption]. now unfold grows.
Qed.

(** ** Gaps between the ids *)

Lemma gap_free_app_r (l1 l2 : list nat) :
  gap_free l2 = false -> gap_free (l1 ++ l2) = false.
Proof.
  intros H. induction l1 as [|x l1 IH]; [assumption|].
  cbn [app]. destruct (l1 ++ l2) as [|y l] eqn:E.
  - destruct l1; [|discriminate]. cbn [app] in E. subst. discriminate.
  - change (((y =? S x) && gap_free (y :: l)) = false).
    rewrite IH. apply andb_false_r.
Qed.

Lemma gap_free_app_l (l1 l2 : list nat) :
  gap_free l1 = false -> gap_free (l1 ++ l2) = false.
Proof.
  induction l1 as [|a l1 IH]; [discriminate|].
  destruct l1 as [|b l1]; [discriminate|]. intros H.
  change (((b =? S a) && gap_free (b :: l1)) = false) in H.
  change (((b =? S a) && gap_free ((b :: l1) ++ l2)) = false).
  apply andb_false_iff in H as [H | H].
  - now rewrite H.
  - rewrite (IH H). apply andb_false_r.
Qed.

(** An id that is more than one above all the ids before it, of which
    there is one at least, leaves a gap. *)
Lemma gap_free_jump (A B : list nat) (b : nat) :
  A <> [] -> (forall x, In x A -> S x < b) -> gap_free (A ++ b :: B) = false.
Proof.
  intros Hne Hlt. destruct (exists_last Hne) as (A' & a & ->).
  rewrite <- app_assoc. apply gap_free_app_r. cbn [app].
  change (((b =? S a) && gap_free (b :: B)) = false).
  assert (S a < b) by (apply Hlt, in_app_iff; right; now left).
  destruct (Nat.eqb_spec b (S a)); [lia | reflexivity].
Qed.

Section Gaps.
Variable tree : AST.

(** The first id of a visit is the counter at its start. *)
Lemma visit_first_id step indent parent n c out c' :
  visit step tree indent parent n c out c' -> n <> Empty ->
  exists rest, decl_ids out = c :: rest.
Proof.
  intros Hv Hn. destruct Hv; [congruence | | |]; cbn [decl_ids]; eauto.
Qed.

(** In the visit of the children of a [List], the first id of a child
    that is not the first one is more than one above all the ids of the
    children before it, and more than one above the id of the [List]. *)
Lemma visit_children_jump indent :
  forall cs k0 self c out c2 k n,
    visit_children bumps tree indent self (k0 :: cs) c out c2 ->
    In k cs -> nth_error tree k = Some n -> n <> Empty ->
    exists A b B,
      decl_ids out = A ++ b :: B /\ (forall x, In x A -> S x < b) /\ c < b.
Proof.
  induction cs as [|k1 cs IH]; intros k0 self c out c2 k n Hvs Hin Hk Hn;
    [destruct Hin|].
  inversion Hvs as [|? ? ? n0 ? out0 c1 c1' outr ? Hn0 Hv0 Hstep Hrest];
    subst.
  unfold bumps in Hstep. subst c1'.
  assert (W0 : ids_within c (decl_ids out0) c1)
    by (eapply visit_ids_within; [|eassumption];
        unfold bumps; intros; lia).
  destruct W0 as (Hle0 & _ & Hb0). rewrite Forall_forall in Hb0.
  rewrite decl_ids_app.
  destruct Hin as [-> | Hin].
  - inversion Hrest as [|? ? ? n1 ? out1 ? ? out2 ? Hn1 Hv1 _ _]; subst.
    assert (n1 = n) by congruence. subst n1.
    destruct (visit_first_id _ _ _ _ _ _ _ Hv1 Hn) as [rest Hrest1].
    exists (decl_ids out0), (S c1), (rest ++ decl_ids out2).
    rewrite decl_ids_app, Hrest1. split; [reflexivity|]. split; [|lia].
    intros x Hx. apply Hb0 in Hx. lia.
  - destruct (IH k1 self (S c1) outr c2 k n Hrest Hin Hk Hn)
      as (A & b & B & E & HA & Hb).
    exists (decl_ids out0 ++ A), b, B. rewrite E, <- app_assoc.
    split; [reflexivity|]. split; [|lia].
    intros x Hx. apply in_app_iff in Hx as [Hx | Hx].
    + apply Hb0 in Hx. lia.
    + now apply HA.
Qed.

(** A [List] with a child after the first that is not [Empty] is
    rendered with a gap. *)
Lemma visit_List_gap indent parent op k0 cs c out c' k n :
  visit bumps tree indent parent (List op (k0 :: cs)) c out c' ->
  In k cs -> nth_error tree k = Some n -> n <> Empty ->
  gap_free (decl_ids out) = false.
Proof.
  intros Hv Hin Hk Hn. inversion Hv as [| | |? ? ? ? outc ? Hvs]; subst.
  destruct (visit_children_jump _ _ _ _ _ _ _ _ _ Hvs Hin Hk Hn)
    as (A & b & B & E & HA & Hb).
  cbn [decl_ids]. rewrite decl_ids_app, decl_ids_edge_from, E. cbn [app].
  apply (gap_free_jump (c :: A)); [discriminate|].
  intros x [<- | Hx]; [lia | now apply HA].
Qed.

(** The statements of the visit of a child lie within those of the visit
    of the children. *)
Lemma visit_children_infix indent self cs c out c' k n :
  visit_children bumps tree indent self cs c out c' ->
  In k cs -> nth_error tree k = Some n ->
  exists parent ck outk ck' pre post,
    visit bumps tree indent parent n ck outk ck'
    /\ out = pre ++ outk ++ post.
Proof.
  induction 1 as [|self child rest n0 c out1 c1 c1' out2 c2 Hn0 Hv _ _ IH];
    intros Hin Hk; [destruct Hin|].
  destruct Hin as [-> | Hin].
  - assert (n0 = n) by congruence. subst n0.
    exists (Some self), c, out1, c1, [], out2. now split.
  - destruct (IH Hin Hk) as (p & ck & outk & ck' & pre & post & Hvk & ->).
    exists p, ck, outk, ck', (out1 ++ pre), post.
    split; [assumption | now rewrite <- app_assoc].
Qed.

Lemma clusters_infix indent roots g c body c' r n :
  clusters bumps tree indent roots g c body c' ->
  In r roots -> nth_error tree r = Some n ->
  exists parent cr outr cr' pre post,
    visit bumps tree (S (S indent)) parent n cr outr cr'
    /\ body = pre ++ outr ++ post.
Proof.
  induction 1 as [|root rest n0 g c body c1 c1' out c2 Hn0 Hv _ _ IH];
    intros Hin Hr; [destruct Hin|].
  destruct Hin as [-> | Hin].
  - assert (n0 = n) by congruence. subst n0.
    exists None, c, body, c1,
      [Open (S indent) (cluster_title g)], (Close (S indent) :: out).
    now split.
  - destruct (IH Hin Hr) as (p & cr & outr & cr' & pre & post & Hvr & ->).
    exists p, cr, outr, cr',
      (Open (S indent) (cluster_title g) :: body ++ Close (S indent) :: pre),
      post.
    split; [assumption|]. cbn [app]. rewrite <- app_assoc. reflexivity.
Qed.

(** The statements of the visit of a node the renderer comes to lie
    within those of the clusters. *)
Lemma visited_infix indent roots g c body c' :
  clusters bumps tree indent roots g c body c' ->
  forall i, visited tree roots i ->
  forall n, nth_error tree i = Some n ->
  exists parent ci outi ci' pre post,
    visit bumps tree (S (S indent)) parent n ci outi ci'
    /\ body = pre ++ outi ++ post.
Proof.
  intros Hcl. induction 1 as [r Hr | k p _ IH (np & Hp & Hk)]; intros n Hn.
  - eapply clusters_infix; eassumption.
  - destruct (IH np Hp) as (pp & cp & outp & cp' & pre & post & Hvp & ->).
    destruct np as [op children | | |]; try destruct Hk.
    inversion Hvp as [| | |? ? ? ? outc ? Hvs]; subst.
    destruct (visit_children_infix _ _ _ _ _ _ _ _ Hvs Hk Hn)
      as (pk & ck & outk & ck' & pre' & post' & Hvk & ->).
    exists pk, ck, outk, ck',
      (pre ++ NodeDecl (S (S indent)) cp op
           :: edge_from pp (S (S indent)) cp ++ pre'),
      (post' ++ post).
    split; [assumption|].
    cbn [app]. rewrite <- !app_assoc. cbn [app].
    rewrite <- !app_assoc. reflexivity.
Qed.

(** In the clusters, the first id of a form that is not the first one is
    more than one above all the ids of the forms before it. *)
Lemma clusters_jump indent :
  forall rs r0 g c body c2 r n,
    clusters bumps tree indent (r0 :: rs) g c body c2 ->
    In r rs -> nth_error tree r = Some n -> n <> Empty ->
    exists A b B,
      decl_ids body = A ++ b :: B /\ (forall x, In x A -> S x < b) /\ c < b.
Proof.
  induction rs as [|r1 rs IH]; intros r0 g c body c2 r n Hcl Hin Hr Hn;
    [destruct Hin|].
  inversion Hcl as [|? ? n0 ? ? body0 c1 c1' outr ? Hn0 Hv0 Hstep Hrest];
    subst.
  unfold bumps in Hstep. subst c1'.
  assert (W0 : ids_within c (decl_ids body0) c1)
    by (eapply visit_ids_within; [|eassumption];
        unfold bumps; intros; lia).
  destruct W0 as (Hle0 & _ & Hb0). rewrite Forall_forall in Hb0.
  cbn [decl_ids]. rewrite decl_ids_app. cbn [decl_ids].
  destruct Hin as [-> | Hin].
  - inversion Hrest as [|? ? n1 ? ? body1 ? ? out2 ? Hn1 Hv1 _ _]; subst.
    assert (n1 = n) by congruence. subst n1.
    destruct (visit_first_id _ _ _ _ _ _ _ Hv1 Hn) as [rest Hrest1].
    exists (decl_ids body0), (S c1), (rest ++ decl_ids out2).
    cbn [decl_ids]. rewrite decl_ids_app, Hrest1. cbn [decl_ids].
    split; [reflexivity|]. split; [|lia].
    intros x Hx. apply Hb0 in Hx. lia.
  - destruct (IH r1 (S g) (S c1) outr c2 r n Hrest Hin Hr Hn)
      as (A & b & B & E & HA & Hb).
    exists (decl_ids body0 ++ A), b, B. rewrite E, <- app_assoc.
    split; [reflexivity|]. split; [|lia].
    intros x Hx. apply in_app_iff in Hx as [Hx | Hx].
    + apply Hb0 in Hx. lia.
    + now apply HA.
Qed.

(** Two forms that are not [Empty] are rendered with a gap between
    them. *)
Lemma clusters_gap indent :
  forall before g c body c2 r1 between r2 after n1 n2,
    clusters bumps tree indent
      (before ++ r1 :: between ++ r2 :: after) g c body c2 ->
    nth_error tree r1 = Some n1 -> n1 <> Empty ->
    nth_error tree r2 = Some n2 -> n2 <> Empty ->
    gap_free (decl_ids body) = false.
Proof.
  induction before as [|b0 before IH];
    intros g c body c2 r1 between r2 after n1 n2 Hcl H1 Hn1 H2 Hn2.
  - cbn [app] in Hcl.
    destruct (clusters_jump indent _ _ _ _ _ _ r2 n2 Hcl)
      as (A & b & B & E & HA & Hb); try assumption.
    { apply in_app_iff. right. now left. }
    inversion Hcl as [|? ? n0 ? ? body0 c1 c1' outr ? Hn0 Hv0 _ _]; subst.
    assert (n0 = n1) by congruence. subst n0.
    destruct (visit_first_id _ _ _ _ _ _ _ Hv0 Hn1) as [rest Hfirst].
    cbn [decl_ids] in E. rewrite decl_ids_app, Hfirst in E.
    cbn [decl_ids]. rewrite decl_ids_app, Hfirst.
    rewrite E. apply gap_free_jump; [|assumption].
    intros ->. cbn [app] in E. inversion E. lia.
  - cbn [app] in Hcl.
    inversion Hcl as [|? ? n0 ? ? body0 c1 c1' outr ? Hn0 Hv0 _ Hrest]; subst.
    cbn [decl_ids]. rewrite decl_ids_app. cbn [decl_ids].
    apply gap_free_app_r. eapply IH; eassumption.
Qed.

End Gaps.

Lemma add_mul_x_parse :
  parse_buffer (c_str (read_file add_mul_x)) = Done ([4], add_mul_x_tree).
Proof. vm_compute. reflexivity. Qed.

Lemma render_declares_and_links_witness :
  forest add_mul_x_tree [4]
  /\ exists body c',
       render_stmts [4] add_mul_x_tree (bytes "digraph") 0
       = Done (Open 0 (bytes "digraph") :: body ++ [Close 0])
       /\ clusters grows add_mul_x_tree 0 [4] 0 0 body c'
       /\ NoDup (decl_ids (Open 0 (bytes "digraph") :: body ++ [Close 0])).
Proof.
  assert (H : forest add_mul_x_tree [4])
    by exact (parse_buffer_forest _ _ _ add_mul_x_parse).
  split; [exact H|].
  exact (render_declares_and_links [4] add_mul_x_tree (bytes "digraph") 0 H).
Defined.

(** C10, as stated, fails: the [List] of [(a b)] has a child, and its
    rendering has the ids 0 and 1, without a gap. *)
Lemma one_child_leaves_no_gap :
  exists roots tree stmts op k ks,
    parse_buffer (c_str (read_file (bytes "(a b)"))) = Done (roots, tree)
    /\ In (List op (k :: ks)) tree
    /\ render_stmts roots tree (bytes "digraph") 0 = Done stmts
    /\ decl_ids stmts = [0; 1]
    /\ gap_free (decl_ids stmts) = true.
Proof.
  do 6 eexists. split; [vm_compute; reflexivity|].
  split; [right; left; reflexivity|].
  split; [vm_compute; reflexivity|].
  split; reflexivity.
Qed.

(** C10, as the code has it: on a forest the ids go up strictly in the
    order of emission.  The counter is incremented once more after the
    visit of each child and after each cluster, so the rendering has a
    gap as soon as a [List] that is visited has a child after its first
    that is not [Empty], or a root that is not [Empty] comes after
    another. *)
Theorem ids_increase_with_gaps (roots : list node_t) (tree : AST)
    (title : list ascii) (indent : nat) :
  forest tree roots ->
  exists stmts,
    render_stmts roots tree title indent = Done stmts
    /\ StronglySorted lt (decl_ids stmts)
    /\ (forall p op k0 cs k n,
          visited tree roots p ->
          nth_error tree p = Some (List op (k0 :: cs)) ->
          In k cs -> nth_error tree k = Some n -> n <> Empty ->
          gap_free (decl_ids stmts) = false)
    /\ (forall before r1 between r2 after n1 n2,
          roots = before ++ r1 :: between ++ r2 :: after ->
          nth_error tree r1 = Some n1 -> n1 <> Empty ->
          nth_error tree r2 = Some n2 -> n2 <> Empty ->
          gap_free (decl_ids stmts) = false).
Proof.
  intros Hforest.
  destruct (render_stmts_clusters roots tree title indent Hforest)
    as (body & c' & Hrun & Hcl).
  eexists. split; [exact Hrun|].
  assert (E : decl_ids (Open indent title :: body ++ [Close indent])
              = decl_ids body).
  { cbn [decl_ids]. rewrite decl_ids_app. cbn [decl_ids]. apply app_nil_r. }
  rewrite E. split; [|split].
  - eapply clusters_ids_within; [|eassumption]. unfold bumps. intros; lia.
  - intros p op k0 cs k n Hp Hnp Hin Hk Hn.
    destruct (visited_infix tree indent roots 0 0 body c' Hcl p Hp _ Hnp)
      as (pp & cp & outp & cp' & pre & post & Hv & ->).
    rewrite !decl_ids_app.
    apply gap_free_app_r, gap_free_app_l.
    eapply visit_List_gap; eassumption.
  - intros before r1 between r2 after n1 n2 -> H1 Hn1 H2 Hn2.
    eapply clusters_gap; eassumption.
Qed.

Lemma ids_increase_with_gaps_witness :
  forest add_mul_x_tree [4]
  /\ exists stmts,
       render_stmts [4] add_mul_x_tree (bytes "digraph") 0 = Done stmts
       /\ StronglySorted lt (decl_ids stmts)
       /\ gap_free (decl_ids stmts) = false.
Proof.
  assert (H : forest add_mul_x_tree [4])
    by exact (parse_buffer_forest _ _ _ add_mul_x_parse).
  split; [exact H|].
  destruct (ids_increase_with_gaps [4] add_mul_x_tree (bytes "digraph") 0 H)
    as (stmts & Hrun & Hsorted & Hlist & _).
  exists stmts. split; [exact Hrun|]. split; [exact Hsorted|].
  apply (Hlist 4 (mkToken (mkView 1 3) TOKEN_IDENTIFIER) 2 [3] 3
           (String (mkToken (mkView 16 1) TOKEN_STRING))).
  - apply visited_root. now left.
  - reflexivity.
  - now left.
  - reflexivity.
  - discriminate.
Defined.

(** A file that parses is rendered. *)
Lemma seed_main_renders (content : list ascii) (roots : list node_t)
    (tree : AST) :
  parse_buffer (c_str (read_file content)) = Done (roots, tree) ->
  exists text, seed_main content = Done text.
Proof.
  intros Hparse. unfold seed_main, render. rewrite Hparse. cbn [bind].
  apply parse_buffer_forest in Hparse.
  destruct (render_stmts_clusters roots tree (bytes "digraph") 0 Hparse)
    as (body & c' & -> & _).
  cbn [bind]. eauto.
Qed.

(** ** Reading a layout *)

Lemma spelling_first (l : lexeme) :
  lexeme_ok l = true ->
  exists c s, spelling l = c :: s /\ is_whitespace c = false.
Proof.
  destruct l as [| |d body|c rest]; cbn [spelling lexeme_ok]; intros H.
  - now exists lparen, [].
  - now exists rparen, [].
  - exists d, (body ++ [d]). split; [reflexivity|].
    apply andb_true_iff in H as [H _]. apply orb_true_iff in H.
    destruct H as [H | H]; apply Ascii.eqb_eq in H; now subst.
  - exists c, rest. split; [reflexivity|].
    apply andb_true_iff in H as [H _].
    now apply ident_start_class in H.
Qed.

Lemma layout_not_nil tail items final : layout tail items final <> [].
Proof.
  destruct items as [|[gap l] items]; cbn [layout].
  - now destruct final.
  - destruct gap; [|discriminate]. destruct l; discriminate.
Qed.

Lemma layout_hd tail items final :
  exists post, layout tail items final
               = hd NUL (layout [] items final) :: post.
Proof.
  destruct items as [|[gap l] items]; cbn [layout].
  - destruct final; cbn; eauto.
  - destruct gap; cbn; eauto. destruct l; cbn; eauto.
Qed.

Lemma whitespace_not_backslash (gap pre : list ascii) :
  forallb is_whitespace gap = true -> gap <> [] ->
  exists pre' b, pre ++ gap = pre' ++ [b] /\ b <> backslash.
Proof.
  intros Hws Hne. destruct (exists_last Hne) as (g & b & ->).
  exists (pre ++ g), b. split; [now rewrite app_assoc|].
  rewrite forallb_app in Hws. apply andb_true_iff in Hws as [_ Hb].
  cbn in Hb. rewrite andb_true_r in Hb. intros ->. discriminate.
Qed.

(** The token the tokenizer finds before the items of a layout: the first
    lexeme, the cursor being left after its spelling, or the end of input,
    the cursor being left on the terminator. *)
Lemma next_token_layout (st : nat) (pre tail : list ascii) items final :
  well_spaced items final = true -> prev_ok pre items ->
  let buf := pre ++ layout tail items final in
  match items with
  | [] =>
      exists tok,
        next_token buf st (length pre) = Done (tok, length (pre ++ final))
        /\ type tok = TOKEN_EOF
  | (gap, l) :: items' =>
      exists tok,
        next_token buf st (length pre)
        = Done (tok, length (pre ++ gap ++ spelling l))
        /\ token_shape buf tok = (lexeme_type l, lexeme_text l)
        /\ prev_ok (pre ++ gap ++ spelling l) items'
  end.
Proof.
  intros Hws Hprev buf. subst buf.
  destruct items as [|[gap l] items']; cbn [layout well_spaced] in *.
  - rewrite next_token_gap by (assumption || reflexivity).
    rewrite app_assoc, next_token_eof. eauto.
  - apply andb_true_iff in Hws as [Hws Hrest].
    apply andb_true_iff in Hws as [Hws Hsep].
    apply andb_true_iff in Hws as [Hgap Hok].
    destruct (spelling_first l Hok) as (c0 & s0 & Hsp & Hc0).
    assert (Hnt : next_token (pre ++ gap ++ spelling l ++ layout tail items' final)
                    st (length pre)
                  = next_token_rec 1
                      (pre ++ gap ++ spelling l ++ layout tail items' final)
                      st (length (pre ++ gap))).
    { rewrite Hsp. cbn [app]. now apply next_token_gap. }
    rewrite Hnt. clear Hnt Hsp Hc0 c0 s0.
    assert (Hnext : prev_ok (pre ++ gap ++ spelling l) items').
    { destruct items' as [|[[|g gap'] [| |d' body'|c' rest']] items''];
        cbn [prev_ok]; try exact I.
      destruct l as [| |d body|c rest]; cbn [spelling].
      - exists (pre ++ gap), lparen. split; [|discriminate].
        now rewrite <- app_assoc.
      - exists (pre ++ gap), rparen. split; [|discriminate].
        now rewrite <- app_assoc.
      - exists (pre ++ gap ++ d :: body), d. split.
        + rewrite <- !app_assoc. reflexivity.
        + cbn [lexeme_ok] in Hok. apply andb_true_iff in Hok as [Hd _].
          apply orb_true_iff in Hd.
          destruct Hd as [Hd | Hd]; apply Ascii.eqb_eq in Hd; now subst.
      - exfalso. cbn [separated layout app hd spelling] in Hsep.
        cbn [well_spaced lexeme_ok] in Hrest.
        apply andb_true_iff in Hrest as [Hrest _].
        apply andb_true_iff in Hrest as [Hrest _].
        apply andb_true_iff in Hrest as [_ Hq].
        apply andb_true_iff in Hq as [Hq _]. apply orb_true_iff in Hq.
        destruct Hq as [Hq | Hq]; apply Ascii.eqb_eq in Hq; subst;
          discriminate. }
    rewrite (app_assoc pre gap).
    destruct l as [| |d body|c rest]; cbn [spelling app] in *.
    + rewrite next_token_lparen. eexists. split; [|split].
      * f_equal. f_equal. rewrite !length_app. simpl. lia.
      * unfold token_shape, token_text, view_text.
        cbn [type view v_begin v_length lexeme_type lexeme_text].
        now rewrite skipn_app_length.
      * assumption.
    + rewrite next_token_rparen. eexists. split; [|split].
      * f_equal. f_equal. rewrite !length_app. simpl. lia.
      * unfold token_shape, token_text, view_text.
        cbn [type view v_begin v_length lexeme_type lexeme_text].
        now rewrite skipn_app_length.
      * assumption.
    + cbn [lexeme_ok] in Hok. apply andb_true_iff in Hok as [Hd Hbody].
      assert (Hq : is_quote d).
      { apply orb_true_iff in Hd.
        destruct Hd as [Hd | Hd]; apply Ascii.eqb_eq in Hd;
          [now left | now right]. }
      assert (Hb : exists pre' b, pre ++ gap = pre' ++ [b] /\ b <> backslash).
      { destruct gap as [|g gap'].
        - rewrite app_nil_r. exact Hprev.
        - apply whitespace_not_backslash; [assumption | discriminate]. }
      destruct Hb as (pre' & b & Epre & Hb). rewrite Epre.
      replace ((pre' ++ [b]) ++ d :: (body ++ [d]) ++ layout tail items' final)
        with ((pre' ++ [b]) ++ d :: body ++ d :: layout tail items' final)
        by (now rewrite <- !app_assoc).
      rewrite (next_token_string pre' _ st 0 b d d body)
        by (assumption || now left).
      eexists. split; [|split].
      * f_equal. f_equal. rewrite <- Epre, !length_app. cbn [length].
        rewrite length_app. cbn [length]. lia.
      * unfold token_shape, token_text.
        cbn [type view lexeme_type lexeme_text]. f_equal.
        apply string_token_text.
      * assumption.
    + cbn [lexeme_ok] in Hok. apply andb_true_iff in Hok as [Hc Hr].
      destruct (layout_hd tail items' final) as [post Hpost].
      rewrite Hpost. cbn [separated] in Hsep.
      apply negb_true_iff in Hsep.
      rewrite (next_token_identifier (pre ++ gap) post st 0 c _ rest)
        by assumption.
      eexists. split; [|split].
      * f_equal. f_equal. rewrite !length_app. cbn [length]. lia.
      * unfold token_shape, token_text, view_text.
        cbn [type view v_begin v_length lexeme_type lexeme_text]. f_equal.
        destruct (Ascii.eqb c backslash).
        -- replace (S (length (pre ++ gap)) + length rest
                    - S (length (pre ++ gap))) with (length rest) by lia.
           rewrite skipn_S_app, firstn_app, Nat.sub_diag, firstn_all.
           cbn [firstn]. apply app_nil_r.
        -- replace (S (length (pre ++ gap)) + length rest
                    - length (pre ++ gap)) with (length (c :: rest))
             by (cbn [length]; lia).
           rewrite skipn_app_length.
           change (c :: rest ++ hd NUL (layout [] items' final) :: post)
             with ((c :: rest) ++ hd NUL (layout [] items' final) :: post).
           rewrite firstn_app, Nat.sub_diag, firstn_all.
           cbn [firstn]. apply app_nil_r.
      * assumption.
Qed.

Lemma Lexed_cursor (buf : list ascii) (lex : Lexer) (rem : list lexeme) :
  Lexed buf lex rem -> start lex = 0 /\ str lex < length buf.
Proof.
  intros [Hst H]. split; [assumption|].
  assert (C : exists items final, Cursor buf (str lex) items final).
  { destruct rem as [|l rem]; [now exists [], []|].
    destruct H as (_ & items & final & _ & C). now exists items, final. }
  destruct C as (items & final & pre & tail & -> & -> & _ & _).
  rewrite length_app.
  pose proof (layout_not_nil tail items final).
  destruct (layout tail items final); [congruence | simpl; lia].
Qed.

Lemma Lexed_type (buf : list ascii) (lex : Lexer) (rem : list lexeme) :
  Lexed buf lex rem ->
  type (peek lex) = match rem with [] => TOKEN_EOF | l :: _ => lexeme_type l end.
Proof.
  intros [_ H]. destruct rem as [|l rem].
  - apply H.
  - destruct H as [H _]. unfold token_shape in H. now inversion H.
Qed.

(** An error is reported as such: the position is found. *)
Lemma Lexed_error {A : Type} (buf : list ascii) (lex : Lexer)
    (rem : list lexeme) (msg : string) :
  Lexed buf lex rem -> exists pos, @error A buf lex msg = Fatal pos msg.
Proof.
  intros H. apply Lexed_cursor in H as [Hst Hlt].
  unfold error, Lexer_position. rewrite Hst.
  rewrite position_shifted by lia. cbn [bind]. eauto.
Qed.

(** [advance] hands out the lookahead and reads the next lexeme. *)
Lemma advance_Lexed (buf : list ascii) (lex : Lexer) (rem : list lexeme) :
  Lexed buf lex rem ->
  exists lex', advance buf lex = Done (peek lex, lex') /\ Lexed buf lex' (tl rem).
Proof.
  intros [Hst H]. unfold advance.
  assert (C : exists items final,
            map snd items = tl rem /\ Cursor buf (str lex) items final).
  { destruct rem as [|l rem]; [now exists [], []|].
    destruct H as (_ & items & final & E & C). now exists items, final. }
  clear H. destruct C as (items & final & E & pre & tail & -> & Hp & Hws & Hprev).
  rewrite Hp.
  pose proof (next_token_layout (start lex) pre tail items final Hws Hprev)
    as Hnt. cbv zeta in Hnt.
  destruct items as [|[gap l] items']; cbn [map snd] in E; rewrite <- E.
  - destruct Hnt as (tok & -> & Hty). cbn [bind]. eexists.
    split; [reflexivity|]. split; [assumption|].
    cbn [lookahead str]. split; [assumption|].
    exists (pre ++ final), tail. cbn [layout].
    rewrite <- app_assoc. repeat split.
  - destruct Hnt as (tok & -> & Hshape & Hprev'). cbn [bind]. eexists.
    split; [reflexivity|]. split; [assumption|].
    cbn [lookahead str]. split; [assumption|].
    exists items', final. split; [reflexivity|].
    exists (pre ++ gap ++ spelling l), tail. cbn [layout].
    rewrite <- !app_assoc. split; [reflexivity|]. split; [reflexivity|].
    cbn [well_spaced] in Hws. apply andb_true_iff in Hws as [_ Hws].
    now split.
Qed.

Lemma alike_mono {A : Type} (buf1 buf2 : list ascii) (b b' : nat)
    (r1 r2 : outcome (A * Lexer * AST)) :
  b <= b' -> alike buf1 buf2 b r1 r2 -> alike buf1 buf2 b' r1 r2.
Proof.
  intros Hb. unfold alike.
  destruct r1 as [[[a1 l1] t1]| | |], r2 as [[[a2 l2] t2]| | |]; auto.
  intros (Ha & Hs & rem & Hr & H1 & H2).
  split; [assumption|]. split; [assumption|]. exists rem.
  split; [lia | now split].
Qed.

Lemma same_shape_length (buf1 buf2 : list ascii) (tree1 tree2 : AST) :
  same_shape buf1 buf2 tree1 tree2 -> length tree1 = length tree2.
Proof.
  unfold same_shape. intros H.
  now rewrite <- (length_map (node_shape buf1)), H, length_map.
Qed.

Lemma same_shape_add (buf1 buf2 : list ascii) (tree1 tree2 : AST)
    (n1 n2 : Node) :
  same_shape buf1 buf2 tree1 tree2 ->
  node_shape buf1 n1 = node_shape buf2 n2 ->
  same_shape buf1 buf2 (tree1 ++ [n1]) (tree2 ++ [n2]).
Proof.
  unfold same_shape. intros H Hn. rewrite !map_app, H. cbn [map].
  now rewrite Hn.
Qed.

Lemma Lexed_shape (buf1 buf2 : list ascii) (lex1 lex2 : Lexer) (l : lexeme)
    (rem : list lexeme) :
  Lexed buf1 lex1 (l :: rem) -> Lexed buf2 lex2 (l :: rem) ->
  token_shape buf1 (peek lex1) = token_shape buf2 (peek lex2).
Proof.
  intros (_ & H1 & _) (_ & H2 & _). unfold peek. congruence.
Qed.

(** ** Two parses of the same lexemes *)

Section Simulation.
Variables buf1 buf2 : list ascii.

Lemma leaf_alike (lex1 lex2 : Lexer) (tree1 tree2 : AST) (l : lexeme)
    (rem : list lexeme) (mk : Token -> Node) (smk : token_type * list ascii -> Shape)
    (k1 k2 : AST -> node_t -> Lexer -> outcome (list node_t * Lexer * AST))
    (bound : nat) :
  (forall buf t, node_shape buf (mk t) = smk (token_shape buf t)) ->
  Lexed buf1 lex1 (l :: rem) -> Lexed buf2 lex2 (l :: rem) ->
  same_shape buf1 buf2 tree1 tree2 ->
  (forall lex1' lex2' tree1' tree2' child,
     Lexed buf1 lex1' rem -> Lexed buf2 lex2' rem ->
     same_shape buf1 buf2 tree1' tree2' ->
     alike buf1 buf2 bound (k1 tree1' child lex1') (k2 tree2' child lex2')) ->
  alike buf1 buf2 bound
    ('(tok, lex') <- advance buf1 lex1 ;;
     let '(tree', child) := add tree1 (mk tok) in k1 tree' child lex')
    ('(tok, lex') <- advance buf2 lex2 ;;
     let '(tree', child) := add tree2 (mk tok) in k2 tree' child lex').
Proof.
  intros Hmk H1 H2 Hs Hk.
  pose proof (Lexed_shape _ _ _ _ _ _ H1 H2) as Hshape.
  destruct (advance_Lexed _ _ _ H1) as (lex1' & -> & H1').
  destruct (advance_Lexed _ _ _ H2) as (lex2' & -> & H2').
  cbn [bind tl] in *. rewrite !add_spec.
  rewrite (same_shape_length _ _ _ _ Hs).
  apply Hk; try assumption.
  apply same_shape_add; [assumption|]. now rewrite !Hmk, Hshape.
Qed.

Lemma expr_loop_sim rec1 rec2 (F1 F2 : nat) :
  calls_alike buf1 buf2 F1 F2 rec1 rec2 ->
  forall n1 n2 rem lex1 lex2 tree1 tree2 children,
    Lexed buf1 lex1 rem -> Lexed buf2 lex2 rem ->
    same_shape buf1 buf2 tree1 tree2 ->
    length rem < n1 -> length rem < n2 ->
    length rem < F1 -> length rem < F2 ->
    alike buf1 buf2 (length rem)
      (expr_loop rec1 n1 buf1 lex1 tree1 children)
      (expr_loop rec2 n2 buf2 lex2 tree2 children).
Proof.
  intros Hrec. induction n1 as [|n1 IH];
    intros n2 rem lex1 lex2 tree1 tree2 children H1 H2 Hs Hn1 Hn2 HF1 HF2;
    [lia|].
  destruct n2 as [|n2]; [lia|].
  rewrite !expr_loop_S. unfold tok_isnt, tok_is.
  rewrite (Lexed_type _ _ _ H1), (Lexed_type _ _ _ H2).
  assert (Hstop : alike buf1 buf2 (length rem)
                    (Done (children, lex1, tree1))
                    (Done (children, lex2, tree2))).
  { split; [reflexivity|]. split; [assumption|]. exists rem. now split. }
  destruct rem as [|l rem']; [exact Hstop|].
  cbn [length] in *.
  destruct l as [| |d body|c rest];
    cbn [lexeme_type token_type_eqb negb andb]; [|exact Hstop| |].
  - specialize (Hrec _ _ _ _ _ H1 H2 Hs HF1 HF2).
    destruct (rec1 lex1 tree1) as [[[h1 l1] t1]| | |],
             (rec2 lex2 tree2) as [[[h2 l2] t2]| | |];
      cbn [alike bind] in *; try contradiction; try assumption.
    destruct Hrec as (-> & Hs' & rem2 & Hlen & H1' & H2').
    cbn [length] in Hlen.
    apply alike_mono with (b := length rem2); [lia|].
    apply IH; try assumption; lia.
  - apply (leaf_alike lex1 lex2 tree1 tree2 (Quoted d body) rem'
             String SString
             (fun tree' child lex' =>
                expr_loop rec1 n1 buf1 lex' tree' (children ++ [child]))
             (fun tree' child lex' =>
                expr_loop rec2 n2 buf2 lex' tree' (children ++ [child])));
      try assumption; [reflexivity|].
    intros lex1' lex2' tree1' tree2' child H1' H2' Hs'.
    apply alike_mono with (b := length rem'); [lia|].
    apply IH; try assumption; lia.
  - apply (leaf_alike lex1 lex2 tree1 tree2 (Symbol c rest) rem'
             Identifer SIdentifer
             (fun tree' child lex' =>
                expr_loop rec1 n1 buf1 lex' tree' (children ++ [child]))
             (fun tree' child lex' =>
                expr_loop rec2 n2 buf2 lex' tree' (children ++ [child])));
      try assumption; [reflexivity|].
    intros lex1' lex2' tree1' tree2' child H1' H2' Hs'.
    apply alike_mono with (b := length rem'); [lia|].
    apply IH; try assumption; lia.
Qed.

Lemma error_alike {A : Type} (lex1 lex2 : Lexer) (rem : list lexeme)
    (msg : string) (bound : nat) :
  Lexed buf1 lex1 rem -> Lexed buf2 lex2 rem ->
  @alike A buf1 buf2 bound (error buf1 lex1 msg) (error buf2 lex2 msg).
Proof.
  intros H1 H2.
  destruct (@Lexed_error (A * Lexer * AST) _ _ _ msg H1) as [p1 ->].
  destruct (@Lexed_error (A * Lexer * AST) _ _ _ msg H2) as [p2 ->].
  reflexivity.
Qed.

(** The end of [expr], from the loop on, once the operator is read. *)
Lemma expr_sim_close (f1 f2 : nat) :
  (forall f2 rem lex1 lex2 tree1 tree2,
     Lexed buf1 lex1 rem -> Lexed buf2 lex2 rem ->
     same_shape buf1 buf2 tree1 tree2 ->
     length rem < f1 -> length rem < f2 ->
     alike buf1 buf2 (length rem - 1)
       (expr f1 buf1 lex1 tree1) (expr f2 buf2 lex2 tree2)) ->
  forall rem lex1 lex2 tree1 tree2 op1 op2 bound,
    Lexed buf1 lex1 rem -> Lexed buf2 lex2 rem ->
    same_shape buf1 buf2 tree1 tree2 ->
    token_shape buf1 op1 = token_shape buf2 op2 ->
    length rem < f1 -> length rem < f2 -> length rem <= bound ->
    alike buf1 buf2 bound
      ('(children, lex3, tree3) <-
          expr_loop (expr f1 buf1) f1 buf1 lex1 tree1 [] ;;
       '(t', lex4) <- advance buf1 lex3 ;;
       if tok_isnt t' TOKEN_RPAREN then error buf1 lex4 expected_rparen
       else
         let '(tree', h) := add tree3 (List op1 children) in
         Done (h, lex4, tree'))
      ('(children, lex3, tree3) <-
          expr_loop (expr f2 buf2) f2 buf2 lex2 tree2 [] ;;
       '(t', lex4) <- advance buf2 lex3 ;;
       if tok_isnt t' TOKEN_RPAREN then error buf2 lex4 expected_rparen
       else
         let '(tree', h) := add tree3 (List op2 children) in
         Done (h, lex4, tree')).
Proof.
  intros IH rem lex1 lex2 tree1 tree2 op1 op2 bound H1 H2 Hs Hop Hf1 Hf2 Hb.
  assert (Hloop : alike buf1 buf2 (length rem)
                    (expr_loop (expr f1 buf1) f1 buf1 lex1 tree1 [])
                    (expr_loop (expr f2 buf2) f2 buf2 lex2 tree2 [])).
  { apply (expr_loop_sim _ _ f1 f2); try assumption.
    intros rem0 l1 l2 t1 t2 Ha Hb' Hc Hd He. now apply IH. }
  destruct (expr_loop (expr f1 buf1) f1 buf1 lex1 tree1 [])
    as [[[ch1 lex1c] tree1c]| | |],
    (expr_loop (expr f2 buf2) f2 buf2 lex2 tree2 [])
    as [[[ch2 lex2c] tree2c]| | |];
    cbn [alike bind] in *; try contradiction; try assumption.
  destruct Hloop as (-> & Hs' & rem3 & Hlen & H1c & H2c).
  pose proof (Lexed_type _ _ _ H1c) as T1.
  pose proof (Lexed_type _ _ _ H2c) as T2.
  destruct (advance_Lexed _ _ _ H1c) as (lex1d & -> & H1d).
  destruct (advance_Lexed _ _ _ H2c) as (lex2d & -> & H2d).
  cbn [bind]. unfold tok_isnt, tok_is. rewrite T1, T2.
  destruct rem3 as [|l3 rem3]; [now apply error_alike with (rem := [])|].
  cbn [tl length] in *.
  destruct l3 as [| |d body|c rest];
    cbn [lexeme_type token_type_eqb negb];
    try (now apply error_alike with (rem := rem3)).
  rewrite !add_spec, (same_shape_length _ _ _ _ Hs').
  split; [reflexivity|]. split.
  - apply same_shape_add; [assumption|]. cbn [node_shape]. now rewrite Hop.
  - exists rem3. split; [lia | now split].
Qed.

Lemma expr_sim :
  forall f1 f2 rem lex1 lex2 tree1 tree2,
    Lexed buf1 lex1 rem -> Lexed buf2 lex2 rem ->
    same_shape buf1 buf2 tree1 tree2 ->
    length rem < f1 -> length rem < f2 ->
    alike buf1 buf2 (length rem - 1)
      (expr f1 buf1 lex1 tree1) (expr f2 buf2 lex2 tree2).
Proof.
  induction f1 as [|f1 IH];
    intros f2 rem lex1 lex2 tree1 tree2 H1 H2 Hs Hf1 Hf2; [lia|].
  destruct f2 as [|f2]; [lia|].
  rewrite !expr_S.
  pose proof (Lexed_type _ _ _ H1) as T1.
  pose proof (Lexed_type _ _ _ H2) as T2.
  destruct (advance_Lexed _ _ _ H1) as (lex1a & -> & H1a).
  destruct (advance_Lexed _ _ _ H2) as (lex2a & -> & H2a).
  cbn [bind]. unfold tok_isnt, tok_is. rewrite T1, T2.
  destruct rem as [|l rem]; [now apply error_alike with (rem := [])|].
  cbn [tl length] in *.
  destruct l as [| |d0 body0|c0 rest0];
    cbn [lexeme_type token_type_eqb negb];
    try (now apply error_alike with (rem := rem)).
  clear T1 T2.
  pose proof (Lexed_type _ _ _ H1a) as T1.
  pose proof (Lexed_type _ _ _ H2a) as T2.
  destruct (advance_Lexed _ _ _ H1a) as (lex1b & -> & H1b).
  destruct (advance_Lexed _ _ _ H2a) as (lex2b & -> & H2b).
  cbn [bind]. rewrite T1, T2.
  destruct rem as [|l2 rem]; [now apply error_alike with (rem := [])|].
  cbn [tl length] in *.
  pose proof (Lexed_shape _ _ _ _ _ _ H1a H2a) as Hop.
  destruct l2 as [| |d body|c rest];
    cbn [lexeme_type token_type_eqb negb andb];
    try (now apply error_alike with (rem := rem)).
  - rewrite !add_spec, (same_shape_length _ _ _ _ Hs).
    split; [reflexivity|]. split; [now apply same_shape_add|].
    exists rem. split; [lia | now split].
  - apply (expr_sim_close f1 f2 IH rem); try assumption; lia.
  - apply (expr_sim_close f1 f2 IH rem); try assumption; lia.
Qed.

Lemma parse_loop_sim :
  forall n1 n2 rem lex1 lex2 tree1 tree2 roots,
    Lexed buf1 lex1 rem -> Lexed buf2 lex2 rem ->
    same_shape buf1 buf2 tree1 tree2 ->
    S (length rem) < n1 -> S (length rem) < n2 ->
    alike buf1 buf2 (length rem)
      (parse_loop n1 buf1 lex1 tree1 roots)
      (parse_loop n2 buf2 lex2 tree2 roots).
Proof.
  induction n1 as [|n1 IH];
    intros n2 rem lex1 lex2 tree1 tree2 roots H1 H2 Hs Hn1 Hn2; [lia|].
  destruct n2 as [|n2]; [lia|].
  rewrite !parse_loop_S. unfold tok_isnt, tok_is.
  rewrite (Lexed_type _ _ _ H1), (Lexed_type _ _ _ H2).
  destruct rem as [|l rem].
  { split; [reflexivity|]. split; [assumption|]. exists []. now split. }
  assert (E : negb (token_type_eqb (lexeme_type l) TOKEN_EOF) = true)
    by now destruct l.
  rewrite E.
  pose proof (expr_sim n1 n2 (l :: rem) lex1 lex2 tree1 tree2 H1 H2 Hs)
    as Hcall.
  cbn [length] in *.
  specialize (Hcall ltac:(lia) ltac:(lia)).
  destruct (expr n1 buf1 lex1 tree1) as [[[h1 l1] t1]| | |],
           (expr n2 buf2 lex2 tree2) as [[[h2 l2] t2]| | |];
    cbn [alike bind] in *; try contradiction; try assumption.
  destruct Hcall as (-> & Hs' & rem2 & Hlen & H1' & H2').
  apply alike_mono with (b := length rem2); [lia|].
  apply IH; try assumption; lia.
Qed.

End Simulation.

Lemma Lexer_new_Lexed (tail : list ascii) items final :
  well_spaced items final = true -> starts_ok items = true ->
  exists lex,
    Lexer_new (layout tail items final) 0 = Done lex
    /\ Lexed (layout tail items final) lex (map snd items).
Proof.
  intros Hws Hst.
  assert (Hprev : prev_ok [] items).
  { destruct items as [|[[|g gap] [| |d body|c rest]] items'];
      cbn [prev_ok]; try exact I. discriminate. }
  pose proof (next_token_layout 0 [] tail items final Hws Hprev) as Hnt.
  cbv zeta in Hnt. cbn [app length] in Hnt.
  unfold Lexer_new, advance. cbn [start str].
  destruct items as [|[gap l] items'].
  - destruct Hnt as (tok & -> & Hty). cbn [bind]. eexists.
    split; [reflexivity|]. split; [reflexivity|]. cbn [map lookahead str].
    split; [assumption|]. exists final, tail. now repeat split.
  - destruct Hnt as (tok & -> & Hshape & Hprev'). cbn [bind]. eexists.
    split; [reflexivity|]. split; [reflexivity|].
    cbn [map snd lookahead str]. split; [assumption|].
    exists items', final. split; [reflexivity|].
    exists (gap ++ spelling l), tail. cbn [layout].
    rewrite <- app_assoc. split; [reflexivity|]. split; [reflexivity|].
    cbn [well_spaced] in Hws. apply andb_true_iff in Hws as [_ Hws].
    now split.
Qed.

Lemma layout_length (tail : list ascii) items final :
  length items < length (layout tail items final).
Proof.
  induction items as [|[gap l] items IH]; cbn [layout length].
  - rewrite length_app. simpl. lia.
  - rewrite !length_app. destruct l; cbn [spelling length]; lia.
Qed.

(** C5: two inputs that spell the same tokens, with whatever whitespace
    before, between and after them, parse alike: to the same roots and to
    arenas with the same nodes, of the same kinds, with the same children
    in the same order and tokens of the same kind and text; or else both
    are rejected, with the same message. *)
Theorem whitespace_between_tokens (tail1 tail2 : list ascii)
    (items1 items2 : list (list ascii * lexeme)) (final1 final2 : list ascii) :
  map snd items1 = map snd items2 ->
  well_spaced items1 final1 = true -> starts_ok items1 = true ->
  well_spaced items2 final2 = true -> starts_ok items2 = true ->
  let buf1 := layout tail1 items1 final1 in
  let buf2 := layout tail2 items2 final2 in
  same_parse buf1 buf2 (parse_buffer buf1) (parse_buffer buf2).
Proof.
  intros Hsame Hws1 Hst1 Hws2 Hst2 buf1 buf2.
  destruct (Lexer_new_Lexed tail1 items1 final1 Hws1 Hst1) as (lex1 & E1 & H1).
  destruct (Lexer_new_Lexed tail2 items2 final2 Hws2 Hst2) as (lex2 & E2 & H2).
  fold buf1 in E1, H1. fold buf2 in E2, H2. rewrite <- Hsame in H2.
  unfold parse_buffer, parse, parse_fuel. rewrite E1, E2. cbn [bind].
  pose proof (layout_length tail1 items1 final1) as L1.
  pose proof (layout_length tail2 items2 final2) as L2.
  fold buf1 in L1. fold buf2 in L2.
  assert (Hlen : length (map snd items1) = length items1)
    by apply length_map.
  assert (Hlen2 : length items2 = length items1)
    by (rewrite <- Hlen, Hsame; symmetry; apply length_map).
  pose proof (parse_loop_sim buf1 buf2 (S (S (length buf1)))
                (S (S (length buf2))) (map snd items1) lex1 lex2 [] [] []
                H1 H2 eq_refl) as Hsim.
  specialize (Hsim ltac:(lia) ltac:(lia)).
  destruct (parse_loop _ buf1 lex1 [] []) as [[[r1 l1] t1]| | |],
           (parse_loop _ buf2 lex2 [] []) as [[[r2 l2] t2]| | |];
    cbn [alike bind same_parse] in *; try contradiction; try assumption.
  destruct Hsim as (-> & Hs & _). now split.
Qed.

Lemma whitespace_between_tokens_witness :
  let lexemes := [LParen; Symbol "a" []; Symbol "b" []; RParen] in
  let items1 := combine [[]; []; [space]; []] lexemes in
  let items2 := combine [[]; []; [newline; tab]; []] lexemes in
  let buf1 := c_str (read_file (bytes "(a b)")) in
  let buf2 := c_str (read_file (bytes "(a" ++ [newline; tab] ++ bytes "b)")) in
  map snd items1 = map snd items2
  /\ well_spaced items1 [] = true /\ starts_ok items1 = true
  /\ well_spaced items2 [] = true /\ starts_ok items2 = true
  /\ layout [NUL] items1 [] = buf1
  /\ layout [NUL] items2 [] = buf2
  /\ parse_buffer buf1
     = Done ([1], [Identifer (mkToken (mkView 3 1) TOKEN_IDENTIFIER);
                   List (mkToken (mkView 1 1) TOKEN_IDENTIFIER) [0]])
  /\ parse_buffer buf2
     = Done ([1], [Identifer (mkToken (mkView 4 1) TOKEN_IDENTIFIER);
                   List (mkToken (mkView 1 1) TOKEN_IDENTIFIER) [0]])
  /\ same_parse buf1 buf2 (parse_buffer buf1) (parse_buffer buf2).
Proof.
  intros lexemes items1 items2 buf1 buf2.
  split; [reflexivity|]. split; [reflexivity|]. split; [reflexivity|].
  split; [reflexivity|]. split; [reflexivity|]. split; [reflexivity|].
  split; [reflexivity|]. split; [vm_compute; reflexivity|].
  split; [vm_compute; reflexivity|].
  exact (whitespace_between_tokens [NUL] [NUL] items1 items2 [] []
           eq_refl eq_refl eq_refl eq_refl eq_refl).
Defined.
(** * Further properties of the code *)

(** ** The tokenizer *)

(** Where [next_token] leaves the cursor, and where the token lies. *)
Lemma next_token_moves (buf : list ascii) (st p : nat) (tok : Token)
    (p' : nat) :
  next_token buf st p = Done (tok, p') ->
  type tok <> TOKEN_NONE
  /\ p <= p' <= length buf
  /\ (type tok = TOKEN_EOF ->
      nth_error buf p' = Some NUL /\ view tok = mkView p' 1)
  /\ (type tok <> TOKEN_EOF ->
      p < p' /\ p <= v_begin (view tok)
      /\ v_begin (view tok) + v_length (view tok) <= p').
Proof.
  unfold next_token. generalize 2 as depth. intros depth. revert p.
  induction depth as [|depth IH]; intros p H; [discriminate|].
  cbn [next_token_rec] in H.
  apply bind_Done in H as (c & Hc & H).
  apply read_Done in Hc.
  assert (Hp : p < length buf) by (apply nth_error_Some; congruence).
  destruct (Ascii.eqb c NUL) eqn:E0.
  { apply Ascii.eqb_eq in E0. subst c. inversion H; subst. cbn.
    repeat split; try lia; try congruence. }
  destruct (Ascii.eqb c lparen).
  { inversion H; subst. cbn. repeat split; try lia; congruence. }
  destruct (Ascii.eqb c rparen).
  { inversion H; subst. cbn. repeat split; try lia; congruence. }
  apply bind_Done in H as (is_string & _ & H).
  destruct is_string.
  { apply bind_Done in H as (q & Hq & H).
    apply do_while_Done in Hq as (Hlt & c' & Hc' & _).
    assert (q < length buf) by (apply nth_error_Some; congruence).
    inversion H; subst. cbn. repeat split; try lia; congruence. }
  destruct (is_whitespace c); cbn [negb] in H.
  - apply bind_Done in H as (q & Hq & H).
    apply do_while_Done in Hq as (Hlt & _).
    apply IH in H as (Hty & Hle & Heof & Hother).
    split; [assumption|]. split; [lia|]. split; [assumption|].
    intros Hne. specialize (Hother Hne). lia.
  - apply bind_Done in H as (q & Hq & H).
    apply do_while_Done in Hq as (Hlt & c' & Hc' & _).
    assert (q < length buf) by (apply nth_error_Some; congruence).
    inversion H; subst. cbn.
    destruct (Ascii.eqb c backslash); repeat split; try lia; congruence.
Qed.

(** Whatever the buffer and the cursor, a token that [next_token] returns
    has a kind; the cursor does not go back and does not leave the buffer;
    it has moved unless the token is the end of input, and then it stands
    on a terminator; the text of any other token lies among the bytes the
    call has passed. *)
Theorem next_token_progress (buf : list ascii) (st p : nat) (tok : Token)
    (p' : nat) :
  next_token buf st p = Done (tok, p') ->
  type tok <> TOKEN_NONE
  /\ p <= p' <= length buf
  /\ (type tok = TOKEN_EOF ->
      nth_error buf p' = Some NUL /\ view tok = mkView p' 1)
  /\ (type tok <> TOKEN_EOF ->
      p < p' /\ p <= v_begin (view tok)
      /\ v_begin (view tok) + v_length (view tok) <= p').
Proof. exact (next_token_moves buf st p tok p'). Qed.

Lemma next_token_progress_witness :
  let buf := bytes "  (mul 2 3)" ++ [NUL] in
  next_token buf 0 3 = Done (mkToken (mkView 3 3) TOKEN_IDENTIFIER, 6)
  /\ TOKEN_IDENTIFIER <> TOKEN_NONE
  /\ 3 <= 6 <= length buf
  /\ (TOKEN_IDENTIFIER = TOKEN_EOF ->
      nth_error buf 6 = Some NUL /\ mkView 3 3 = mkView 6 1)
  /\ (TOKEN_IDENTIFIER <> TOKEN_EOF -> 3 < 6 /\ 3 <= 3 /\ 3 + 3 <= 6).
Proof.
  intros buf.
  assert (H : next_token buf 0 3
              = Done (mkToken (mkView 3 3) TOKEN_IDENTIFIER, 6))
    by reflexivity.
  split; [exact H|].
  exact (next_token_progress buf 0 3 _ 6 H).
Defined.

Lemma bind_Fatal {A B : Type} (m : outcome A) (k : A -> outcome B)
    (pos : Position) (msg : string) :
  bind m k = Fatal pos msg ->
  m = Fatal pos msg \/ exists a, m = Done a /\ k a = Fatal pos msg.
Proof.
  destruct m; cbn [bind]; intros H; try discriminate; eauto.
  inversion H. now left.
Qed.

Lemma read_not_Fatal (buf : list ascii) (p : nat) pos msg :
  read buf p <> Fatal pos msg.
Proof. unfold read. destruct (nth_error buf p); discriminate. Qed.

Lemma do_while_not_Fatal (cond : ascii -> bool) (buf : list ascii) (p : nat)
    pos msg :
  do_while cond buf p <> Fatal pos msg.
Proof.
  unfold do_while.
  destruct (scan_while_cases cond (skipn (S p) buf) (S p)) as [[p' H] | H];
    rewrite H; discriminate.
Qed.

(** What [next_token] can end with. *)
Lemma next_token_cases (buf : list ascii) (st p : nat) :
  next_token buf st p = OutOfBounds
  \/ exists tok p', next_token buf st p = Done (tok, p').
Proof.
  destruct (next_token buf st p) as [[tok p']|pos msg| |] eqn:H.
  - right. eauto.
  - exfalso. revert p H. unfold next_token. generalize 2 as depth.
    induction depth as [|depth IH]; intros p H; [discriminate|].
    cbn [next_token_rec] in H.
    apply bind_Fatal in H as [H | (c & _ & H)];
      [now apply read_not_Fatal in H|].
    destruct (Ascii.eqb c NUL); [discriminate|].
    destruct (Ascii.eqb c lparen); [discriminate|].
    destruct (Ascii.eqb c rparen); [discriminate|].
    apply bind_Fatal in H as [H | (is_string & _ & H)].
    { destruct (Ascii.eqb c dquote || Ascii.eqb c squote); [|discriminate].
      apply bind_Fatal in H as [H | (b & _ & H)]; [|discriminate].
      destruct p; [discriminate | now apply read_not_Fatal in H]. }
    destruct is_string.
    { apply bind_Fatal in H as [H | (q & _ & H)]; [|discriminate].
      now apply do_while_not_Fatal in H. }
    destruct (is_whitespace c); cbn [negb] in H.
    + apply bind_Fatal in H as [H | (q & _ & H)].
      * now apply do_while_not_Fatal in H.
      * now apply IH in H.
    + apply bind_Fatal in H as [H | (q & _ & H)]; [|discriminate].
      now apply do_while_not_Fatal in H.
  - now left.
  - exfalso. revert H. apply next_token_never_out_of_fuel.
Qed.

(** The tokenizer never reports an error: every byte is the terminator, a
    parenthesis, a quote, whitespace or the start of an identifier, so the
    [unexpected character] diagnostic is out of reach.  A call returns a
    token, or it reads outside the buffer. *)
Theorem next_token_never_fatal (buf : list ascii) (st p : nat) :
  next_token buf st p = OutOfBounds
  \/ exists tok p', next_token buf st p = Done (tok, p').
Proof. exact (next_token_cases buf st p). Qed.

(** The end of input is final: once [advance] has read it into the
    lookahead, a further [advance] hands it out and leaves the lexer as it
    is. *)
Theorem advance_at_end_of_input (buf : list ascii) (lex lex1 : Lexer)
    (t : Token) :
  advance buf lex = Done (t, lex1) ->
  type (peek lex1) = TOKEN_EOF ->
  advance buf lex1 = Done (peek lex1, lex1).
Proof.
  intros H Heof. apply advance_inv in H as (_ & p' & Hnt & Hp').
  apply next_token_moves in Hnt as (_ & _ & Hend & _).
  destruct (Hend Heof) as [Hnul Hview].
  destruct lex1 as [st1 str1 [v1 ty1]]. cbn [peek lookahead str type view] in *.
  subst. unfold advance, next_token.
  cbn [start str peek lookahead next_token_rec]. unfold read. rewrite Hnul.
  cbn [bind]. reflexivity.
Qed.

Lemma advance_at_end_of_input_witness :
  let buf := bytes "(a) " ++ [NUL] in
  let lex := mkLexer 0 3 (mkToken (mkView 2 1) TOKEN_RPAREN) in
  let lex1 := mkLexer 0 4 (mkToken (mkView 4 1) TOKEN_EOF) in
  advance buf lex = Done (mkToken (mkView 2 1) TOKEN_RPAREN, lex1)
  /\ type (peek lex1) = TOKEN_EOF
  /\ advance buf lex1 = Done (peek lex1, lex1).
Proof.
  intros buf lex lex1.
  assert (H : advance buf lex
              = Done (mkToken (mkView 2 1) TOKEN_RPAREN, lex1))
    by reflexivity.
  split; [exact H|]. split; [reflexivity|].
  exact (advance_at_end_of_input buf lex lex1 _ H eq_refl).
Defined.

(** An identifier runs from a byte that starts nothing else up to the next
    whitespace or parenthesis, quotes and terminators included; its text
    is all of it, without the first byte when that is a backslash, which
    the cursor passes all the same. *)
Theorem identifier_token (pre rest post : list ascii) (c stop : ascii)
    (st : nat) :
  ident_start c = true ->
  forallb ident_char rest = true ->
  ident_char stop = false ->
  let buf := pre ++ c :: rest ++ stop :: post in
  exists tok,
    next_token buf st (length pre) = Done (tok, length (pre ++ c :: rest))
    /\ type tok = TOKEN_IDENTIFIER
    /\ token_text buf tok
       = (if Ascii.eqb c backslash then rest else c :: rest).
Proof.
  intros Hc Hrest Hstop buf. subst buf. unfold next_token.
  rewrite (next_token_identifier pre post st 1 c stop rest) by assumption.
  eexists. split.
  { f_equal. f_equal. rewrite length_app. cbn [length]. lia. }
  split; [reflexivity|].
  - unfold token_text, view_text. cbn [view v_begin v_length].
    destruct (Ascii.eqb c backslash).
    + replace (S (length pre) + length rest - S (length pre))
        with (length rest) by lia.
      rewrite skipn_S_app, firstn_app, Nat.sub_diag, firstn_all.
      cbn [firstn]. apply app_nil_r.
    + replace (S (length pre) + length rest - length pre)
        with (length (c :: rest)) by (cbn [length]; lia).
      rewrite skipn_app_length.
      change (c :: rest ++ stop :: post) with ((c :: rest) ++ stop :: post).
      rewrite firstn_app, Nat.sub_diag, firstn_all.
      cbn [firstn]. apply app_nil_r.
Qed.

Lemma identifier_token_witness :
  let buf := bytes "(" ++ backslash :: (dquote :: bytes "x") ++ space :: bytes "y)" in
  ident_start backslash = true
  /\ forallb ident_char (dquote :: bytes "x") = true
  /\ ident_char space = false
  /\ exists tok,
       next_token buf 0 1 = Done (tok, 4)
       /\ type tok = TOKEN_IDENTIFIER
       /\ token_text buf tok = dquote :: bytes "x".
Proof.
  intros buf.
  split; [reflexivity|]. split; [reflexivity|]. split; [reflexivity|].
  exact (identifier_token (bytes "(") (dquote :: bytes "x") (bytes "y)")
           backslash space 0 eq_refl eq_refl eq_refl).
Defined.

(** A quote that stands right after a backslash opens no string literal:
    with the cursor on it, the tokenizer reads an identifier that begins
    with the quote. *)
Theorem escaped_quote_is_identifier (pre rest post : list ascii)
    (q stop : ascii) (st : nat) :
  is_quote q ->
  forallb ident_char rest = true ->
  ident_char stop = false ->
  let buf := (pre ++ [backslash]) ++ q :: rest ++ stop :: post in
  let cursor := length (pre ++ [backslash]) in
  exists tok,
    next_token buf st cursor = Done (tok, cursor + 1 + length rest)
    /\ type tok = TOKEN_IDENTIFIER
    /\ token_text buf tok = q :: rest.
Proof.
  intros Hq Hrest Hstop buf cursor. subst buf cursor.
  assert (Hc : Ascii.eqb q NUL = false /\ Ascii.eqb q lparen = false
               /\ Ascii.eqb q rparen = false
               /\ (Ascii.eqb q dquote || Ascii.eqb q squote) = true
               /\ is_whitespace q = false /\ Ascii.eqb q backslash = false)
    by (destruct Hq; subst; repeat split; reflexivity).
  destruct Hc as (H0 & H1 & H2 & H3 & H4 & H5).
  unfold next_token. cbn [next_token_rec]. rewrite read_app. cbn [bind].
  rewrite H0, H1, H2, H3.
  replace (length (pre ++ [backslash])) with (S (length pre))
    by (rewrite length_app; simpl; lia).
  rewrite <- app_assoc. cbn [app]. rewrite read_before_app.
  cbn [bind]. rewrite Ascii.eqb_refl. cbn [negb]. rewrite H4, H5.
  cbn [negb].
  replace (pre ++ backslash :: q :: rest ++ stop :: post)
    with ((pre ++ [backslash]) ++ q :: rest ++ stop :: post)
    by (now rewrite <- app_assoc).
  replace (S (length pre)) with (length (pre ++ [backslash]))
    by (rewrite length_app; simpl; lia).
  rewrite do_while_stop by assumption. cbn [bind].
  eexists. split.
  { f_equal. f_equal. lia. }
  split; [reflexivity|].
  unfold token_text, view_text. cbn [view v_begin v_length].
  replace (S (length (pre ++ [backslash])) + length rest
           - length (pre ++ [backslash]))
    with (length (q :: rest)) by (cbn [length]; lia).
  rewrite skipn_app_length.
  change (q :: rest ++ stop :: post) with ((q :: rest) ++ stop :: post).
  rewrite firstn_app, Nat.sub_diag, firstn_all.
  cbn [firstn]. apply app_nil_r.
Qed.

Lemma escaped_quote_is_identifier_witness :
  let buf := (bytes "a" ++ [backslash]) ++ dquote :: bytes "b" ++ space :: [NUL] in
  is_quote dquote
  /\ forallb ident_char (bytes "b") = true
  /\ ident_char space = false
  /\ exists tok,
       next_token buf 0 2 = Done (tok, 4)
       /\ type tok = TOKEN_IDENTIFIER
       /\ token_text buf tok = dquote :: bytes "b".
Proof.
  intros buf.
  assert (Hq : is_quote dquote) by now left.
  split; [exact Hq|]. split; [reflexivity|]. split; [reflexivity|].
  exact (escaped_quote_is_identifier (bytes "a") (bytes "b") [NUL]
           dquote space 0 Hq eq_refl eq_refl).
Defined.

(** ** Where the tokenizer leaves the buffer *)

Lemma scan_while_runs_off (cond : ascii -> bool) (l : list ascii) (p : nat) :
  forallb cond l = true -> scan_while cond l p = OutOfBounds.
Proof.
  revert p. induction l as [|c l IH]; intros p H; [reflexivity|].
  cbn [forallb] in H. apply andb_true_iff in H as [Hc Hl].
  cbn [scan_while]. rewrite Hc. now apply IH.
Qed.

(** The scan of an identifier stops at whitespace or a parenthesis and at
    nothing else, the terminator included: an identifier with none of these
    after it in the buffer is scanned past the end of the buffer. *)
Theorem identifier_runs_off_the_buffer (pre rest : list ascii) (c : ascii)
    (st : nat) :
  ident_start c = true ->
  forallb ident_char rest = true ->
  next_token (pre ++ c :: rest) st (length pre) = OutOfBounds.
Proof.
  intros Hc Hrest.
  apply ident_start_class in Hc as (H0 & H1 & H2 & H3 & H4).
  unfold next_token. cbn [next_token_rec]. rewrite read_app. cbn [bind].
  rewrite H0, H1, H2, H3. cbn [bind]. rewrite H4. cbn [negb].
  unfold do_while. rewrite skipn_S_app.
  fold ident_char. unfold ident_char in Hrest.
  now rewrite scan_while_runs_off.
Qed.

Lemma identifier_runs_off_the_buffer_witness :
  ident_start "a" = true
  /\ forallb ident_char [NUL; NUL] = true
  /\ next_token (bytes "()" ++ "a"%char :: [NUL; NUL]) 0 2 = OutOfBounds.
Proof.
  split; [reflexivity|]. split; [reflexivity|].
  exact (identifier_runs_off_the_buffer (bytes "()") [NUL; NUL] "a" 0
           eq_refl eq_refl).
Defined.

(** A quote as the first byte of the file: the test for a backslash
    before it reads the byte in front of the buffer, in the constructor of
    the lexer already. *)
Theorem quote_at_start_of_file (q : ascii) (content : list ascii) :
  is_quote q -> seed_main (q :: content) = OutOfBounds.
Proof.
  intros Hq. unfold seed_main, parse_buffer, Lexer_new, advance, next_token.
  cbn [start str]. cbn [next_token_rec].
  unfold read_file, c_str. cbn [app read nth_error bind].
  destruct Hq as [-> | ->]; reflexivity.
Qed.

Lemma quote_at_start_of_file_witness :
  is_quote dquote /\ seed_main (dquote :: bytes "a" ++ [dquote]) = OutOfBounds.
Proof.
  split; [now left|].
  exact (quote_at_start_of_file dquote (bytes "a" ++ [dquote])
           (or_introl eq_refl)).
Defined.

(** Whitespace before a token is skipped: the tokenizer gives what it
    gives at the first byte after the run. *)
Theorem whitespace_is_skipped (pre gap post : list ascii) (c : ascii)
    (st : nat) :
  forallb is_whitespace gap = true ->
  is_whitespace c = false ->
  let buf := pre ++ gap ++ c :: post in
  next_token buf st (length pre) = next_token buf st (length pre + length gap).
Proof.
  intros Hgap Hc buf. subst buf.
  rewrite next_token_gap by assumption.
  rewrite length_app. unfold next_token.
  apply next_token_rec_depth with (c := c); [|assumption].
  rewrite <- length_app, app_assoc. apply read_app.
Qed.

Lemma whitespace_is_skipped_witness :
  let buf := bytes "(" ++ [space; newline; tab] ++ "a"%char :: bytes ")" in
  forallb is_whitespace [space; newline; tab] = true
  /\ is_whitespace "a" = false
  /\ next_token buf 0 1 = next_token buf 0 (1 + 3).
Proof.
  split; [reflexivity|]. split; [reflexivity|].
  exact (whitespace_is_skipped (bytes "(") [space; newline; tab] (bytes ")")
           "a" 0 eq_refl eq_refl).
Defined.

(** ** The position tracker *)






(** ** Reading back what was written *)

(** Induction over an expression and the arguments inside it. *)
Lemma sexp_rect_args (P : sexp -> Prop) :
  (forall a, P (Atom a)) -> P Nil ->
  (forall op args, Forall P args -> P (Form op args)) ->
  forall s, P s.
Proof.
  intros HA HN HF.
  fix IH 1. intros [a | | op args].
  - apply HA.
  - apply HN.
  - apply HF. induction args as [|x args IHargs]; constructor.
    + apply IH.
    + apply IHargs.
Qed.

Section ReadBack.
Variable buf : list ascii.

Lemma test_types (lex : Lexer) (l : lexeme) (rem : list lexeme) :
  Lexed buf lex (l :: rem) ->
  tok_is (peek lex) TOKEN_LPAREN = token_type_eqb (lexeme_type l) TOKEN_LPAREN
  /\ tok_is (peek lex) TOKEN_RPAREN = token_type_eqb (lexeme_type l) TOKEN_RPAREN
  /\ tok_is (peek lex) TOKEN_EOF = false
  /\ tok_is (peek lex) TOKEN_IDENTIFIER
     = token_type_eqb (lexeme_type l) TOKEN_IDENTIFIER
  /\ tok_is (peek lex) TOKEN_STRING
     = token_type_eqb (lexeme_type l) TOKEN_STRING.
Proof.
  intros H. apply Lexed_type in H. unfold tok_is. rewrite H.
  repeat split. now destruct l.
Qed.

(** The shape of the node an atom is stored as. *)
Lemma atom_node_shape (lex : Lexer) (a : lexeme) (rem : list lexeme) :
  Lexed buf lex (a :: rem) -> is_atom a = true ->
  node_shape buf (match a with
                   | Quoted _ _ => String (peek lex)
                   | _ => Identifer (peek lex)
                   end) = atom_shape a.
Proof.
  intros (_ & H & _) Ha. unfold peek.
  destruct a; try discriminate; cbn [node_shape atom_shape]; now rewrite H.
Qed.


Lemma lexemes_of_not_nil (s : sexp) : 0 < length (lexemes_of s).
Proof. destruct s; cbn; lia. Qed.

Lemma args_length (args : list sexp) :
  length args <= length (flat_map lexemes_of args).
Proof.
  induction args as [|x args IH]; cbn [flat_map length]; [lia|].
  rewrite length_app. pose proof (lexemes_of_not_nil x). lia.
Qed.

Lemma shape_length (tree tree' : AST) (nodes : list Shape) :
  map (node_shape buf) tree' = map (node_shape buf) tree ++ nodes ->
  length tree' = length tree + length nodes.
Proof.
  intros H. apply (f_equal (@length _)) in H.
  now rewrite length_app, !length_map in H.
Qed.

Lemma atom_loop_reads (F : nat) (a : lexeme) :
  is_atom a = true -> loop_reads buf F (Atom a).
Proof.
  intros Ha n lex tree children rem HL _. cbn [lexemes_of app] in HL.
  destruct (test_types lex a rem HL) as (T1 & T2 & T3 & T4 & T5).
  pose proof (atom_node_shape lex a rem HL Ha) as Hnode.
  destruct (advance_Lexed _ _ _ HL) as (lex' & Hadv & HL').
  cbn [tl] in HL'.
  rewrite expr_loop_S. unfold tok_isnt. rewrite T1, T2, T3, T4, T5, Hadv.
  cbn [bind]. rewrite !add_spec.
  replace (length tree + length (nodes_of (length tree) (Atom a)) - 1)
    with (length tree) by (cbn [nodes_of length]; lia).
  destruct a as [| |d body|c rest]; try discriminate;
    cbn [lexeme_type token_type_eqb negb andb nodes_of].
  - exists lex', (tree ++ [String (peek lex)]).
    split; [exact HL'|]. split; [|reflexivity].
    rewrite map_app. cbn [map]. now rewrite Hnode.
  - exists lex', (tree ++ [Identifer (peek lex)]).
    split; [exact HL'|]. split; [|reflexivity].
    rewrite map_app. cbn [map]. now rewrite Hnode.
Qed.

Lemma form_loop_reads (F : nat) (s : sexp) :
  is_form s = true -> expr_reads buf F s -> loop_reads buf F s.
Proof.
  intros Hs Hexpr n lex tree children rem HL HF.
  destruct (Hexpr lex tree rem HL HF) as (lex' & tree' & Hcall & HL' & Hsh).
  assert (Hhd : exists rest, lexemes_of s ++ rem = LParen :: rest)
    by (destruct s; try discriminate; cbn; eauto).
  destruct Hhd as [rest Hhd]. rewrite Hhd in HL.
  destruct (test_types lex LParen rest HL) as (T1 & T2 & T3 & _).
  rewrite expr_loop_S. unfold tok_isnt. rewrite T1, T2, T3, Hcall.
  cbn [lexeme_type token_type_eqb negb andb bind].
  now exists lex', tree'.
Qed.

(** The loop of [expr] reads the arguments of a form one after the
    other, a turn for each. *)
Lemma loop_steps (F : nat) (args : list sexp) :
  Forall (loop_reads buf F) args ->
  forall n lex tree children rem,
    Lexed buf lex (flat_map lexemes_of args ++ rem) ->
    length (flat_map lexemes_of args ++ rem) < F ->
    length args <= n ->
    exists lex' tree',
      Lexed buf lex' rem
      /\ map (node_shape buf) tree'
         = map (node_shape buf) tree
           ++ fst (arena_of_list nodes_of (length tree) args)
      /\ expr_loop (expr F buf) n buf lex tree children
         = expr_loop (expr F buf) (n - length args) buf lex' tree'
             (children ++ snd (arena_of_list nodes_of (length tree) args)).
Proof.
  induction 1 as [|x args Hx _ IH]; intros n lex tree children rem HL HF Hn.
  - cbn [flat_map app arena_of_list fst snd length] in *.
    exists lex, tree. rewrite !app_nil_r, Nat.sub_0_r. now split.
  - cbn [length] in Hn. destruct n as [|n]; [lia|].
    cbn [flat_map] in HL, HF. rewrite <- app_assoc in HL, HF.
    destruct (Hx n lex tree children _ HL HF)
      as (lex1 & tree1 & HL1 & Hsh1 & Heq1).
    pose proof (shape_length _ _ _ Hsh1) as Hlen1.
    rewrite length_app in HF. rewrite Heq1.
    match goal with
    | |- context [expr_loop _ n buf lex1 tree1 ?c] =>
        destruct (IH n lex1 tree1 c rem HL1 ltac:(lia) ltac:(lia))
          as (lex' & tree' & HL' & Hsh' & Heq')
    end.
    exists lex', tree'. rewrite Heq'. cbn [arena_of_list fst snd length].
    rewrite Hlen1 in *. split; [assumption|]. split.
    + now rewrite Hsh', Hsh1, <- app_assoc.
    + now rewrite <- app_assoc.
Qed.

(** It stops before what ends them: the closing parenthesis or the end of
    input. *)
Lemma loop_reads_args (F : nat) (args : list sexp) :
  Forall (loop_reads buf F) args ->
  forall n lex tree children rem,
    match rem with [] => True | l :: _ => l = RParen end ->
    Lexed buf lex (flat_map lexemes_of args ++ rem) ->
    length (flat_map lexemes_of args ++ rem) < F ->
    length args < n ->
    exists lex' tree',
      expr_loop (expr F buf) n buf lex tree children
      = Done (children ++ snd (arena_of_list nodes_of (length tree) args),
              lex', tree')
      /\ Lexed buf lex' rem
      /\ map (node_shape buf) tree'
         = map (node_shape buf) tree
           ++ fst (arena_of_list nodes_of (length tree) args).
Proof.
  intros Hargs n lex tree children rem Hrem HL HF Hn.
  destruct (loop_steps F args Hargs n lex tree children rem HL HF ltac:(lia))
    as (lex' & tree' & HL' & Hsh' & Heq).
  exists lex', tree'. rewrite Heq. split; [|now split].
  destruct (n - length args) as [|k] eqn:Hk; [lia|].
  rewrite expr_loop_S. unfold tok_isnt, tok_is.
  rewrite (Lexed_type _ _ _ HL').
  destruct rem as [|l rem]; [reflexivity|]. now subst l.
Qed.

Lemma nil_expr_reads (f : nat) : expr_reads buf f Nil.
Proof.
  intros lex tree rem HL Hf. cbn [lexemes_of app length] in *.
  destruct f as [|f]; [lia|]. rewrite expr_S.
  destruct (test_types lex _ _ HL) as (T1 & _).
  destruct (advance_Lexed _ _ _ HL) as (lex1 & -> & HL1). cbn [tl bind] in *.
  destruct (test_types lex1 _ _ HL1) as (_ & T2 & _).
  destruct (advance_Lexed _ _ _ HL1) as (lex2 & -> & HL2). cbn [tl bind] in *.
  unfold tok_isnt. rewrite T1, T2.
  cbn [lexeme_type token_type_eqb negb]. rewrite add_spec.
  exists lex2, (tree ++ [Empty]). cbn [nodes_of length].
  split; [f_equal; f_equal; f_equal; lia|]. split; [assumption|].
  now rewrite map_app.
Qed.

Lemma form_expr_reads (f : nat) (op : lexeme) (args : list sexp) :
  is_atom op = true ->
  (forall F, Forall (loop_reads buf F) args) ->
  expr_reads buf f (Form op args).
Proof.
  intros Hop Hargs lex tree rem HL Hf. cbn [lexemes_of app] in HL, Hf.
  rewrite <- app_assoc in HL, Hf. cbn [app length] in HL, Hf.
  destruct f as [|f]; [lia|]. rewrite expr_S.
  destruct (test_types lex _ _ HL) as (T1 & _).
  destruct (advance_Lexed _ _ _ HL) as (lex1 & -> & HL1). cbn [tl bind] in *.
  destruct (test_types lex1 _ _ HL1) as (_ & T2 & _ & T4 & T5).
  pose proof (proj1 (proj2 HL1)) as Hopshape.
  destruct (advance_Lexed _ _ _ HL1) as (lex2 & -> & HL2). cbn [tl bind] in *.
  unfold tok_isnt. rewrite T1, T2, T4, T5.
  cbn [lexeme_type token_type_eqb negb].
  assert (E : token_type_eqb (lexeme_type op) TOKEN_RPAREN = false
              /\ negb (token_type_eqb (lexeme_type op) TOKEN_IDENTIFIER)
                 && negb (token_type_eqb (lexeme_type op) TOKEN_STRING) = false)
    by (destruct op; try discriminate; now split).
  destruct E as [-> ->].
  pose proof (args_length args) as Hal. rewrite length_app in Hf.
  cbn [length] in Hf.
  destruct (loop_reads_args f args (Hargs f) f lex2 tree [] (RParen :: rem)
              eq_refl HL2) as (lex3 & tree3 & -> & HL3 & Hsh3).
  { rewrite length_app. cbn [length]. lia. }
  { lia. }
  cbn [bind app].
  destruct (test_types lex3 _ _ HL3) as (_ & T3 & _).
  destruct (advance_Lexed _ _ _ HL3) as (lex4 & -> & HL4). cbn [tl bind] in *.
  rewrite T3. cbn [lexeme_type token_type_eqb negb]. rewrite add_spec.
  pose proof (shape_length _ _ _ Hsh3) as Hlen3.
  eexists lex4, _. cbn [nodes_of].
  split; [|split; [assumption|]].
  - f_equal. f_equal. f_equal. rewrite length_app. cbn [length]. lia.
  - rewrite map_app, Hsh3, <- app_assoc. cbn [map node_shape].
    unfold peek. now rewrite Hopshape.
Qed.

(** Both the loop and [expr] read every proper expression. *)
Lemma proper_reads (s : sexp) :
  proper s = true ->
  (forall F, loop_reads buf F s)
  /\ (is_form s = true -> forall f, expr_reads buf f s).
Proof.
  induction s as [a | | op args IH] using sexp_rect_args; cbn [proper];
    intros Hs.
  - split; [intros F; now apply atom_loop_reads | discriminate].
  - split; [intros F; apply form_loop_reads; [reflexivity|] | intros _ f];
      apply nil_expr_reads.
  - apply andb_true_iff in Hs as [Hop Hargs].
    assert (Hall : forall F, Forall (loop_reads buf F) args).
    { intros F. rewrite forallb_forall in Hargs.
      rewrite Forall_forall in IH. apply Forall_forall. intros x Hx.
      now apply (IH x Hx (Hargs x Hx)). }
    split; [intros F; apply form_loop_reads; [reflexivity|] | intros _ f];
      now apply form_expr_reads.
Qed.

(** The driver reads the forms of a source one after the other, a turn
    for each. *)
Lemma parse_loop_steps (forms : list sexp) :
  forallb (fun s => proper s && is_form s) forms = true ->
  forall n lex tree roots rem,
    Lexed buf lex (flat_map lexemes_of forms ++ rem) ->
    S (length (flat_map lexemes_of forms ++ rem)) < n ->
    exists lex' tree',
      Lexed buf lex' rem
      /\ map (node_shape buf) tree'
         = map (node_shape buf) tree
           ++ fst (arena_of_list nodes_of (length tree) forms)
      /\ parse_loop n buf lex tree roots
         = parse_loop (n - length forms) buf lex' tree'
             (roots ++ snd (arena_of_list nodes_of (length tree) forms))
      /\ S (length rem) < n - length forms.
Proof.
  induction forms as [|s forms IH]; intros Hforms n lex tree roots rem HL Hn.
  - cbn [flat_map app arena_of_list fst snd length] in *.
    exists lex, tree. rewrite !app_nil_r, Nat.sub_0_r.
    split; [assumption|]. split; [reflexivity|]. split; [reflexivity|].
    assumption.
  - destruct n as [|n]; [lia|]. rewrite parse_loop_S. unfold tok_isnt.
    cbn [forallb] in Hforms. apply andb_true_iff in Hforms as [Hs Hforms].
    apply andb_true_iff in Hs as [Hp Hf].
    cbn [flat_map] in HL, Hn. rewrite <- app_assoc in HL, Hn.
    assert (Hhd : exists rest,
               lexemes_of s ++ flat_map lexemes_of forms ++ rem
               = LParen :: rest)
      by (destruct s; try discriminate; cbn; eauto).
    destruct Hhd as [rest Hhd].
    pose proof HL as HL0. rewrite Hhd in HL0.
    destruct (test_types lex LParen rest HL0) as (_ & _ & T3 & _).
    rewrite T3. cbn [negb].
    destruct (proj2 (proper_reads s Hp) Hf n lex tree _ HL ltac:(lia))
      as (lex1 & tree1 & -> & HL1 & Hsh1).
    cbn [bind]. pose proof (shape_length _ _ _ Hsh1) as Hlen1.
    rewrite length_app in Hn. pose proof (lexemes_of_not_nil s).
    match goal with
    | |- context [parse_loop n buf lex1 tree1 ?r] =>
        destruct (IH Hforms n lex1 tree1 r rem HL1 ltac:(lia))
          as (lex' & tree' & HL' & Hsh' & Heq & Hfuel)
    end.
    exists lex', tree'. rewrite Heq. cbn [arena_of_list fst snd length].
    rewrite Hlen1 in *. split; [assumption|]. split; [|split].
    + now rewrite Hsh', Hsh1, <- app_assoc.
    + now rewrite <- app_assoc.
    + exact Hfuel.
Qed.

End ReadBack.

(** The parse of a source that is laid out from proper forms. *)
Lemma parse_buffer_reads (tail : list ascii)
    (items : list (list ascii * lexeme)) (final : list ascii)
    (forms : list sexp) :
  map snd items = flat_map lexemes_of forms ->
  forallb (fun s => proper s && is_form s) forms = true ->
  well_spaced items final = true ->
  let buf := layout tail items final in
  exists tree,
    parse_buffer buf = Done (snd (arena_of forms), tree)
    /\ map (node_shape buf) tree = fst (arena_of forms)
    /\ length (snd (arena_of forms)) = length forms.
Proof.
  intros Hitems Hforms Hws buf.
  assert (Hst : starts_ok items = true).
  { destruct items as [|[[|g gap] l] items']; try reflexivity.
    destruct forms as [|s forms]; [discriminate|].
    cbn [forallb] in Hforms. apply andb_true_iff in Hforms as [Hs _].
    apply andb_true_iff in Hs as [_ Hf].
    destruct s; try discriminate; cbn in Hitems; now inversion Hitems. }
  destruct (Lexer_new_Lexed tail items final Hws Hst) as (lex & E & HL).
  fold buf in E, HL. rewrite Hitems in HL.
  rewrite <- (app_nil_r (flat_map lexemes_of forms)) in HL.
  pose proof (layout_length tail items final) as Hlen. fold buf in Hlen.
  assert (Hn : length (flat_map lexemes_of forms) = length items)
    by (rewrite <- Hitems; apply length_map).
  destruct (parse_loop_steps buf forms Hforms (parse_fuel buf) lex [] [] []
              HL) as (lex' & tree' & HL' & Hsh & Heq & Hfuel).
  { rewrite app_nil_r. unfold parse_fuel. lia. }
  unfold parse_buffer, parse. rewrite E. cbn [bind]. rewrite Heq.
  destruct (parse_fuel buf - length forms) as [|k]; [cbn in Hfuel; lia|].
  rewrite parse_loop_S. unfold tok_isnt, tok_is.
  rewrite (Lexed_type _ _ _ HL'). cbn [token_type_eqb negb bind app].
  exists tree'. split; [reflexivity|]. split; [exact Hsh|].
  unfold arena_of. generalize 0 as base. clear.
  induction forms as [|s forms IH]; intros base; cbn [arena_of_list snd length].
  - reflexivity.
  - now rewrite IH.
Qed.

(** A source of proper forms, written with whatever whitespace, is read
    back: the roots and the arena are those of its forms, stored one
    after the other with the arguments of a form before the form itself;
    there is one root for each form. *)
Theorem parse_reads_back (tail : list ascii)
    (items : list (list ascii * lexeme)) (final : list ascii)
    (forms : list sexp) :
  map snd items = flat_map lexemes_of forms ->
  forallb (fun s => proper s && is_form s) forms = true ->
  well_spaced items final = true ->
  let buf := layout tail items final in
  exists tree,
    parse_buffer buf = Done (snd (arena_of forms), tree)
    /\ map (node_shape buf) tree = fst (arena_of forms)
    /\ length (snd (arena_of forms)) = length forms.
Proof. exact (parse_buffer_reads tail items final forms). Qed.

Lemma parse_reads_back_witness :
  let one := Atom (Symbol "1" []) in
  let two := Atom (Symbol "2" []) in
  let forms :=
    [Form (Symbol "m" (bytes "ul"))
       [Form (Symbol "a" (bytes "dd")) [one; two];
        Atom (Quoted dquote (bytes "x y"))];
     Nil] in
  let items :=
    [([], LParen); ([], Symbol "m" (bytes "ul"));
     ([space], LParen); ([], Symbol "a" (bytes "dd"));
     ([space], Symbol "1" []); ([space; space], Symbol "2" []); ([], RParen);
     ([newline], Quoted dquote (bytes "x y")); ([], RParen);
     ([newline], LParen); ([tab], RParen)] in
  map snd items = flat_map lexemes_of forms
  /\ forallb (fun s => proper s && is_form s) forms = true
  /\ well_spaced items [newline] = true
  /\ let buf := layout [NUL] items [newline] in
     exists tree,
       parse_buffer buf = Done (snd (arena_of forms), tree)
       /\ map (node_shape buf) tree = fst (arena_of forms)
       /\ length (snd (arena_of forms)) = length forms.
Proof.
  intros one two forms items.
  split; [reflexivity|]. split; [reflexivity|]. split; [reflexivity|].
  exact (parse_reads_back [NUL] items [newline] forms
           eq_refl eq_refl eq_refl).
Defined.

(** ** Sources that are rejected *)

Section Rejects.
Variable buf : list ascii.

Lemma proper_args_read (F : nat) (args : list sexp) :
  forallb proper args = true -> Forall (loop_reads buf F) args.
Proof.
  rewrite forallb_forall. intros H. apply Forall_forall. intros x Hx.
  now apply proper_reads, H.
Qed.

(** [expr] on a form that goes wrong. *)
Lemma expr_rejects (b : broken) :
  broken_ok b = true ->
  forall f lex tree,
    Lexed buf lex (lexemes_broken b) ->
    length (lexemes_broken b) < f ->
    exists pos, expr f buf lex tree = Fatal pos (complaint b).
Proof.
  induction b as [op args | rest | op args inner IH];
    cbn [broken_ok lexemes_broken complaint]; intros Hok f lex tree HL Hf;
    (destruct f as [|f]; [lia|]); rewrite expr_S;
    destruct (test_types buf lex _ _ HL) as (T1 & _);
    destruct (advance_Lexed _ _ _ HL) as (lex1 & -> & HL1);
    cbn [tl bind length] in *; unfold tok_isnt at 1; rewrite T1;
    cbn [lexeme_type token_type_eqb negb].
  - apply andb_true_iff in Hok as [Hop Hargs].
    destruct (test_types buf lex1 _ _ HL1) as (_ & T2 & _ & T4 & T5).
    destruct (advance_Lexed _ _ _ HL1) as (lex2 & -> & HL2).
    cbn [tl bind] in *. unfold tok_isnt. rewrite T2, T4, T5.
    assert (E : token_type_eqb (lexeme_type op) TOKEN_RPAREN = false
                /\ negb (token_type_eqb (lexeme_type op) TOKEN_IDENTIFIER)
                   && negb (token_type_eqb (lexeme_type op) TOKEN_STRING)
                   = false)
      by (destruct op; try discriminate; now split).
    destruct E as [-> ->].
    pose proof (args_length args) as Hal.
    rewrite <- (app_nil_r (flat_map lexemes_of args)) in HL2.
    destruct (loop_reads_args buf f args (proper_args_read f args Hargs)
                f lex2 tree [] [] I HL2) as (lex3 & tree3 & -> & HL3 & _).
    { rewrite app_nil_r. lia. }
    { lia. }
    cbn [bind].
    pose proof (Lexed_type _ _ _ HL3) as T3.
    destruct (advance_Lexed _ _ _ HL3) as (lex4 & -> & HL4).
    cbn [tl bind] in *. unfold tok_is. rewrite T3.
    cbn [token_type_eqb negb].
    apply (@Lexed_error (node_t * Lexer * AST) buf lex4 [] _ HL4).
  - pose proof (Lexed_type _ _ _ HL1) as T2.
    destruct (advance_Lexed _ _ _ HL1) as (lex2 & -> & HL2).
    cbn [bind]. unfold tok_isnt, tok_is. rewrite T2.
    destruct rest as [|[| | |] rest]; try discriminate;
      cbn [lexeme_type token_type_eqb negb andb];
      apply (@Lexed_error (node_t * Lexer * AST) buf lex2 _ _ HL2).
  - apply andb_true_iff in Hok as [Hok Hinner].
    apply andb_true_iff in Hok as [Hop Hargs].
    destruct (test_types buf lex1 _ _ HL1) as (_ & T2 & _ & T4 & T5).
    destruct (advance_Lexed _ _ _ HL1) as (lex2 & -> & HL2).
    cbn [tl bind] in *. unfold tok_isnt. rewrite T2, T4, T5.
    assert (E : token_type_eqb (lexeme_type op) TOKEN_RPAREN = false
                /\ negb (token_type_eqb (lexeme_type op) TOKEN_IDENTIFIER)
                   && negb (token_type_eqb (lexeme_type op) TOKEN_STRING)
                   = false)
      by (destruct op; try discriminate; now split).
    destruct E as [-> ->].
    pose proof (args_length args) as Hal. rewrite length_app in Hf.
    assert (Hb : exists rest, lexemes_broken inner = LParen :: rest)
      by (destruct inner; cbn; eauto).
    destruct Hb as [rest Hb].
    destruct (loop_steps buf f args (proper_args_read f args Hargs)
                f lex2 tree [] _ HL2) as (lex3 & tree3 & HL3 & _ & ->).
    { rewrite length_app. lia. }
    { lia. }
    assert (Hpos : 0 < length (lexemes_broken inner))
      by (rewrite Hb; cbn; lia).
    destruct (f - length args) as [|k] eqn:Hk; [lia|].
    rewrite expr_loop_S. pose proof HL3 as HL3'. rewrite Hb in HL3'.
    destruct (test_types buf lex3 _ _ HL3') as (T6 & T7 & T8 & _).
    unfold tok_isnt. rewrite T6, T7, T8.
    cbn [lexeme_type token_type_eqb negb andb].
    destruct (IH Hinner f lex3 tree3 HL3 ltac:(lia)) as [pos ->].
    cbn [bind]. eauto.
Qed.

End Rejects.

(** The parse of proper forms followed by one that goes wrong. *)
Lemma parse_buffer_broken (tail : list ascii)
    (items : list (list ascii * lexeme)) (final : list ascii)
    (forms : list sexp) (b : broken) :
  map snd items = flat_map lexemes_of forms ++ lexemes_broken b ->
  forallb (fun s => proper s && is_form s) forms = true ->
  broken_ok b = true ->
  well_spaced items final = true ->
  exists pos,
    parse_buffer (layout tail items final) = Fatal pos (complaint b).
Proof.
  intros Hitems Hforms Hb Hws.
  set (buf := layout tail items final).
  assert (Hhd : exists rest, lexemes_broken b = LParen :: rest)
    by (destruct b; cbn; eauto).
  destruct Hhd as [rest Hhd].
  assert (Hst : starts_ok items = true).
  { destruct items as [|[[|g gap] l] items']; try reflexivity.
    destruct forms as [|s forms].
    - cbn in Hitems. rewrite Hhd in Hitems. now inversion Hitems.
    - cbn [forallb] in Hforms. apply andb_true_iff in Hforms as [Hs _].
      apply andb_true_iff in Hs as [_ Hf].
      destruct s; try discriminate; cbn in Hitems; now inversion Hitems. }
  destruct (Lexer_new_Lexed tail items final Hws Hst) as (lex & E & HL).
  fold buf in E, HL. rewrite Hitems in HL.
  pose proof (layout_length tail items final) as Hlen. fold buf in Hlen.
  assert (Hn : length (flat_map lexemes_of forms ++ lexemes_broken b)
               = length items)
    by (rewrite <- Hitems; apply length_map).
  destruct (parse_loop_steps buf forms Hforms (parse_fuel buf) lex [] [] _
              HL) as (lex' & tree' & HL' & _ & Heq & Hfuel).
  { unfold parse_fuel. lia. }
  unfold parse_buffer, parse. rewrite E. cbn [bind]. rewrite Heq.
  destruct (parse_fuel buf - length forms) as [|k]; [lia|].
  rewrite parse_loop_S. pose proof HL' as HL0. rewrite Hhd in HL0.
  destruct (test_types buf lex' _ _ HL0) as (_ & _ & T3 & _).
  unfold tok_isnt. rewrite T3. cbn [negb].
  destruct (expr_rejects buf b Hb k lex' tree' HL' ltac:(lia)) as [pos ->].
  cbn [bind]. eauto.
Qed.

(** A source whose forms are proper up to one that goes wrong is rejected,
    with the message of what went wrong: [expected `)`] for a form left
    open at the end of input, [expected identifer or string] for a
    parenthesis followed by another or by the end of input. *)
Theorem parse_rejects_broken (tail : list ascii)
    (items : list (list ascii * lexeme)) (final : list ascii)
    (forms : list sexp) (b : broken) :
  map snd items = flat_map lexemes_of forms ++ lexemes_broken b ->
  forallb (fun s => proper s && is_form s) forms = true ->
  broken_ok b = true ->
  well_spaced items final = true ->
  exists pos,
    parse_buffer (layout tail items final) = Fatal pos (complaint b).
Proof. exact (parse_buffer_broken tail items final forms b). Qed.

(** The parse of proper forms followed by a token that opens no form. *)
Lemma parse_buffer_stray (tail : list ascii)
    (items : list (list ascii * lexeme)) (final : list ascii)
    (forms : list sexp) (l : lexeme) (rest : list lexeme) :
  map snd items = flat_map lexemes_of forms ++ l :: rest ->
  forallb (fun s => proper s && is_form s) forms = true ->
  l <> LParen ->
  well_spaced items final = true -> starts_ok items = true ->
  exists pos,
    parse_buffer (layout tail items final) = Fatal pos expected_lparen.
Proof.
  intros Hitems Hforms Hl Hws Hst.
  set (buf := layout tail items final).
  destruct (Lexer_new_Lexed tail items final Hws Hst) as (lex & E & HL).
  fold buf in E, HL. rewrite Hitems in HL.
  pose proof (layout_length tail items final) as Hlen. fold buf in Hlen.
  assert (Hn : length (flat_map lexemes_of forms ++ l :: rest)
               = length items)
    by (rewrite <- Hitems; apply length_map).
  destruct (parse_loop_steps buf forms Hforms (parse_fuel buf) lex [] [] _
              HL) as (lex' & tree' & HL' & _ & Heq & Hfuel).
  { unfold parse_fuel. lia. }
  unfold parse_buffer, parse. rewrite E. cbn [bind]. rewrite Heq.
  destruct (parse_fuel buf - length forms) as [|k]; [lia|].
  rewrite parse_loop_S.
  destruct (test_types buf lex' _ _ HL') as (T1 & _ & T3 & _).
  unfold tok_isnt at 1. rewrite T3. cbn [negb].
  cbn [length] in Hfuel. destruct k as [|k]; [lia|].
  rewrite expr_S.
  destruct (advance_Lexed _ _ _ HL') as (lex1 & -> & HL1).
  cbn [bind tl] in *. unfold tok_isnt. rewrite T1.
  assert (Ety : token_type_eqb (lexeme_type l) TOKEN_LPAREN = false)
    by (destruct l; try reflexivity; congruence).
  rewrite Ety. cbn [negb].
  destruct (@Lexed_error (node_t * Lexer * AST) buf lex1 rest expected_lparen
              HL1) as [pos ->].
  cbn [bind]. eauto.
Qed.

(** After forms that are proper, a token that is not an opening
    parenthesis, be it an atom or a closing parenthesis, is rejected with
    [expected `(`]. *)
Theorem parse_rejects_stray (tail : list ascii)
    (items : list (list ascii * lexeme)) (final : list ascii)
    (forms : list sexp) (l : lexeme) (rest : list lexeme) :
  map snd items = flat_map lexemes_of forms ++ l :: rest ->
  forallb (fun s => proper s && is_form s) forms = true ->
  l <> LParen ->
  well_spaced items final = true -> starts_ok items = true ->
  exists pos,
    parse_buffer (layout tail items final) = Fatal pos expected_lparen.
Proof. exact (parse_buffer_stray tail items final forms l rest). Qed.

Lemma parse_rejects_broken_witness :
  let forms := [Form (Symbol "a" []) []] in
  let b := Within (Symbol "b" []) [Atom (Symbol "c" [])]
             (Unclosed (Symbol "d" []) [Nil]) in
  let items :=
    [([], LParen); ([], Symbol "a" []); ([], RParen);
     ([newline], LParen); ([], Symbol "b" []); ([space], Symbol "c" []);
     ([space], LParen); ([], Symbol "d" []); ([], LParen); ([], RParen)] in
  map snd items = flat_map lexemes_of forms ++ lexemes_broken b
  /\ forallb (fun s => proper s && is_form s) forms = true
  /\ broken_ok b = true
  /\ well_spaced items [] = true
  /\ exists pos,
       parse_buffer (layout [NUL] items []) = Fatal pos (complaint b).
Proof.
  intros forms b items.
  split; [reflexivity|]. split; [reflexivity|]. split; [reflexivity|].
  split; [reflexivity|].
  exact (parse_rejects_broken [NUL] items [] forms b
           eq_refl eq_refl eq_refl eq_refl).
Defined.

Lemma parse_rejects_stray_witness :
  let forms := [Nil; Form (Symbol "a" []) [Atom (Symbol "b" [])]] in
  let items :=
    [([], LParen); ([], RParen);
     ([], LParen); ([], Symbol "a" []); ([space], Symbol "b" []); ([], RParen);
     ([], RParen)] in
  map snd items = flat_map lexemes_of forms ++ RParen :: []
  /\ forallb (fun s => proper s && is_form s) forms = true
  /\ RParen <> LParen
  /\ well_spaced items [] = true
  /\ starts_ok items = true
  /\ exists pos,
       parse_buffer (layout [NUL] items []) = Fatal pos expected_lparen.
Proof.
  intros forms items.
  split; [reflexivity|]. split; [reflexivity|]. split; [discriminate|].
  split; [reflexivity|]. split; [reflexivity|].
  exact (parse_rejects_stray [NUL] items [] forms RParen []
           eq_refl eq_refl
           (fun H : RParen = LParen =>
              eq_ind RParen
                (fun l => match l with RParen => True | _ => False end)
                I LParen H)
           eq_refl eq_refl).
Defined.

(** ** The graph that is drawn *)

Lemma edges_app (l1 l2 : list stmt) :
  edges (l1 ++ l2) = edges l1 ++ edges l2.
Proof.
  induction l1 as [|[| | |] l1 IH]; cbn [app edges]; now rewrite ?IH.
Qed.

Lemma ids_within_tl (c c' : nat) (l : list nat) :
  ids_within c l c' -> ids_within c (tl l) c'.
Proof.
  intros (H1 & H2 & H3). destruct l as [|x l]; [now repeat split|].
  cbn [tl]. split; [assumption|]. split.
  - now inversion H2.
  - now inversion H3.
Qed.

Lemma linked_weaken (parent : option nat) (out : list stmt) (P : nat -> Prop) :
  Forall (fun e => fst e < snd e
                   /\ (Some (fst e) = parent \/ In (fst e) (decl_ids out)))
    (edges out) ->
  (forall p, Some p = parent -> P p) ->
  (forall p, In p (decl_ids out) -> P p) ->
  Forall (fun e => fst e < snd e /\ P (fst e)) (edges out).
Proof.
  intros H HP HD. eapply Forall_impl; [|exact H].
  intros e (Hlt & [Hp | Hd]); split; auto.
Qed.

Section TraversalEdges.
Variables (step : nat -> nat -> Prop) (tree : AST).
Hypothesis step_grows : forall a b, step a b -> a <= b.

Lemma leaf_linked (indent : nat) (parent : option nat) (x : Token) (c : nat) :
  (forall p, parent = Some p -> p < c) ->
  linked parent (NodeDecl indent c x :: edge_from parent indent c).
Proof.
  intros Hp. destruct parent as [p|]; split; cbn [edge_from edges decl_ids map snd tl];
    try reflexivity; [|constructor].
  constructor; [|constructor]. cbn [fst snd]. split; [now apply Hp | now left].
Qed.

Lemma visit_linked (indent : nat) parent n c out c' :
  visit step tree indent parent n c out c' ->
  (forall p, parent = Some p -> p < c) ->
  linked parent out.
Proof.
  revert parent n c out c'.
  apply (visit_mut step tree indent
           (fun parent _ c out _ =>
              (forall p, parent = Some p -> p < c) -> linked parent out)
           (fun self _ c out _ => self < c -> linked (Some self) out)).
  - intros parent c _. destruct parent; split; constructor.
  - intros parent x c Hp. now apply leaf_linked.
  - intros parent x c Hp. now apply leaf_linked.
  - intros parent op children c out c' _ IH Hp.
    destruct (IH (Nat.lt_succ_diag_r c)) as [E F].
    assert (F' : Forall (fun e => fst e < snd e
                                  /\ In (fst e) (c :: decl_ids out))
                   (edges out)).
    { apply (linked_weaken (Some c) out (fun p => In p (c :: decl_ids out)) F).
      - intros p Hpc. inversion Hpc. now left.
      - intros p Hd. now right. }
    destruct parent as [p|]; split; cbn [edge_from app edges decl_ids map snd tl];
      rewrite ?decl_ids_app; cbn [decl_ids app].
    + now rewrite E.
    + constructor.
      * cbn. split; [now apply Hp | now left].
      * eapply Forall_impl; [|exact F']. intros e [? ?]. split; [assumption|].
        now right.
    + exact E.
    + eapply Forall_impl; [|exact F']. intros e [? ?]. split; [assumption|].
      now right.
  - intros self c _. split; constructor.
  - intros self child rest n c out1 c1 c1' out2 c2 _ Hv IH1 Hstep _ IH2 Hself.
    apply visit_ids_within in Hv as (Hc & _); [|exact step_grows].
    apply step_grows in Hstep.
    destruct IH1 as [E1 F1]; [intros p Hp; inversion Hp; now subst|].
    destruct IH2 as [E2 F2]; [lia|].
    split.
    + rewrite edges_app, decl_ids_app, map_app. now rewrite E1, E2.
    + rewrite edges_app, decl_ids_app. apply Forall_app. split.
      * eapply Forall_impl; [|exact F1].
        intros e (? & [? | ?]); split; auto. right. apply in_or_app. now left.
      * eapply Forall_impl; [|exact F2].
        intros e (? & [? | ?]); split; auto. right. apply in_or_app. now right.
Qed.

Lemma visit_drawn (indent : nat) parent n c out c' r :
  visit step tree indent parent n c out c' ->
  nth_error tree r = Some n ->
  length (decl_ids out)
  = length (tl (decl_ids out)) + (if drawn tree r then 1 else 0).
Proof.
  intros Hv Hr. unfold drawn. rewrite Hr.
  inversion Hv; subst; cbn [decl_ids tl length]; lia.
Qed.

Lemma clusters_linked (indent : nat) roots g c out c' :
  clusters step tree indent roots g c out c' ->
  ids_within c (map snd (edges out)) c'
  /\ Forall (fun e => fst e < snd e
                      /\ In (fst e) (decl_ids out) /\ In (snd e) (decl_ids out))
       (edges out)
  /\ length (decl_ids out)
     = length (edges out) + length (filter (drawn tree) roots).
Proof.
  induction 1 as [g c | root rest n g c body c1 c1' out c2 Hn Hv Hstep _ IH].
  - split; [now apply ids_within_nil|]. split; [constructor | reflexivity].
  - destruct IH as (Hids & Hall & Hlen).
    destruct (visit_linked _ _ _ _ _ _ Hv) as [E F]; [discriminate|].
    pose proof (visit_ids_within step tree step_grows _ _ _ _ _ _ Hv) as Hb.
    pose proof (visit_drawn _ _ _ _ _ _ root Hv Hn) as Hd.
    cbn [edges decl_ids]. rewrite edges_app, decl_ids_app.
    cbn [edges decl_ids]. split; [|split].
    + rewrite map_app.
      apply (ids_within_app c c1 c1' c2);
        [rewrite E; now apply ids_within_tl | now apply step_grows | exact Hids].
    + apply Forall_app. split.
      * assert (Hsnd : forall e, In e (edges body) -> In (snd e) (decl_ids body)).
        { intros e He. apply (in_map snd) in He. rewrite E in He.
          destruct (decl_ids body); [destruct He | now right]. }
        apply Forall_forall. intros e He.
        rewrite Forall_forall in F. destruct (F e He) as (Hlt & [Hp | Hp]);
          [discriminate|].
        split; [assumption|]. split; apply in_or_app; left; auto.
      * eapply Forall_impl; [|exact Hall].
        intros e (? & ? & ?). split; [assumption|].
        split; apply in_or_app; now right.
    + rewrite !length_app. cbn [filter].
      assert (El : length (edges body) = length (tl (decl_ids body)))
        by (rewrite <- E; now rewrite length_map).
      destruct (drawn tree root); cbn [length]; lia.
Qed.

End TraversalEdges.

(** What is drawn is a forest of its own: every edge goes from a node that
    is declared to a node that is declared and has a larger id, no node has
    two edges coming in, and there are as many edges as nodes but for one
    node in each cluster that is not empty. *)
Theorem rendered_graph_is_forest (roots : list node_t) (tree : AST)
    (title : list ascii) (indent : nat) :
  forest tree roots ->
  exists stmts,
    render_stmts roots tree title indent = Done stmts
    /\ (forall p c, In (p, c) (edges stmts) ->
        p < c /\ In p (decl_ids stmts) /\ In c (decl_ids stmts))
    /\ NoDup (map snd (edges stmts))
    /\ length (decl_ids stmts)
       = length (edges stmts) + length (filter (drawn tree) roots).
Proof.
  intros Hforest.
  destruct (render_stmts_clusters roots tree title indent Hforest)
    as (body & c' & Hrun & Hcl).
  apply clusters_bumps_grows in Hcl.
  apply clusters_linked in Hcl as (Hids & Hall & Hlen);
    [|now unfold grows].
  exists (Open indent title :: body ++ [Close indent]).
  split; [exact Hrun|].
  cbn [edges decl_ids]. rewrite edges_app, decl_ids_app.
  cbn [edges decl_ids]. rewrite !app_nil_r.
  split; [|split].
  - intros p c Hin. rewrite Forall_forall in Hall.
    exact (Hall (p, c) Hin).
  - apply StronglySorted_lt_NoDup. exact (proj1 (proj2 Hids)).
  - exact Hlen.
Qed.

Lemma rendered_graph_is_forest_witness :
  forest add_mul_x_tree [4]
  /\ exists stmts,
       render_stmts [4] add_mul_x_tree (bytes "digraph") 0 = Done stmts
       /\ (forall p c, In (p, c) (edges stmts) ->
           p < c /\ In p (decl_ids stmts) /\ In c (decl_ids stmts))
       /\ NoDup (map snd (edges stmts))
       /\ length (decl_ids stmts)
          = length (edges stmts) + length (filter (drawn add_mul_x_tree) [4]).
Proof.
  assert (H : forest add_mul_x_tree [4])
    by exact (parse_buffer_forest _ _ _ add_mul_x_parse).
  split; [exact H|].
  exact (rendered_graph_is_forest [4] add_mul_x_tree (bytes "digraph") 0 H).
Defined.

(** ** The text that is written *)

Lemma strcat_plain (args : list (list ascii)) (a b : ascii) (l : list ascii) :
  concat args = a :: b :: l -> strcat args = concat args.
Proof.
  intros E. unfold strcat. rewrite E. cbn [length skipn].
  now rewrite skipn_nil, app_nil_r.
Qed.

Lemma node_decl_text (buf : list ascii) (indent id : nat) (label : Token) :
  stmt_text buf (NodeDecl indent id label)
  = node_line indent id (token_text buf label).
Proof.
  unfold stmt_text, node_line. f_equal.
  destruct (to_string id) as [|d ds] eqn:E;
    erewrite strcat_plain; cbn [concat app bytes list_ascii_of_string];
    rewrite ?E; cbn [app]; rewrite ?app_nil_r; reflexivity.
Qed.

Lemma edge_decl_text (buf : list ascii) (indent parent child : nat) :
  stmt_text buf (EdgeDecl indent parent child) = edge_line indent parent child.
Proof.
  unfold stmt_text, edge_line. f_equal.
  destruct (to_string parent) as [|d ds] eqn:E;
    erewrite strcat_plain; cbn [concat app bytes list_ascii_of_string];
    rewrite ?E; cbn [app]; rewrite ?app_nil_r; reflexivity.
Qed.

(** The two bytes the stream of [strcat] starts over never show: a
    declaration and an edge are written as the plain concatenation of
    their parts. *)
Theorem declarations_are_plain (buf : list ascii) (indent id parent child : nat)
    (label : Token) :
  stmt_text buf (NodeDecl indent id label)
  = node_line indent id (token_text buf label)
  /\ stmt_text buf (EdgeDecl indent parent child)
     = edge_line indent parent child.
Proof. split; [apply node_decl_text | apply edge_decl_text]. Qed.

(** ** From the source to the text *)

Lemma layout_source (tail : list ascii) items final :
  layout tail items final = source_text items final ++ NUL :: tail.
Proof.
  induction items as [|[gap l] items IH]; cbn [layout source_text];
    [reflexivity|].
  now rewrite IH, <- !app_assoc.
Qed.

Lemma holds_app (buf : list ascii) (tree : AST) (base : nat)
    (a b : list Shape) :
  holds buf tree base (a ++ b) ->
  holds buf tree base a /\ holds buf tree (base + length a) b.
Proof.
  intros H. split; intros j sh Hj.
  - apply H. rewrite nth_error_app1; [assumption|].
    apply nth_error_Some. congruence.
  - rewrite <- Nat.add_assoc. apply H. rewrite nth_error_app2 by lia.
    now replace (length a + j - length a) with j by lia.
Qed.

Lemma holds_node (buf : list ascii) (tree : AST) (base : nat)
    (seg : list Shape) (j : nat) (sh : Shape) :
  holds buf tree base seg -> nth_error seg j = Some sh ->
  exists n, nth_error tree (base + j) = Some n /\ node_shape buf n = sh.
Proof.
  intros H Hj. apply H in Hj. rewrite nth_error_map in Hj.
  destruct (nth_error tree (base + j)); inversion Hj; eauto.
Qed.

Section Draws.
Variables (buf : list ascii) (tree : AST) (indent : nat).

Lemma edge_from_text (parent : option nat) (c : nat) :
  flat_map (stmt_text buf) (edge_from parent indent c)
  = edge_text parent indent c.
Proof.
  destruct parent as [p|]; cbn [edge_from flat_map edge_text];
    [|reflexivity].
  now rewrite edge_decl_text, app_nil_r.
Qed.

Lemma atom_draws (a : lexeme) : draws_as buf tree indent (Atom a).
Proof.
  intros base parent n c out c' Hh Hn Hv. cbn [nodes_of length] in *.
  destruct (holds_node _ _ _ _ 0 _ Hh eq_refl) as (n' & Hn' & Hsh).
  replace (base + 1 - 1) with (base + 0) in Hn by lia.
  rewrite Hn in Hn'. inversion Hn'; subst n'. clear Hn'.
  cbn [draw fst snd].
  destruct a; destruct n; cbn [atom_shape node_shape] in Hsh;
    try discriminate; inversion Hsh as [[Hty Htx]];
    inversion Hv; subst; cbn [flat_map];
    rewrite node_decl_text, edge_from_text; unfold token_text in *;
    now rewrite ?Htx.
Qed.

Lemma nil_draws : draws_as buf tree indent Nil.
Proof.
  intros base parent n c out c' Hh Hn Hv. cbn [nodes_of length] in *.
  destruct (holds_node _ _ _ _ 0 _ Hh eq_refl) as (n' & Hn' & Hsh).
  replace (base + 1 - 1) with (base + 0) in Hn by lia.
  rewrite Hn in Hn'. inversion Hn'; subst n'. clear Hn'.
  destruct n; try discriminate. inversion Hv; subst. now split.
Qed.

Lemma args_draw (args : list sexp) :
  Forall (draws_as buf tree indent) args ->
  forall base self c out c',
    holds buf tree base (fst (arena_of_list nodes_of base args)) ->
    visit_children bumps tree indent self
      (snd (arena_of_list nodes_of base args)) c out c' ->
    flat_map (stmt_text buf) out
    = fst (draw_list (draw indent) self args c)
    /\ c' = snd (draw_list (draw indent) self args c).
Proof.
  induction 1 as [|x args Hx _ IH]; intros base self c out c' Hh Hv;
    cbn [arena_of_list fst snd draw_list] in *.
  - inversion Hv; subst. now split.
  - inversion Hv as [|? child rest n ? out1 c1 c1' out2 c2 Hn Hv1 Hstep Hv2];
      subst.
    apply holds_app in Hh as [Hh1 Hh2].
    destruct (Hx base (Some self) n c out1 c1 Hh1 Hn Hv1) as [E1 ->].
    unfold bumps in Hstep. subst c1'.
    destruct (IH _ self _ out2 c' Hh2 Hv2) as [E2 ->].
    now rewrite flat_map_app, E1, E2.
Qed.

Lemma form_draws (op : lexeme) (args : list sexp) :
  Forall (draws_as buf tree indent) args ->
  draws_as buf tree indent (Form op args).
Proof.
  intros Hargs base parent n c out c' Hh Hn Hv.
  cbn [nodes_of draw] in *. cbv zeta in *.
  rewrite length_app in Hn. cbn [length] in Hn.
  replace (base + (length (fst (arena_of_list nodes_of base args)) + 1) - 1)
    with (base + length (fst (arena_of_list nodes_of base args)) + 0)
    in Hn by lia.
  apply holds_app in Hh as [Hh1 Hh2].
  destruct (holds_node _ _ _ _ 0 _ Hh2 eq_refl) as (n' & Hn' & Hsh).
  rewrite Hn in Hn'. inversion Hn'; subst n'. clear Hn'.
  destruct n as [t children| | |]; try discriminate.
  cbn [node_shape] in Hsh. inversion Hsh as [[Hty Htx Hch]].
  inversion Hv as [| | |? ? ? ? out0 ? Hvc]; subst.
  destruct (args_draw args Hargs base c (S c) out0 c' Hh1 Hvc) as [E ->].
  cbn [flat_map fst snd]. rewrite flat_map_app, node_decl_text, edge_from_text.
  unfold token_text in *. rewrite Htx, E. now split.
Qed.

Lemma sexp_draws (s : sexp) : draws_as buf tree indent s.
Proof.
  induction s as [a | | op args IH] using sexp_rect_args.
  - apply atom_draws.
  - apply nil_draws.
  - now apply form_draws.
Qed.

End Draws.

Lemma clusters_draw (buf : list ascii) (tree : AST) (forms : list sexp) :
  forall base g c out c',
    holds buf tree base (fst (arena_of_list nodes_of base forms)) ->
    clusters bumps tree 0 (snd (arena_of_list nodes_of base forms)) g c out c' ->
    flat_map (stmt_text buf) out = draw_clusters forms g c.
Proof.
  induction forms as [|s forms IH]; intros base g c out c' Hh Hcl;
    cbn [arena_of_list fst snd draw_clusters] in *.
  - inversion Hcl; subst. reflexivity.
  - inversion Hcl as [|root rest n ? ? body c1 c1' out' c2 Hn Hv Hstep Hcl'];
      subst.
    apply holds_app in Hh as [Hh1 Hh2].
    destruct (sexp_draws buf tree 2 s base None n c body c1 Hh1 Hn Hv)
      as [E1 ->].
    unfold bumps in Hstep. subst c1'.
    cbn [flat_map stmt_text]. rewrite flat_map_app. cbn [flat_map stmt_text].
    rewrite (IH _ _ _ _ _ Hh2 Hcl'), E1. cbv zeta.
    now rewrite <- !app_assoc.
Qed.

(** The program as a whole, on a file of proper forms written with
    whatever whitespace: what it writes is the drawing of the forms, one
    cluster for each, a node for every operator and atom and an edge to it
    from the operator of the form it is an argument of. *)
Theorem seed_main_draws (items : list (list ascii * lexeme))
    (final : list ascii) (forms : list sexp) :
  map snd items = flat_map lexemes_of forms ->
  forallb (fun s => proper s && is_form s) forms = true ->
  well_spaced items final = true ->
  seed_main (source_text items final) = Done (draw_graph forms).
Proof.
  intros Hitems Hforms Hws. unfold seed_main, read_file, c_str.
  rewrite <- app_assoc. cbn [app]. rewrite <- layout_source.
  destruct (parse_buffer_reads [NUL] items final forms Hitems Hforms Hws)
    as (tree & Hparse & Hsh & _).
  cbv zeta in *. rewrite Hparse. cbn [bind].
  pose proof (parse_buffer_forest _ _ _ Hparse) as Hforest.
  destruct (render_stmts_clusters _ tree (bytes "digraph") 0 Hforest)
    as (body & c' & Hrun & Hcl).
  unfold render. rewrite Hrun. cbn [bind]. f_equal.
  cbn [flat_map]. rewrite flat_map_app. cbn [flat_map].
  rewrite (clusters_draw _ tree forms 0 0 0 body c'); [|
    intros j sh Hj; cbn [Nat.add]; rewrite Hsh; exact Hj |
    exact Hcl].
  unfold draw_graph, stmt_text. cbn [tabs repeat app].
  now rewrite app_nil_r, <- !app_assoc.
Qed.

Lemma seed_main_draws_witness :
  let forms :=
    [Form (Symbol "a" (bytes "dd"))
       [Form (Symbol "m" (bytes "ul"))
          [Atom (Symbol "2" []); Atom (Symbol "3" [])];
        Atom (Quoted dquote (bytes "x"))]] in
  let items :=
    [([], LParen); ([], Symbol "a" (bytes "dd"));
     ([space], LParen); ([], Symbol "m" (bytes "ul"));
     ([space], Symbol "2" []); ([space], Symbol "3" []); ([], RParen);
     ([space], Quoted dquote (bytes "x")); ([], RParen)] in
  map snd items = flat_map lexemes_of forms
  /\ forallb (fun s => proper s && is_form s) forms = true
  /\ well_spaced items [] = true
  /\ source_text items [] = add_mul_x
  /\ seed_main (source_text items []) = Done (draw_graph forms).
Proof.
  intros forms items.
  split; [reflexivity|]. split; [reflexivity|]. split; [reflexivity|].
  split; [reflexivity|].
  exact (seed_main_draws items [] forms eq_refl eq_refl eq_refl).
Defined.

(** ** Arenas of the same shape are drawn the same *)

Section SameShape.
Variables (buf1 buf2 : list ascii) (tree1 tree2 : AST).
Hypothesis Hshape : same_shape buf1 buf2 tree1 tree2.

Lemma index_same (n : node_t) :
  match index tree1 n, index tree2 n with
  | Done v1, Done v2 => node_shape buf1 v1 = node_shape buf2 v2
  | OutOfBounds, OutOfBounds => True
  | _, _ => False
  end.
Proof.
  unfold index. pose proof (f_equal (fun l => nth_error l n) Hshape) as H.
  cbv beta in H. rewrite !nth_error_map in H.
  destruct (nth_error tree1 n), (nth_error tree2 n); cbn in H;
    try discriminate; [now inversion H | exact I].
Qed.

Lemma declare_same (str1 str2 : list stmt) (indent parent self : nat)
    (t1 t2 : Token) :
  token_shape buf1 t1 = token_shape buf2 t2 ->
  flat_map (stmt_text buf1) str1 = flat_map (stmt_text buf2) str2 ->
  flat_map (stmt_text buf1) (declare str1 indent parent self t1)
  = flat_map (stmt_text buf2) (declare str2 indent parent self t2).
Proof.
  intros Ht Hs. unfold token_shape in Ht. inversion Ht as [[Hty Htx]].
  unfold declare. destruct (negb (self =? parent));
    rewrite !flat_map_app; cbn [flat_map];
    rewrite !node_decl_text, ?edge_decl_text, Hs, Htx; reflexivity.
Qed.

Lemma render_children_same rec1 rec2 :
  calls_write_alike buf1 buf2 rec1 rec2 ->
  forall children str1 str2 self c,
    flat_map (stmt_text buf1) str1 = flat_map (stmt_text buf2) str2 ->
    same_lines buf1 buf2
      (render_children rec1 children tree1 str1 self c)
      (render_children rec2 children tree2 str2 self c).
Proof.
  intros Hrec. induction children as [|child rest IH];
    intros str1 str2 self c Hs; cbn [render_children].
  - cbn [same_lines]. now split.
  - pose proof (index_same child) as Hi.
    destruct (index tree1 child) as [v1| | |], (index tree2 child) as [v2| | |];
      try contradiction; cbn [bind same_lines]; [|exact I].
    pose proof (Hrec v1 v2 str1 str2 self c Hi Hs) as Hr.
    destruct (rec1 v1 str1 self c) as [[s1 c1]| | |],
             (rec2 v2 str2 self c) as [[s2 c2]| | |];
      cbn [same_lines bind] in *; try contradiction; try assumption.
    destruct Hr as [Hs' ->]. now apply IH.
Qed.

Lemma render_nodes_same (indent : nat) (fuel : nat) :
  calls_write_alike buf1 buf2
    (render_nodes fuel tree1 indent) (render_nodes fuel tree2 indent).
Proof.
  induction fuel as [|fuel IH]; intros v1 v2 str1 str2 parent c Hv Hs;
    [exact I|].
  cbn [render_nodes].
  destruct v1 as [op1 ch1|x1|x1|], v2 as [op2 ch2|x2|x2|];
    cbn [node_shape] in Hv; try discriminate; cbv zeta.
  - inversion Hv as [[Hty Htx Hch]]. subst ch2.
    apply render_children_same; [exact IH|].
    apply declare_same; [|assumption]. unfold token_shape. congruence.
  - inversion Hv as [[Hty Htx]]. cbn [same_lines]. split; [|reflexivity].
    apply declare_same; [|assumption]. unfold token_shape. congruence.
  - inversion Hv as [[Hty Htx]]. cbn [same_lines]. split; [|reflexivity].
    apply declare_same; [|assumption]. unfold token_shape. congruence.
  - cbn [same_lines]. now split.
Qed.

Lemma render_roots_same (fuel : nat) (indent : nat) (roots : list node_t) :
  forall str1 str2 c g,
    flat_map (stmt_text buf1) str1 = flat_map (stmt_text buf2) str2 ->
    same_lines buf1 buf2
      (render_roots fuel tree1 roots str1 c g indent)
      (render_roots fuel tree2 roots str2 c g indent).
Proof.
  induction roots as [|r roots IH]; intros str1 str2 c g Hs;
    cbn [render_roots].
  - cbn [same_lines]. now split.
  - pose proof (index_same r) as Hi.
    destruct (index tree1 r) as [v1| | |], (index tree2 r) as [v2| | |];
      try contradiction; cbn [bind same_lines]; [|exact I].
    unfold render_cluster.
    match goal with
    | |- context [render_nodes fuel tree1 ?i v1 ?s1 c c] =>
        match goal with
        | |- context [render_nodes fuel tree2 i v2 ?s2 c c] =>
            assert (Hs0 : flat_map (stmt_text buf1) s1
                          = flat_map (stmt_text buf2) s2)
              by (rewrite !flat_map_app; cbn [flat_map stmt_text];
                  now rewrite Hs);
            pose proof (render_nodes_same i fuel v1 v2 s1 s2 c c Hi Hs0) as Hr
        end
    end.
    destruct (render_nodes fuel tree1 _ v1 _ c c) as [[s1 c1]| | |],
             (render_nodes fuel tree2 _ v2 _ c c) as [[s2 c2]| | |];
      cbn [same_lines bind] in *; try contradiction; try assumption.
    destruct Hr as [Hs' ->]. apply IH.
    rewrite !flat_map_app. cbn [flat_map stmt_text]. now rewrite Hs'.
Qed.

Lemma render_same (roots : list node_t) :
  render buf1 roots tree1 = render buf2 roots tree2.
Proof.
  unfold render, render_stmts.
  rewrite (same_shape_length _ _ _ _ Hshape).
  pose proof (render_roots_same (length tree2) 0 roots
                [Open 0 (bytes "digraph")] [Open 0 (bytes "digraph")] 0 0
                eq_refl) as Hr.
  destruct (render_roots (length tree2) tree1 roots _ 0 0 0) as [[s1 c1]| | |],
           (render_roots (length tree2) tree2 roots _ 0 0 0) as [[s2 c2]| | |];
    cbn [same_lines bind] in *; try contradiction; try reflexivity.
  - destruct Hr as [Hs _]. f_equal.
    rewrite !flat_map_app. cbn [flat_map stmt_text]. now rewrite Hs.
  - destruct Hr as [-> ->]. reflexivity.
Qed.

End SameShape.

(** The text depends on the kinds of the nodes, their children and the
    bytes of their tokens, not on where in the buffer the tokens lie: two
    arenas of the same shape, over whatever buffers, are rendered to the
    same text. *)
Theorem render_reads_shapes (buf1 buf2 : list ascii) (tree1 tree2 : AST)
    (roots : list node_t) :
  same_shape buf1 buf2 tree1 tree2 ->
  render buf1 roots tree1 = render buf2 roots tree2.
Proof. intros H. now apply render_same. Qed.

Lemma render_reads_shapes_witness :
  let buf1 := bytes "(a b)" ++ [NUL; NUL] in
  let buf2 := bytes " ( a  b )" ++ [NUL; NUL] in
  let tree1 :=
    [Identifer (mkToken (mkView 3 1) TOKEN_IDENTIFIER);
     List (mkToken (mkView 1 1) TOKEN_IDENTIFIER) [0]] in
  let tree2 :=
    [Identifer (mkToken (mkView 6 1) TOKEN_IDENTIFIER);
     List (mkToken (mkView 3 1) TOKEN_IDENTIFIER) [0]] in
  parse_buffer buf1 = Done ([1], tree1)
  /\ parse_buffer buf2 = Done ([1], tree2)
  /\ same_shape buf1 buf2 tree1 tree2
  /\ render buf1 [1] tree1 = render buf2 [1] tree2.
Proof.
  intros buf1 buf2 tree1 tree2.
  split; [reflexivity|]. split; [reflexivity|]. split; [reflexivity|].
  exact (render_reads_shapes buf1 buf2 tree1 tree2 [1] eq_refl).
Defined.

(** ** Whitespace and what is written *)

Lemma parse_buffer_alike (tail1 tail2 : list ascii)
    (items1 items2 : list (list ascii * lexeme)) (final1 final2 : list ascii) :
  map snd items1 = map snd items2 ->
  well_spaced items1 final1 = true -> starts_ok items1 = true ->
  well_spaced items2 final2 = true -> starts_ok items2 = true ->
  same_parse (layout tail1 items1 final1) (layout tail2 items2 final2)
    (parse_buffer (layout tail1 items1 final1))
    (parse_buffer (layout tail2 items2 final2)).
Proof.
  intros Hsame Hws1 Hst1 Hws2 Hst2.
  set (buf1 := layout tail1 items1 final1).
  set (buf2 := layout tail2 items2 final2).
  destruct (Lexer_new_Lexed tail1 items1 final1 Hws1 Hst1) as (lex1 & E1 & H1).
  destruct (Lexer_new_Lexed tail2 items2 final2 Hws2 Hst2) as (lex2 & E2 & H2).
  fold buf1 in E1, H1. fold buf2 in E2, H2. rewrite <- Hsame in H2.
  unfold parse_buffer, parse, parse_fuel. rewrite E1, E2. cbn [bind].
  pose proof (layout_length tail1 items1 final1) as L1.
  pose proof (layout_length tail2 items2 final2) as L2.
  fold buf1 in L1. fold buf2 in L2.
  assert (Hlen : length (map snd items1) = length items1)
    by apply length_map.
  assert (Hlen2 : length items2 = length items1)
    by (rewrite <- Hlen, Hsame; symmetry; apply length_map).
  pose proof (parse_loop_sim buf1 buf2 (S (S (length buf1)))
                (S (S (length buf2))) (map snd items1) lex1 lex2 [] [] []
                H1 H2 eq_refl) as Hsim.
  specialize (Hsim ltac:(lia) ltac:(lia)).
  destruct (parse_loop _ buf1 lex1 [] []) as [[[r1 l1] t1]| | |],
           (parse_loop _ buf2 lex2 [] []) as [[[r2 l2] t2]| | |];
    cbn [alike bind same_parse] in *; try contradiction; try assumption.
  destruct Hsim as (-> & Hs & _). now split.
Qed.

(** Two files that spell the same tokens, with whatever whitespace before,
    between and after them, give the same output, byte for byte, or are
    both rejected with the same message. *)
Theorem whitespace_keeps_output
    (items1 items2 : list (list ascii * lexeme)) (final1 final2 : list ascii) :
  map snd items1 = map snd items2 ->
  well_spaced items1 final1 = true -> starts_ok items1 = true ->
  well_spaced items2 final2 = true -> starts_ok items2 = true ->
  same_output (seed_main (source_text items1 final1))
              (seed_main (source_text items2 final2)).
Proof.
  intros Hsame Hws1 Hst1 Hws2 Hst2.
  pose proof (parse_buffer_alike [NUL] [NUL] items1 items2 final1 final2
                Hsame Hws1 Hst1 Hws2 Hst2) as Hp.
  unfold seed_main, read_file, c_str. rewrite <- !app_assoc. cbn [app].
  rewrite <- !layout_source.
  destruct (parse_buffer (layout [NUL] items1 final1))
    as [[roots1 tree1]| | |] eqn:E1,
    (parse_buffer (layout [NUL] items2 final2))
    as [[roots2 tree2]| | |] eqn:E2;
    cbn [same_parse bind same_output] in *; try contradiction;
    try assumption.
  destruct Hp as [-> Hs].
  rewrite (render_same _ _ _ _ Hs roots2).
  apply parse_buffer_forest in E2.
  destruct (render_stmts_clusters roots2 tree2 (bytes "digraph") 0 E2)
    as (body & c' & Hrun & _).
  unfold render. rewrite Hrun. cbn [bind same_output]. reflexivity.
Qed.

Lemma whitespace_keeps_output_witness :
  let items1 :=
    [([], LParen); ([], Symbol "a" []); ([space], Symbol "b" []);
     ([], RParen)] in
  let items2 :=
    [([space], LParen); ([newline], Symbol "a" []);
     ([tab; space], Symbol "b" []); ([space], RParen)] in
  map snd items1 = map snd items2
  /\ well_spaced items1 [] = true /\ starts_ok items1 = true
  /\ well_spaced items2 [newline] = true /\ starts_ok items2 = true
  /\ same_output (seed_main (source_text items1 []))
                 (seed_main (source_text items2 [newline])).
Proof.
  intros items1 items2.
  split; [reflexivity|]. split; [reflexivity|]. split; [reflexivity|].
  split; [reflexivity|]. split; [reflexivity|].
  exact (whitespace_keeps_output items1 items2 [] [newline]
           eq_refl eq_refl eq_refl eq_refl eq_refl).
Defined.

(** ** How the program ends *)









(** ** The order of the arena *)

Lemma StronglySorted_snoc (l : list nat) (x : nat) :
  StronglySorted lt l -> (forall y, In y l -> y < x) ->
  StronglySorted lt (l ++ [x]).
Proof.
  induction 1 as [|a l Hs IH Ha]; intros Hx; cbn [app].
  - repeat constructor.
  - constructor.
    + apply IH. intros y Hy. apply Hx. now right.
    + apply Forall_app. split; [assumption|].
      constructor; [|constructor]. apply Hx. now left.
Qed.

Lemma tidy_nil (base : nat) : tidy base [] [].
Proof.
  split; [constructor|]. split; [intros h []|]. split; [constructor|].
  intros i Hi. cbn [length] in Hi. lia.
Qed.

Lemma tidy_leaf (base : nat) (n : Node) :
  children_of n = [] -> tidy base [n] [base].
Proof.
  intros Hn. split; [repeat constructor|]. split.
  - intros h [<- | []]. cbn [length]. lia.
  - split.
    + constructor; [|constructor]. rewrite Hn. constructor.
    + intros i Hi. cbn [length] in Hi. left. lia.
Qed.

Lemma tidy_sub (base : nat) (new sub : list Node) (hs : list node_t) :
  tidy base new hs ->
  tidy (base + length new) sub [base + length new + length sub - 1] ->
  sub <> [] ->
  tidy base (new ++ sub) (hs ++ [base + length new + length sub - 1]).
Proof.
  intros (Hs & Hr & Hc & Hcov) (_ & _ & Hc' & Hcov') Hne.
  assert (0 < length sub) by (destruct sub; [congruence | simpl; lia]).
  split; [|split; [|split]].
  - apply StronglySorted_snoc; [assumption|].
    intros y Hy. apply Hr in Hy. lia.
  - intros h Hh. rewrite length_app. apply in_app_or in Hh as [Hh | [<- | []]].
    + apply Hr in Hh. lia.
    + lia.
  - apply Forall_app. now split.
  - intros i Hi. rewrite length_app in Hi. rewrite references_app.
    destruct (Nat.lt_ge_cases i (base + length new)) as [Hlt | Hge].
    + destruct (in_app_or _ _ _ (Hcov i ltac:(lia))) as [Hin | Hin].
      * apply in_or_app. left. apply in_or_app. now left.
      * apply in_or_app. right. apply in_or_app. now left.
    + destruct (in_app_or _ _ _ (Hcov' i ltac:(lia))) as [Hin | Hin].
      * apply in_or_app. left. apply in_or_app. now right.
      * apply in_or_app. right. apply in_or_app. now right.
Qed.

Lemma tidy_close (base : nat) (new : list Node) (hs : list node_t)
    (op : Token) :
  tidy base new hs ->
  tidy base (new ++ [List op hs]) [base + length new].
Proof.
  intros (Hs & Hr & Hc & Hcov). split; [repeat constructor|].
  rewrite length_app. cbn [length]. split; [|split].
  - intros h [<- | []]. lia.
  - apply Forall_app. split; [assumption|]. constructor; [|constructor].
    exact Hs.
  - intros i Hi. rewrite references_app. unfold references at 2.
    cbn [flat_map children_of]. rewrite app_nil_r.
    destruct (Nat.lt_ge_cases i (base + length new)) as [Hlt | Hge].
    + cbn [app]. right.
      destruct (in_app_or _ _ _ (Hcov i ltac:(lia))) as [Hin | Hin];
        apply in_or_app; [now right | now left].
    + cbn [app]. left. lia.
Qed.

Lemma expr_loop_tidy rec (buf : list ascii) (tree0 : AST) :
  appends_tidy rec ->
  forall fuel lex new hs hs' lex' tree',
    tidy (length tree0) new hs ->
    expr_loop rec fuel buf lex (tree0 ++ new) hs = Done (hs', lex', tree') ->
    exists new', tree' = tree0 ++ new' /\ tidy (length tree0) new' hs'.
Proof.
  intros Hrec. induction fuel as [|fuel IH];
    intros lex new hs hs' lex' tree' Hcol Hrun; [discriminate|].
  rewrite expr_loop_S in Hrun.
  destruct (tok_isnt (peek lex) TOKEN_RPAREN && tok_isnt (peek lex) TOKEN_EOF).
  2:{ inversion Hrun; subst. now exists new. }
  assert (Leaf : forall n lex1,
            children_of n = [] ->
            (let '(tree1, child) := add (tree0 ++ new) n in
             expr_loop rec fuel buf lex1 tree1 (hs ++ [child]))
            = Done (hs', lex', tree') ->
            exists new', tree' = tree0 ++ new'
                         /\ tidy (length tree0) new' hs').
  { intros n lex1 Hn Hrun1. rewrite add_spec, <- app_assoc in Hrun1.
    apply IH in Hrun1; [assumption|].
    replace (length (tree0 ++ new))
      with (length tree0 + length new + length [n] - 1)
      by (rewrite length_app; simpl; lia).
    apply tidy_sub; [assumption | | discriminate].
    cbn [length]. replace (length tree0 + length new + 1 - 1)
      with (length tree0 + length new) by lia.
    now apply tidy_leaf. }
  destruct (tok_is (peek lex) TOKEN_LPAREN).
  { apply bind_Done in Hrun as ([[child lex1] tree1] & Hcall & Hrun).
    apply Hrec in Hcall as (sub & -> & Hne & -> & Hsub).
    rewrite <- app_assoc in Hrun. apply IH in Hrun; [assumption|].
    rewrite length_app in *. now apply tidy_sub. }
  destruct (tok_is (peek lex) TOKEN_IDENTIFIER).
  { apply bind_Done in Hrun as ([tok lex1] & _ & Hrun).
    now apply Leaf in Hrun. }
  destruct (tok_is (peek lex) TOKEN_STRING).
  { apply bind_Done in Hrun as ([tok lex1] & _ & Hrun).
    now apply Leaf in Hrun. }
  now apply IH in Hrun.
Qed.

Lemma expr_appends_tidy (fuel : nat) (buf : list ascii) :
  appends_tidy (expr fuel buf).
Proof.
  induction fuel as [|fuel IH]; intros lex tree h lex' tree' Hrun;
    [discriminate|].
  rewrite expr_S in Hrun.
  apply bind_Done in Hrun as ([t lex1] & _ & Hrun).
  destruct (tok_isnt t TOKEN_LPAREN); [now apply error_not_Done in Hrun|].
  apply bind_Done in Hrun as ([op lex2] & _ & Hrun).
  destruct (tok_is op TOKEN_RPAREN).
  { rewrite add_spec in Hrun. inversion Hrun; subst.
    exists [Empty]. split; [reflexivity|]. split; [discriminate|].
    split; [simpl; lia | now apply tidy_leaf]. }
  destruct (tok_isnt op TOKEN_IDENTIFIER && tok_isnt op TOKEN_STRING);
    [now apply error_not_Done in Hrun|].
  apply bind_Done in Hrun as ([[children lex3] tree3] & Hloop & Hrun).
  apply bind_Done in Hrun as ([t' lex4] & _ & Hrun).
  destruct (tok_isnt t' TOKEN_RPAREN); [now apply error_not_Done in Hrun|].
  rewrite add_spec in Hrun. inversion Hrun; subst.
  rewrite <- (app_nil_r tree) in Hloop at 1.
  apply (expr_loop_tidy _ buf tree IH) in Hloop as (new & -> & Hcol);
    [|apply tidy_nil].
  exists (new ++ [List op children]). rewrite <- app_assoc.
  split; [reflexivity|]. split; [now destruct new|].
  split; [rewrite !length_app; simpl; lia|].
  rewrite length_app. now apply tidy_close.
Qed.

Lemma parse_loop_tidy (buf : list ascii) :
  forall fuel lex tree roots roots' lex' tree',
    tidy 0 tree roots ->
    parse_loop fuel buf lex tree roots = Done (roots', lex', tree') ->
    tidy 0 tree' roots'.
Proof.
  induction fuel as [|fuel IH];
    intros lex tree roots roots' lex' tree' Hcol Hrun; [discriminate|].
  rewrite parse_loop_S in Hrun.
  destruct (tok_isnt (peek lex) TOKEN_EOF).
  2:{ now inversion Hrun; subst. }
  apply bind_Done in Hrun as ([[root lex1] tree1] & Hcall & Hrun).
  apply expr_appends_tidy in Hcall as (sub & -> & Hne & -> & Hsub).
  apply IH in Hrun; [assumption|].
  now apply (tidy_sub 0).
Qed.

(** After a parse that succeeded no node of the arena is left out and
    none is shared: the roots and the handles held in the nodes are, up to
    their order, the indices of the arena, each once.  The roots go up,
    and so do the children of every node: nodes are stored in the order in
    which their expressions end in the source. *)
Theorem parse_refers_to_every_node (buf : list ascii) (roots : list node_t)
    (tree : AST) :
  parse_buffer buf = Done (roots, tree) ->
  Permutation (roots ++ references tree) (seq 0 (length tree))
  /\ StronglySorted lt roots
  /\ Forall (fun n => StronglySorted lt (children_of n)) tree.
Proof.
  intros Hparse.
  pose proof (parse_buffer_forest _ _ _ Hparse) as (Hroots & Hchild & _ & Hnd).
  unfold parse_buffer in Hparse.
  apply bind_Done in Hparse as (lex & _ & Hparse).
  apply bind_Done in Hparse as ([[roots' lex'] tree'] & Hrun & Hret).
  inversion Hret; subst.
  apply (parse_loop_tidy _ _ _ _ _ _ _ _ (tidy_nil 0)) in Hrun
    as (Hs & _ & Hc & Hcov).
  split; [|now split].
  apply NoDup_Permutation; [assumption | apply seq_NoDup|].
  intros x. rewrite in_seq. split.
  - intros Hin. split; [lia|]. cbn [Nat.add].
    apply in_app_or in Hin as [Hin | Hin]; [now apply Hroots|].
    apply in_flat_map in Hin as (n & Hn & Hx).
    apply In_nth_error in Hn as [p Hp].
    assert (Hcp : child_of tree x p) by (exists n; now split).
    apply Hchild in Hcp. lia.
  - intros Hx. apply Hcov. lia.
Qed.

Lemma parse_refers_to_every_node_witness :
  parse_buffer (c_str (read_file add_mul_x)) = Done ([4], add_mul_x_tree)
  /\ Permutation ([4] ++ references add_mul_x_tree)
       (seq 0 (length add_mul_x_tree))
  /\ StronglySorted lt [4]
  /\ Forall (fun n => StronglySorted lt (children_of n)) add_mul_x_tree.
Proof.
  split; [exact add_mul_x_parse|].
  exact (parse_refers_to_every_node _ _ _ add_mul_x_parse).
Defined.

(** ** What the parser accepts *)

(** Every sequence of lexemes that opens with a parenthesis starts with a
    proper form or is a form that goes wrong; every sequence starts with
    proper arguments up to a closing parenthesis, up to its end, or up to
    a form that goes wrong. *)
Lemma lexemes_split (n : nat) :
  (forall L' : list lexeme, length (LParen :: L') < S n ->
     (exists s rem,
        proper s && is_form s = true /\ LParen :: L' = lexemes_of s ++ rem)
     \/ (exists b, broken_ok b = true /\ LParen :: L' = lexemes_broken b))
  /\ (forall L : list lexeme, length L < n ->
        (exists args rem,
           forallb proper args = true
           /\ L = flat_map lexemes_of args ++ RParen :: rem)
        \/ (exists args,
              forallb proper args = true /\ L = flat_map lexemes_of args)
        \/ (exists args b,
              forallb proper args = true /\ broken_ok b = true
              /\ L = flat_map lexemes_of args ++ lexemes_broken b)).
Proof.
  induction n as [|n [IHe IHa]].
  - split; [|intros L HL; lia]. intros L' HL. cbn [length] in HL. lia.
  - assert (He : forall L' : list lexeme, length (LParen :: L') < S (S n) ->
              (exists s rem,
                 proper s && is_form s = true
                 /\ LParen :: L' = lexemes_of s ++ rem)
              \/ (exists b,
                    broken_ok b = true /\ LParen :: L' = lexemes_broken b)).
    { intros L' HL. cbn [length] in HL.
      destruct L' as [|[| |d body|c rest] L''].
      - right. exists (NoOperator []). now split.
      - right. exists (NoOperator (LParen :: L'')). now split.
      - left. exists Nil, L''. now split.
      - cbn [length] in HL.
        destruct (IHa L'' ltac:(lia))
          as [(args & rem & Hp & ->) | [(args & Hp & ->)
                                       | (args & b & Hp & Hb & ->)]].
        + left. exists (Form (Quoted d body) args), rem. split.
          * cbn [proper is_atom is_form]. now rewrite Hp.
          * cbn [lexemes_of app]. now rewrite <- app_assoc.
        + right. exists (Unclosed (Quoted d body) args). split.
          * cbn [broken_ok is_atom]. now rewrite Hp.
          * reflexivity.
        + right. exists (Within (Quoted d body) args b). split.
          * cbn [broken_ok is_atom]. now rewrite Hp, Hb.
          * reflexivity.
      - cbn [length] in HL.
        destruct (IHa L'' ltac:(lia))
          as [(args & rem & Hp & ->) | [(args & Hp & ->)
                                       | (args & b & Hp & Hb & ->)]].
        + left. exists (Form (Symbol c rest) args), rem. split.
          * cbn [proper is_atom is_form]. now rewrite Hp.
          * cbn [lexemes_of app]. now rewrite <- app_assoc.
        + right. exists (Unclosed (Symbol c rest) args). split.
          * cbn [broken_ok is_atom]. now rewrite Hp.
          * reflexivity.
        + right. exists (Within (Symbol c rest) args b). split.
          * cbn [broken_ok is_atom]. now rewrite Hp, Hb.
          * reflexivity. }
    split; [exact He|].
    assert (Hatom : forall a L',
              is_atom a = true -> length (a :: L') < S n ->
              (exists args rem,
                 forallb proper args = true
                 /\ a :: L' = flat_map lexemes_of args ++ RParen :: rem)
              \/ (exists args,
                    forallb proper args = true
                    /\ a :: L' = flat_map lexemes_of args)
              \/ (exists args b,
                    forallb proper args = true /\ broken_ok b = true
                    /\ a :: L' = flat_map lexemes_of args ++ lexemes_broken b)).
    { intros a L' Ha HL. cbn [length] in HL.
      destruct (IHa L' ltac:(lia))
        as [(args & rem & Hp & ->) | [(args & Hp & ->)
                                     | (args & b & Hp & Hb & ->)]].
      - left. exists (Atom a :: args), rem. split; [|reflexivity].
        cbn [forallb proper]. now rewrite Ha, Hp.
      - right. left. exists (Atom a :: args). split; [|reflexivity].
        cbn [forallb proper]. now rewrite Ha, Hp.
      - right. right. exists (Atom a :: args), b. split; [|now split].
        cbn [forallb proper]. now rewrite Ha, Hp. }
    intros L HL. destruct L as [|[| |d body|c rest] L'].
    + right. left. exists []. now split.
    + destruct (IHe L' HL) as [(s & rem & Hs & E) | (b & Hb & E)].
      * apply andb_true_iff in Hs as [Hs _].
        assert (Hrem : length rem < n).
        { apply (f_equal (@length _)) in E. rewrite length_app in E.
          pose proof (lexemes_of_not_nil s). cbn [length] in *. lia. }
        rewrite E.
        destruct (IHa rem Hrem)
          as [(args & rem' & Hp & ->) | [(args & Hp & ->)
                                        | (args & b & Hp & Hb & ->)]].
        -- left. exists (s :: args), rem'. split.
           ++ cbn [forallb]. now rewrite Hs, Hp.
           ++ cbn [flat_map]. now rewrite <- app_assoc.
        -- right. left. exists (s :: args). split; [|reflexivity].
           cbn [forallb]. now rewrite Hs, Hp.
        -- right. right. exists (s :: args), b. split; [|split].
           ++ cbn [forallb]. now rewrite Hs, Hp.
           ++ assumption.
           ++ cbn [flat_map]. now rewrite <- app_assoc.
      * right. right. exists [], b. now split.
    + left. exists [], L'. now split.
    + now apply Hatom.
    + now apply Hatom.
Qed.

(** Every sequence of lexemes is made of proper forms, or of proper forms
    and then a form that goes wrong, or of proper forms and then a token
    that opens no form. *)
Lemma lexemes_classified (n : nat) :
  forall L : list lexeme, length L < n ->
    (exists forms,
       forallb (fun s => proper s && is_form s) forms = true
       /\ L = flat_map lexemes_of forms)
    \/ (exists forms b,
          forallb (fun s => proper s && is_form s) forms = true
          /\ broken_ok b = true
          /\ L = flat_map lexemes_of forms ++ lexemes_broken b)
    \/ (exists forms l rest,
          forallb (fun s => proper s && is_form s) forms = true
          /\ l <> LParen
          /\ L = flat_map lexemes_of forms ++ l :: rest).
Proof.
  induction n as [|n IH]; intros L HL; [lia|].
  destruct L as [|l L'].
  - left. exists []. now split.
  - destruct l as [| |d body|c rest].
    2:{ right. right. exists [], RParen, L'. now split. }
    2:{ right. right. exists [], (Quoted d body), L'. now split. }
    2:{ right. right. exists [], (Symbol c rest), L'. now split. }
    destruct (proj1 (lexemes_split n) L' HL)
      as [(s & rem & Hs & E) | (b & Hb & E)].
    + assert (Hrem : length rem < n).
      { apply (f_equal (@length _)) in E. rewrite length_app in E.
        pose proof (lexemes_of_not_nil s). cbn [length] in *. lia. }
      rewrite E.
      destruct (IH rem Hrem)
        as [(forms & Hf & ->) | [(forms & b & Hf & Hb & ->)
                                | (forms & l & rest & Hf & Hl & ->)]].
      * left. exists (s :: forms). split; [|reflexivity].
        cbn [forallb]. now rewrite Hs, Hf.
      * right. left. exists (s :: forms), b. split; [|split].
        -- cbn [forallb]. now rewrite Hs, Hf.
        -- assumption.
        -- cbn [flat_map]. now rewrite <- app_assoc.
      * right. right. exists (s :: forms), l, rest. split; [|split].
        -- cbn [forallb]. now rewrite Hs, Hf.
        -- assumption.
        -- cbn [flat_map]. now rewrite <- app_assoc.
    + right. left. exists [], b. now split.
Qed.

(** The parser accepts proper forms and nothing else: the tokens of a
    source that is parsed are those of a sequence of forms, each an
    operator and arguments between parentheses, or two parentheses with
    nothing between them. *)
Theorem parse_accepts_forms_only (tail : list ascii)
    (items : list (list ascii * lexeme)) (final : list ascii)
    (roots : list node_t) (tree : AST) :
  well_spaced items final = true -> starts_ok items = true ->
  parse_buffer (layout tail items final) = Done (roots, tree) ->
  exists forms,
    map snd items = flat_map lexemes_of forms
    /\ forallb (fun s => proper s && is_form s) forms = true
    /\ roots = snd (arena_of forms)
    /\ map (node_shape (layout tail items final)) tree = fst (arena_of forms).
Proof.
  intros Hws Hst Hparse.
  destruct (lexemes_classified (S (length (map snd items))) (map snd items)
              (Nat.lt_succ_diag_r _))
    as [(forms & Hf & E) | [(forms & b & Hf & Hb & E)
                           | (forms & l & rest & Hf & Hl & E)]].
  - exists forms. split; [assumption|]. split; [assumption|].
    destruct (parse_buffer_reads tail items final forms E Hf Hws)
      as (tree' & Hparse' & Hsh & _).
    cbv zeta in Hparse'. rewrite Hparse in Hparse'.
    inversion Hparse'; subst. now split.
  - destruct (parse_buffer_broken tail items final forms b E Hf Hb Hws)
      as [pos Hfail].
    rewrite Hparse in Hfail. discriminate.
  - destruct (parse_buffer_stray tail items final forms l rest E Hf Hl Hws Hst)
      as [pos Hfail].
    rewrite Hparse in Hfail. discriminate.
Qed.

Lemma parse_accepts_forms_only_witness :
  let items :=
    [([], LParen); ([], Symbol "a" []); ([space], Symbol "b" []);
     ([], RParen)] in
  let tree :=
    [Identifer (mkToken (mkView 3 1) TOKEN_IDENTIFIER);
     List (mkToken (mkView 1 1) TOKEN_IDENTIFIER) [0]] in
  well_spaced items [] = true /\ starts_ok items = true
  /\ parse_buffer (layout [NUL] items []) = Done ([1], tree)
  /\ exists forms,
       map snd items = flat_map lexemes_of forms
       /\ forallb (fun s => proper s && is_form s) forms = true
       /\ [1] = snd (arena_of forms)
       /\ map (node_shape (layout [NUL] items [])) tree = fst (arena_of forms).
Proof.
  intros items tree.
  split; [reflexivity|]. split; [reflexivity|]. split; [reflexivity|].
  exact (parse_accepts_forms_only [NUL] items [] [1] tree
           eq_refl eq_refl eq_refl).
Defined.

(** ** A file that parses is drawn *)

Lemma seed_main_renders_witness :
  parse_buffer (c_str (read_file add_mul_x)) = Done ([4], add_mul_x_tree)
  /\ exists text, seed_main add_mul_x = Done text.
Proof.
  split; [exact add_mul_x_parse|].
  exact (seed_main_renders add_mul_x [4] add_mul_x_tree add_mul_x_parse).
Defined.
